(** * pss-demo: overlay topology manager and pss messaging engine

    A shallow embedding of
    - [swarm/network/kademlia.go]: [Register], [eachConn],
      [neighbourhoodDepth], [callable];
    - the pss engine (package [pss]): [handlePssMsg],
      [isSelfPossibleRecipient], [SendSym], [SendAsym], [send], [forward],
      [addFwdCache], [checkFwdCache], [storeMsg];
    - [swarm/pss/types.go]: [PssMsg], [pssDigest].

    Conventions.
    - Go [[]byte] is [list byte]; [nil] and the empty slice are both [[]]
      ([bytes.Equal] does not tell them apart). A slice expression
      [s[:n]] is [slice_to], which panics when [n] exceeds the length
      (capacity is taken equal to length).
    - Go [int] is a 64-bit two's complement integer: a [Z] with [wrap64]
      written where the source computes with it. Counters of the elements
      of a collection held in memory ([size++], [sent++]) stay below
      [2^63] and are left unwrapped.
    - [time.Time] is a [Z]: nanoseconds since the zero time instant, so
      that [IsZero] is a test against [0].
    - A Go [error] is [option error]; [None] is [nil]. *)

From Stdlib Require Import ZArith Lia.
From Stdlib.Strings Require Import Byte.
From stdpp Require Import gmap strings list sorting.

#[global] Instance byte_eq_dec : EqDecision byte := Byte.byte_eq_dec.
#[global] Instance byte_countable : Countable byte :=
  inj_countable Byte.to_N Byte.of_N Byte.of_to_N.

Abbreviation OverlayAddress := (list byte).

Local Open Scope Z_scope.

(** ** Outcomes of Go code that may panic *)

Inductive result (A : Type) : Type :=
| Ok (a : A)
| Panic.
Arguments Ok {A} a.
Arguments Panic {A}.

(** [s[:n]] *)
Definition slice_to (n : nat) (s : list byte) : result (list byte) :=
  if decide (n ≤ length s)%nat then Ok (take n s) else Panic.

(** [bytes.Equal] *)
Definition bytes_Equal (a b : list byte) : bool := bool_decide (a = b).

(** Outcomes of a loop whose termination depends on its inputs: the
    model runs it on [fuel]. *)
Inductive run (A : Type) : Type :=
| Done (a : A)
| DivideByZero
| OutOfFuel.
Arguments Done {A} a.
Arguments DivideByZero {A}.
Arguments OutOfFuel {A}.

(** Go [int] and [int64] arithmetic wraps around. *)
Definition minInt64 : Z := - 2 ^ 63.
Definition maxInt64 : Z := 2 ^ 63 - 1.
Definition wrap64 (z : Z) : Z := (z + 2 ^ 63) mod 2 ^ 64 - 2 ^ 63.

(** [uint32(x)] *)
Definition uint32 (z : Z) : Z := z mod 2 ^ 32.

(** ** Time *)

Abbreviation Time := Z (only parsing).
Abbreviation Duration := Z (only parsing).

(** Seconds from the zero time (January 1, year 1) to the Unix epoch. *)
Definition unixToInternal : Z := 62135596800.

(** [time.Unix(sec, 0)] *)
Definition time_Unix (sec : Z) : Time := (unixToInternal + sec) * 1000000000.

(** [t.Unix()] *)
Definition Time_Unix (t : Time) : Z := t `div` 1000000000 - unixToInternal.

(** [time.Since(t)] at the instant [now]; a [Duration] saturates. *)
Definition time_Since (now t : Time) : Duration :=
  Z.max minInt64 (Z.min maxInt64 (now - t)).

(** ** Errors

    One constructor per error the modelled code builds; the formatted
    text is given next to each. *)

Abbreviation Topic := (list byte).

Inductive error :=
| ErrIsSelf (base : OverlayAddress)
    (* "add peers: %x is self" *)
| ErrInvalidTTL
    (* "Invalid TTL" *)
| ErrInvalidMessageType (ty : string)
    (* "invalid message type. Expected PssMsg pointer, got %T " *)
| ErrMissingSymKey (symkeyid : string)
    (* "missing valid send symkey %s: %v" *)
| ErrInvalidPublicKeyId
    (* "Invalid public key id %x" *)
| ErrInvalidTopic (topic : Topic) (keyid : string)
    (* "invalid topic '%s' for symkey '%s'" / "... for pubkey '%s'" *)
| ErrNoAddressHint (topic : Topic) (keyid : string)
    (* "no address hint for topic '%s' symkey '%s'" / "... pubkey '%s'" *)
| ErrZeroLengthKey
    (* "Zero length key passed to pss send" *)
| ErrRandRead
    (* the error returned by rand.Read *)
| ErrPaddingLength (c : Z)
    (* "invalid padding length: %d" *)
| ErrWhisperEncapsulation
    (* "failed to generate whisper message encapsulation: %v" *)
| ErrWhisperEncryption
    (* "failed to perform whisper encryption: %v" *)
| ErrStore.
    (* the error returned by dpa.Store *)

(** ** Package pot (proximity order trees) *)

Module pot.

(** [len(pot.Address{})] *)
Definition addressLength : nat := 32.

(** The bits of a byte, most significant first. *)
Definition byte_bits (b : byte) : list bool :=
  let n := Byte.to_N b in
  (λ i, N.testbit n i) <$> [7; 6; 5; 4; 3; 2; 1; 0]%N.

Definition bits (a : OverlayAddress) : list bool := a ≫= byte_bits.

Fixpoint common_prefix (x y : list bool) : nat :=
  match x, y with
  | a :: x', b :: y' => if Bool.eqb a b then S (common_prefix x' y') else O
  | _, _ => O
  end.

(** Modelled from the spec: package [pot] is imported by kademlia.go but
    its source is not among the sources of the repository.
    [pof = pot.DefaultPof(256)] is the
    proximity order of the data model: the index of the first differing
    bit, or the address length in bits (at most 256) if the addresses
    agree. *)
Definition pof (one other : OverlayAddress) : Z :=
  Z.min 256 (Z.of_nat (common_prefix (bits one) (bits other))).

Section Pot.
Context {V : Type} (key : V → OverlayAddress).

(** Modelled from the spec: a [pot.Pot] is a container of values keyed
    by address; the model keeps the values in a list. *)
Definition Size (t : list V) : Z := Z.of_nat (length t).

Fixpoint place (base : OverlayAddress) (v : V) (l : list V) : list V :=
  match l with
  | [] => [v]
  | x :: l' =>
      if pof (key x) base <=? pof (key v) base
      then v :: l
      else x :: place base v l'
  end.

(** Modelled from the spec: the order in which [EachNeighbour] visits
    the values, nearest to [base] first. *)
Definition neighbours (base : OverlayAddress) (t : list V) : list V :=
  foldr (place base) [] t.

(** An iterator that stops as soon as the callback answers [false]. *)
Fixpoint each {S : Type} (f : V → S → S * bool) (l : list V) (s : S)
  : S * bool :=
  match l with
  | [] => (s, true)
  | v :: l' =>
      let '(s', next) := f v s in
      if next then each f l' s' else (s', false)
  end.

(** Modelled from the spec: [t.EachNeighbour(base, pof, f)] calls
    [f(val, po)] on the values nearest first, with [po] the proximity
    order of the value to [base], until [f] returns [false]. The state
    [S] is what the Go closure captures and mutates. *)
Definition EachNeighbour {S : Type} (t : list V) (base : OverlayAddress)
    (f : V → Z → S → S * bool) (s : S) : S :=
  fst (each (λ v, f v (pof (key v) base)) (neighbours base t) s).

Definition has_key (k : OverlayAddress) (v : V) : bool := bytes_Equal (key v) k.

Fixpoint replace (k : OverlayAddress) (n : option V) (t : list V) : list V :=
  match t with
  | [] => []
  | x :: t' =>
      if has_key k x
      then match n with Some v => v :: t' | None => t' end
      else x :: replace k n t'
  end.

(** Modelled from the spec: [pot.Swap(t, k, pof, f)] looks the key up,
    applies [f] to the value found ([None] for Go's [nil]) and stores
    what [f] returns; a [nil] result removes the value. It returns the
    new pot and whether the key was found. *)
Definition Swap (t : list V) (k : OverlayAddress) (f : option V → option V)
  : list V * bool :=
  match List.find (has_key k) t with
  | Some old => (replace k (f (Some old)) t, true)
  | None =>
      match f None with
      | Some v => (t ++ [v], false)
      | None => (t, false)
      end
  end.

Definition keys (t : list V) : list OverlayAddress := key <$> t.

(** Nearest first: proximity orders to [base] never increase. *)
Definition nearest_first (base : OverlayAddress) (l : list V) : Prop :=
  StronglySorted (λ x y, pof (key y) base ≤ pof (key x) base) l.
End Pot.

End pot.

(** ** Package network: the Kademlia table *)

Module network.

Record KadParams := {
  MaxProxDisplay : Z;
  MinProxBinSize : Z;
  MinBinSize : Z;
  MaxBinSize : Z;
  RetryInterval : Z;
  RetryExponent : Z;
  MaxRetries : Z;
  PruneInterval : Z;
  Reachable : option (OverlayAddress → bool)
}.

Definition NewKadParams : KadParams := {|
  MaxProxDisplay := 16;
  MinProxBinSize := 2;
  MinBinSize := 2;
  MaxBinSize := 4;
  RetryInterval := 4200000000;
  MaxRetries := 42;
  RetryExponent := 2;
  PruneInterval := 0;
  Reachable := None
|}.


(** The dynamic type behind the [OverlayPeer] interface of an entry: a
    peer record ([OverlayAddr]) or a connected peer ([OverlayConn]).
    [sender] tells whether the connection also implements the
    [senderPeer] interface of package pss. *)
Inductive OverlayPeer :=
| PeerAddr (a : OverlayAddress)
| PeerConn (a : OverlayAddress) (sender : bool).

Definition Address (p : OverlayPeer) : OverlayAddress :=
  match p with PeerAddr a => a | PeerConn a _ => a end.

Record entry := {
  peer : OverlayPeer;
  seenAt : Time;
  retries : Z
}.

Definition newEntry (p : OverlayPeer) (now : Time) : entry :=
  {| peer := p; seenAt := now; retries := 0 |}.

Definition entry_Address (e : entry) : OverlayAddress := Address (peer e).

(** [e.conn()]: the connected peer as (address, sender), [None] for
    Go's [nil] when the entry holds a plain record. *)
Definition conn (e : entry) : option (OverlayAddress * bool) :=
  match peer e with
  | PeerConn a sender => Some (a, sender)
  | PeerAddr _ => None
  end.

(** [e.addr()]: the peer record. *)
Definition addr (e : entry) : option OverlayAddress :=
  match peer e with
  | PeerAddr a => Some a
  | PeerConn _ _ => None
  end.

Record Kademlia := {
  params : KadParams;
  base : OverlayAddress;
  addrs : list entry;
  conns : list entry;
  depth : Z
}.

Definition NewKademlia (a : OverlayAddress) (p : option KadParams) : Kademlia :=
  {| params := default NewKadParams p;
     base := a; addrs := []; conns := []; depth := 0 |}.

Definition set_addrs (k : Kademlia) (t : list entry) : Kademlia :=
  {| params := params k; base := base k; addrs := t;
     conns := conns k; depth := depth k |}.

(** The loop of [Register] over [peers], from the state [(k, known,
    size)]. Every [newEntry] of one call reads the clock as [now]. *)
Fixpoint Register_from (now : Time) (peers : list OverlayAddress)
    (k : Kademlia) (known size : Z) : Kademlia * option error :=
  match peers with
  | [] => (k, None)
  | p :: rest =>
      if bytes_Equal p (base k) then (k, Some (ErrIsSelf (base k)))
      else
        let '(t, found) :=
          pot.Swap entry_Address (addrs k) p
            (λ v, match v with
                  | None => Some (newEntry (PeerAddr p) now)
                  | Some v => Some v
                  end) in
        let k := set_addrs k t in
        let known := if found then known + 1 else known in
        Register_from now rest k known (size + 1)
  end.

Definition Register (k : Kademlia) (peers : list OverlayAddress) (now : Time)
  : Kademlia * option error :=
  Register_from now peers k 0 0.

(** [neighbourhoodDepth]: the closure state is [(size, depth)], the
    named result [depth] starts at [0]. *)
Definition neighbourhoodDepth (k : Kademlia) : Z :=
  if pot.Size (conns k) <? MinProxBinSize (params k) then 0
  else
    let f (v : entry) (i : Z) '(size, depth) :=
      let size := size + 1 in
      let depth := i in
      ((size, depth), size <? MinProxBinSize (params k)) in
    snd (pot.EachNeighbour entry_Address (conns k) (base k) f (0, 0)).

(** [eachConn(base, o, f)]; [f] receives the [conn()] of each entry. *)
Definition eachConn {S : Type} (k : Kademlia) (base0 : OverlayAddress) (o : Z)
    (f : option (OverlayAddress * bool) → Z → bool → S → S * bool) (s : S) : S :=
  let base0 := if bool_decide (length base0 = O) then base k else base0 in
  let depth := neighbourhoodDepth k in
  pot.EachNeighbour entry_Address (conns k) base0
    (λ val po s, if o <? po then (s, true) else f (conn val) po (depth <=? po) s)
    s.

(** The retry loop of [callable]:
    [for delta := timeAgo; delta > k.RetryInterval; delta /= div { retries++ }] *)
Fixpoint retry_loop (fuel : nat) (interval div delta retries : Z) : run Z :=
  if interval <? delta then
    match fuel with
    | O => OutOfFuel
    | S fuel' =>
        if div =? 0 then DivideByZero
        else retry_loop fuel' interval div
               (wrap64 (delta `quot` div)) (wrap64 (retries + 1))
    end
  else Done retries.

Definition set_retries (e : entry) (r : Z) : entry :=
  {| peer := peer e; seenAt := seenAt e; retries := r |}.

(** [callable(val)] at the instant [now], with [intn] the value drawn by
    [rand.Intn(300000)]. It returns the address record ([None] for
    [nil]) and the entry as the call leaves it. *)
Definition callable (fuel : nat) (k : Kademlia) (now : Time) (intn : Z)
    (e : entry) : run (option OverlayAddress * entry) :=
  if bool_decide (conn e ≠ None) || (MaxRetries (params k) <? retries e)
  then Done (None, e)
  else
    let timeAgo := time_Since now (seenAt e) in
    let div := RetryExponent (params k) in
    let div :=
      wrap64 (div + wrap64 (wrap64 (150000 - intn) * div) `quot` 1000000) in
    match retry_loop fuel (RetryInterval (params k)) div timeAgo 0 with
    | Done retries' =>
        if retries' <? retries e then Done (None, e)
        else
          match Reachable (params k) with
          | Some reachable =>
              if negb (reachable (entry_Address e)) then Done (None, e)
              else Done (addr e, set_retries e (wrap64 (retries e + 1)))
          | None => Done (addr e, set_retries e (wrap64 (retries e + 1)))
          end
    | DivideByZero => DivideByZero
    | OutOfFuel => OutOfFuel
    end.

End network.

(** ** Package pss: the messaging engine *)

Module pss.
Import network.

Definition defaultPaddingByteSize : Z := 16.
Definition defaultMsgTTL : Duration := 8 * 1000000000.
Definition defaultDigestCacheTTL : Duration := 1000000000.
Definition digestLength : nat := 32.
Definition addressLength : nat := pot.addressLength.

(** [pssDigest{}] *)
Definition zeroDigest : list byte := replicate digestLength x00.

(** A [whisper.Envelope] is opaque to this development. *)
Abbreviation Envelope := (list byte).

Record PssMsg := {
  To : list byte;
  Expire : Z;
  Payload : Envelope
}.

(** What [handlePssMsg] may be handed by the protocol layer. *)
Inductive wiremsg :=
| IsPssMsg (m : PssMsg)
| OtherMsg (ty : string).

Record pssCacheEntry := {
  expiresAt : Time;
  receivedFrom : list byte
}.

Record pssPeer := {
  lastSeen : Time;
  address : option (list byte);
  protected : bool
}.

(** The fields of [whisper.MessageParams] that [send] varies; [TTL],
    [Src], [WorkTime] and [PoW] are constants of the node. *)
Record MessageParams := {
  mpTopic : Topic;
  mpPayload : list byte;
  mpPadding : list byte;
  mpDst : option (list byte);
  mpKeySym : option (list byte)
}.

(** The collaborators of the engine and the clock, as one call sees
    them. Their code is not among the sources of the repository, so each
    is a parameter. *)
Record World := {
  now : Time;
  (* rlp.EncodeToBytes *)
  serialize : PssMsg → list byte;
  (* dpa.Store: the key, None for an error *)
  dpaStore : list byte → option (list byte);
  (* Send on the fwdPool peer of a connection: true when it returns nil *)
  peerSend : OverlayAddress → PssMsg → bool;
  (* rand.Read on a buffer of n bytes: the bytes, the count, the error *)
  randRead : Z → list byte * Z * option error;
  (* whisper.GetSymKey: None for an error *)
  GetSymKey : string → option (list byte);
  (* common.FromHex *)
  FromHex : string → list byte;
  (* crypto.ToECDSAPub: false for nil *)
  ToECDSAPub : list byte → bool;
  (* whisper.NewSentMessage: false for an error *)
  NewSentMessage : MessageParams → bool;
  (* Wrap on the sent message: None for an error *)
  Wrap : MessageParams → option Envelope;
  (* the result of process: decryption and handler dispatch *)
  processed : PssMsg → bool
}.

Record Pss := {
  Overlay : Kademlia;
  fwdCache : gmap (list byte) pssCacheEntry;
  cacheTTL : Duration;
  msgTTL : Duration;
  paddingByteSize : Z;
  pubKeyPool : gmap string (gmap Topic pssPeer);
  symKeyPool : gmap string (gmap Topic pssPeer)
}.

Definition set_fwdCache (s : Pss) (c : gmap (list byte) pssCacheEntry) : Pss :=
  {| Overlay := Overlay s; fwdCache := c; cacheTTL := cacheTTL s;
     msgTTL := msgTTL s; paddingByteSize := paddingByteSize s;
     pubKeyPool := pubKeyPool s; symKeyPool := symKeyPool s |}.

(** What a call does to the collaborators, in order. *)
Inductive event :=
| EvStore (data : list byte)
| EvSend (to : OverlayAddress) (msg : PssMsg) (ok : bool)
| EvRandRead (n : Z)
| EvNewSentMessage
| EvWrap
| EvProcess (msg : PssMsg).

(** *** A state, trace and panic monad for the methods of [Pss] *)

Definition M (A : Type) : Type := Pss → result (A * Pss * list event).

#[export] Instance M_ret : MRet M := λ A a s, Ok (a, s, []).

#[export] Instance M_bind : MBind M := λ A B f m s,
  match m s with
  | Panic => Panic
  | Ok (a, s1, tr1) =>
      match f a s1 with
      | Panic => Panic
      | Ok (b, s2, tr2) => Ok (b, s2, tr1 ++ tr2)
      end
  end.

Definition ret {A} (a : A) : M A := mret a.
Definition get : M Pss := λ s, Ok (s, s, []).
Definition put (s : Pss) : M unit := λ _, Ok (tt, s, []).
Definition emit (tr : list event) : M unit := λ s, Ok (tt, s, tr).
Definition panic {A} : M A := λ _, Panic.

(** *** Caching *)

Definition addFwdCache (w : World) (digest : list byte) : M (option error) :=
  s ← get;
  let entry :=
    match fwdCache s !! digest with
    | Some entry => entry
    | None => {| expiresAt := 0; receivedFrom := [] |}
    end in
  let entry :=
    {| expiresAt := now w + cacheTTL s;
       receivedFrom := receivedFrom entry |} in
  put (set_fwdCache s (<[digest := entry]> (fwdCache s))) ;;
  ret None.

(** [checkFwdCache] only reads the state. *)
Definition checkFwdCache (w : World) (s : Pss) (addr digest : list byte)
  : bool :=
  match fwdCache s !! digest with
  | Some entry =>
      if now w <? expiresAt entry then true
      else if (expiresAt entry =? 0) && bytes_Equal addr (receivedFrom entry)
      then true
      else false
  | None => false
  end.

Definition storeMsg (w : World) (msg : PssMsg)
  : M (list byte * option error) :=
  let buf := serialize w msg in
  emit [EvStore buf] ;;
  match dpaStore w buf with
  | None => ret (zeroDigest, Some ErrStore)
  | Some key =>
      match slice_to digestLength key with
      | Panic => panic
      | Ok digest => ret (digest, None)
      end
  end.

(** *** Forwarding *)

(** The closure that [forward] hands to [EachConn]. Its state is the
    counter [sent] and the sends made so far, or a panic. *)
Definition visit (w : World) (s : Pss) (msg : PssMsg) (digest : list byte)
    (op : option (OverlayAddress * bool)) (po : Z) (isproxbin : bool)
    (st : result (Z * list event)) : result (Z * list event) * bool :=
  match st, op with
  | Panic, _ => (Panic, false)
  | Ok _, None => (Panic, false) (* op.Address() on a nil interface *)
  | Ok (sent, tr), Some (a, sender) =>
      if negb sender then (Ok (sent, tr), false)
      else if checkFwdCache w s a digest then (Ok (sent, tr), true)
      else
        let ok := peerSend w a msg in
        let tr := tr ++ [EvSend a msg ok] in
        if negb ok then (Ok (sent, tr), true)
        else
          let sent := sent + 1 in
          if bool_decide (length (To msg) < addressLength)%nat then
            match slice_to (length (To msg)) a with
            | Panic => (Panic, false)
            | Ok pre =>
                if bytes_Equal (To msg) pre then (Ok (sent, tr), true)
                else if isproxbin then (Ok (sent, tr), true)
                else (Ok (sent, tr), false)
            end
          else if isproxbin then (Ok (sent, tr), true)
          else (Ok (sent, tr), false)
  end.

(** [to := make([]byte, addressLength); copy(to[:len(msg.To)], msg.To)] *)
Definition padded (msgTo : list byte) : result OverlayAddress :=
  if decide (length msgTo ≤ addressLength)%nat
  then Ok (msgTo ++ replicate (addressLength - length msgTo) x00)
  else Panic.

Definition forward (w : World) (msg : PssMsg) : M (option error) :=
  match padded (To msg) with
  | Panic => panic
  | Ok to =>
      '(digest, err) ← storeMsg w msg;
      s ← get;
      if checkFwdCache w s [] digest then ret None
      else
        match eachConn (Overlay s) to 256 (visit w s msg digest) (Ok (0, []))
        with
        | Panic => panic
        | Ok (sent, tr) =>
            emit tr ;;
            if sent =? 0 then ret None
            else addFwdCache w digest ;; ret None
        end
  end.

(** *** Message handling *)

Definition isSelfPossibleRecipient (s : Pss) (msg : PssMsg) : result bool :=
  let local := base (Overlay s) in
  match slice_to (length (To msg)) local with
  | Panic => Panic
  | Ok pre => Ok (bytes_Equal (To msg) pre)
  end.

(** [process] decrypts with whisper and dispatches to the handlers; its
    verdict is the collaborator [processed]. The extra [forward] that it
    starts in a goroutine for a partial address runs beside the caller
    and is not part of what [handlePssMsg] returns. *)
Definition process (w : World) (pssmsg : PssMsg) : M bool :=
  emit [EvProcess pssmsg] ;; ret (processed w pssmsg).

Definition handlePssMsg (w : World) (msg : wiremsg) : M (option error) :=
  match msg with
  | IsPssMsg pssmsg =>
      s ← get;
      match isSelfPossibleRecipient s pssmsg with
      | Panic => panic
      | Ok false =>
          let msgexp := time_Unix (Expire pssmsg) in
          if msgexp <? now w then ret None
          else if now w + msgTTL s <? msgexp then ret (Some ErrInvalidTTL)
          else forward w pssmsg
      | Ok true =>
          ok ← process w pssmsg;
          if negb ok then forward w pssmsg else ret None
      end
  | OtherMsg ty => ret (Some (ErrInvalidMessageType ty))
  end.

(** *** Message sending *)

Definition send (w : World) (to : list byte) (topic : Topic)
    (msg : list byte) (asymmetric : bool) (key : list byte)
  : M (option error) :=
  if bytes_Equal key [] then ret (Some ErrZeroLengthKey)
  else
    s ← get;
    emit [EvRandRead (paddingByteSize s)] ;;
    let '(padding, c, err) := randRead w (paddingByteSize s) in
    match err with
    | Some e => ret (Some e)
    | None =>
        if c <? paddingByteSize s then ret (Some (ErrPaddingLength c))
        else
          let wparams :=
            {| mpTopic := topic; mpPayload := msg; mpPadding := padding;
               mpDst := if asymmetric then Some key else None;
               mpKeySym := if asymmetric then None else Some key |} in
          emit [EvNewSentMessage] ;;
          if negb (NewSentMessage w wparams)
          then ret (Some ErrWhisperEncapsulation)
          else
            emit [EvWrap] ;;
            match Wrap w wparams with
            | None => ret (Some ErrWhisperEncryption)
            | Some envelope =>
                let pssmsg :=
                  {| To := to;
                     Expire := uint32 (Time_Unix (now w + msgTTL s));
                     Payload := envelope |} in
                forward w pssmsg
            end
    end.

Definition pool_lookup (pool : gmap string (gmap Topic pssPeer))
    (keyid : string) (topic : Topic) : option pssPeer :=
  pool !! keyid ≫= (λ topics, topics !! topic).

Definition SendSym (w : World) (symkeyid : string) (topic : Topic)
    (msg : list byte) : M (option error) :=
  match GetSymKey w symkeyid with
  | None => ret (Some (ErrMissingSymKey symkeyid))
  | Some symkey =>
      s ← get;
      match pool_lookup (symKeyPool s) symkeyid topic with
      | None => ret (Some (ErrInvalidTopic topic symkeyid))
      | Some psp =>
          match address psp with
          | None => ret (Some (ErrNoAddressHint topic symkeyid))
          | Some a =>
              err ← send w a topic msg false symkey;
              ret err
          end
      end
  end.

Definition SendAsym (w : World) (pubkeyid : string) (topic : Topic)
    (msg : list byte) : M (option error) :=
  if negb (ToECDSAPub w (FromHex w pubkeyid))
  then ret (Some ErrInvalidPublicKeyId)
  else
    s ← get;
    match pool_lookup (pubKeyPool s) pubkeyid topic with
    | None => ret (Some (ErrInvalidTopic topic pubkeyid))
    | Some psp =>
        match address psp with
        | None => ret (Some (ErrNoAddressHint topic pubkeyid))
        | Some a =>
            send w a topic msg true (FromHex w pubkeyid) ;;
            ret None
        end
    end.

End pss.

(** ** Notions used to state the properties *)

Module notions.
Import network pss.

(** What one round of the loop of [Register] does to the known
    addresses. *)
Definition learn (now : Time) (t : list entry) (p : OverlayAddress)
  : list entry :=
  if bool_decide (p ∈ pot.keys entry_Address t) then t
  else t ++ [newEntry (PeerAddr p) now].


(** The addresses to which a trace attempts a send, in order. *)
Definition sends (tr : list event) : list OverlayAddress :=
  omap (λ ev, match ev with EvSend a _ _ => Some a | _ => None end) tr.

(** The addresses whose send returned no error. *)
Definition accepted (tr : list event) : list OverlayAddress :=
  omap (λ ev, match ev with EvSend a _ true => Some a | _ => None end) tr.

(** The digest that [storeMsg] computes when the store succeeds. *)
Definition stored_digest (w : World) (msg : PssMsg) : option (list byte) :=
  match dpaStore w (serialize w msg) with
  | Some key =>
      match slice_to digestLength key with
      | Ok digest => Some digest
      | Panic => None
      end
  | None => None
  end.

(** The digest that [forward] works with: the stored one, or the zero
    value that [storeMsg] returns next to an error. *)
Definition forward_digest (w : World) (msg : PssMsg) : result (list byte) :=
  match dpaStore w (serialize w msg) with
  | Some key => slice_to digestLength key
  | None => Ok zeroDigest
  end.

(** The cache entry that [addFwdCache] writes for [digest]. *)
Definition cached (w : World) (s : Pss) (digest : list byte) : pssCacheEntry :=
  {| expiresAt := now w + cacheTTL s;
     receivedFrom :=
       match fwdCache s !! digest with
       | Some entry => receivedFrom entry
       | None => []
       end |}.

(** The table invariant on live connections: [On] enters connected
    peers only, one per address; every such peer speaks the pss protocol
    ([senderPeer]) and has a full-length address. *)
Definition live_table (k : Kademlia) : Prop :=
  NoDup (pot.keys entry_Address (conns k)) ∧
  Forall (λ e, ∃ a, peer e = PeerConn a true ∧ length a = addressLength)
         (conns k).

(** The elements of a list up to and including the first that [stop]
    holds of. *)
Fixpoint upto {A : Type} (stop : A → bool) (l : list A) : list A :=
  match l with
  | [] => []
  | x :: l' => if stop x then [x] else x :: upto stop l'
  end.

(** The per-peer cache check of [forward]. *)
Definition blocked (w : World) (s : Pss) (digest : list byte) (v : entry)
  : bool :=
  checkFwdCache w s (entry_Address v) digest.

(** The destination is a strict prefix and agrees with the peer address
    truncated to its length. *)
Definition prefix_match (msg : PssMsg) (a : OverlayAddress) : bool :=
  bool_decide (length (To msg) < addressLength)%nat &&
  bytes_Equal (To msg) (take (length (To msg)) a).

(** The peer is within the neighbourhood depth, as [eachConn] reports it
    to the closure: the proximity order of the peer to the reference
    address is at least the depth. *)
Definition in_depth (k : Kademlia) (to a : OverlayAddress) : bool :=
  neighbourhoodDepth k <=? pot.pof a to.

(** Whether the closure of [forward] asks for the next peer after [v]. *)
Definition continues (w : World) (s : Pss) (msg : PssMsg)
    (digest : list byte) (to : OverlayAddress) (v : entry) : bool :=
  let a := entry_Address v in
  blocked w s digest v
  || negb (peerSend w a msg)
  || prefix_match msg a
  || in_depth (Overlay s) to a.

(** The send events of a run of the closure over the peers [l]. *)
Definition attempts (w : World) (s : Pss) (msg : PssMsg)
    (digest : list byte) (l : list entry) : list event :=
  (λ v, EvSend (entry_Address v) msg (peerSend w (entry_Address v) msg))
    <$> filter (λ v, blocked w s digest v = false) l.

(** The closure that [eachConn] runs for [forward] on the reference
    address [to]. *)
Definition closure (w : World) (s : Pss) (msg : PssMsg)
    (digest : list byte) (to : OverlayAddress)
    (v : entry) (st : result (Z * list event))
  : result (Z * list event) * bool :=
  if 256 <? pot.pof (entry_Address v) to then (st, true)
  else visit w s msg digest (conn v) (pot.pof (entry_Address v) to)
         (neighbourhoodDepth (Overlay s) <=? pot.pof (entry_Address v) to)
         st.

Definition stops (w : World) (s : Pss) (msg : PssMsg)
    (digest : list byte) (to : OverlayAddress) (v : entry) : bool :=
  negb (continues w s msg digest to v).

End notions.

(** ** Concrete tables and worlds, used to run the definitions *)

Module sample.
Import network pss.

(** The 32-byte address whose first byte is [b], followed by zeros. *)
Definition a32 (b : byte) : OverlayAddress := b :: replicate 31 x00.

Definition live (b : byte) : entry :=
  {| peer := PeerConn (a32 b) true; seenAt := 5; retries := 0 |}.

Definition known (b : byte) : entry :=
  {| peer := PeerAddr (a32 b); seenAt := 5; retries := 0 |}.

(** A table at base [00..] with three live peers, nearest first. *)
Definition table : Kademlia :=
  {| params := NewKadParams; base := a32 x00; addrs := [];
     conns := [live x01; live x02; live x80]; depth := 0 |}.

Definition topic : Topic := [x01; x02; x03; x04].

Definition hinted (a : OverlayAddress) : pssPeer :=
  {| lastSeen := 0; address := Some a; protected := false |}.

(** A node on [table] with one public key, "0x04", bound to [topic]
    with the routing hint [ff..]. *)
Definition node : Pss :=
  {| Overlay := table;
     fwdCache := ∅;
     cacheTTL := defaultDigestCacheTTL;
     msgTTL := defaultMsgTTL;
     paddingByteSize := defaultPaddingByteSize;
     pubKeyPool := {[ "0x04"%string := {[ topic := hinted (a32 xff) ]} ]};
     symKeyPool := ∅ |}.

(** A world, 1000 seconds into the Unix epoch, in which every
    collaborator succeeds, every peer accepts what it is sent and no
    message decrypts locally. The stored key of a message is 32 copies
    of its first payload byte. *)
Definition world : World :=
  {| now := time_Unix 1000;
     serialize := λ m, To m ++ Payload m;
     dpaStore := λ data, Some (replicate 32 (default x00 (last data)));
     peerSend := λ _ _, true;
     randRead := λ n, (replicate (Z.to_nat n) x2a, n, None);
     GetSymKey := λ _, None;
     FromHex := λ s, if bool_decide (s = "0x04"%string) then [x04] else [];
     ToECDSAPub := λ b, negb (bytes_Equal b []);
     NewSentMessage := λ _, true;
     Wrap := λ p, Some (mpPayload p);
     processed := λ _, false |}.

Definition with_now (w : World) (t : Time) : World :=
  {| now := t; serialize := serialize w; dpaStore := dpaStore w;
     peerSend := peerSend w; randRead := randRead w;
     GetSymKey := GetSymKey w; FromHex := FromHex w;
     ToECDSAPub := ToECDSAPub w; NewSentMessage := NewSentMessage w;
     Wrap := Wrap w; processed := processed w |}.

(** [world] with a chunk store that fails. *)
Definition world_store_down : World :=
  {| now := now world; serialize := serialize world;
     dpaStore := λ _, None;
     peerSend := peerSend world; randRead := randRead world;
     GetSymKey := GetSymKey world; FromHex := FromHex world;
     ToECDSAPub := ToECDSAPub world;
     NewSentMessage := NewSentMessage world;
     Wrap := Wrap world; processed := processed world |}.

(** [world] with an envelope encryption that fails. *)
Definition world_wrap_down : World :=
  {| now := now world; serialize := serialize world;
     dpaStore := dpaStore world;
     peerSend := peerSend world; randRead := randRead world;
     GetSymKey := GetSymKey world; FromHex := FromHex world;
     ToECDSAPub := ToECDSAPub world;
     NewSentMessage := NewSentMessage world;
     Wrap := λ _, None; processed := processed world |}.

(** [world] in which the peer [80..] refuses what it is sent. *)
Definition world_peer_down : World :=
  {| now := now world; serialize := serialize world;
     dpaStore := dpaStore world;
     peerSend := λ a _, negb (bytes_Equal a (a32 x80));
     randRead := randRead world;
     GetSymKey := GetSymKey world; FromHex := FromHex world;
     ToECDSAPub := ToECDSAPub world;
     NewSentMessage := NewSentMessage world;
     Wrap := Wrap world; processed := processed world |}.

(** A message for the full address [ff..], valid for 5 more seconds. *)
Definition message (payload : byte) : PssMsg :=
  {| To := a32 xff; Expire := 1005; Payload := [payload] |}.

End sample.

(** ** Package pot: iteration by bins *)

Module bins.
Section Bins.
Context {V : Type} (key : V → OverlayAddress).

(** The values at proximity order [po] from [base]. *)
Definition bin (base : OverlayAddress) (t : list V) (po : Z) : list V :=
  filter (λ v, pot.pof (key v) base = po) t.

(** The non-empty bins at proximity orders [from .. 256], lowest first. *)
Definition bins (base : OverlayAddress) (from : Z) (t : list V)
  : list (Z * list V) :=
  filter (λ b, b.2 ≠ [])
    ((λ po, (po, bin base t po)) <$> seqZ from (257 - from)).

(** Modelled from the spec: [t.EachBin(base, pof, from, f)] of the absent
    package [pot] calls [f(po, size, iterate)] on every non-empty bin of
    proximity order at least [from], lowest order first, until [f]
    returns [false]; [iterate] runs over the values of the bin, which
    the model hands over as a list. *)
Definition EachBin {S : Type} (t : list V) (base : OverlayAddress) (from : Z)
    (f : Z → Z → list V → S → S * bool) (s : S) : S :=
  (pot.each (λ b, f b.1 (Z.of_nat (length b.2)) b.2) (bins base from t) s).1.
End Bins.
End bins.

(** ** Package network: the rest of the Kademlia table *)

Module kademlia.
Import network.

(** [uint8(x)] *)
Definition uint8 (z : Z) : Z := z mod 256.

Definition set_conns (k : Kademlia) (t : list entry) : Kademlia :=
  {| params := params k; base := base k; addrs := addrs k;
     conns := t; depth := depth k |}.

Definition set_depth (k : Kademlia) (d : Z) : Kademlia :=
  {| params := params k; base := base k; addrs := addrs k;
     conns := conns k; depth := d |}.

(** [saturation(n)]: the closure state is [prev]. *)
Definition saturation (k : Kademlia) (n : Z) : Z :=
  let prev :=
    bins.EachBin entry_Address (addrs k) (base k) 0
      (λ po size _ prev,
         let prev := prev + 1 in (prev, (prev =? po) && (n <=? size)))
      (-1) in
  let depth := neighbourhoodDepth k in
  if depth <? prev then depth else prev.

(** [On(p)] for the connected peer [p] at the instant [now]; it returns
    the table, the depth and whether the depth changed. The first
    closure sets [ins] exactly when the peer is not found. The trace
    line built from [k.string()] only reads the table and is left out. *)
Definition On (k : Kademlia) (p : OverlayPeer) (now : Time)
  : Kademlia * Z * bool :=
  let e := newEntry p now in
  let '(c, found) :=
    pot.Swap entry_Address (conns k) (Address p)
      (λ v, match v with None => Some e | Some v => Some v end) in
  let ins := negb found in
  let k := set_conns k c in
  let k :=
    if ins
    then set_addrs k
           (pot.Swap entry_Address (addrs k) (Address p) (λ _, Some e)).1
    else k in
  let depth' := uint8 (saturation k (MinBinSize (params k))) in
  if bool_decide (depth' ≠ depth k)
  then (set_depth k depth', depth', true)
  else (k, depth k, false).

(** The table as [On] leaves it once the peer is entered, before the
    depth is looked at. *)
Definition entered (k : Kademlia) (p : OverlayPeer) (now : Time) : Kademlia :=
  let e := newEntry p now in
  let '(c, found) :=
    pot.Swap entry_Address (conns k) (Address p)
      (λ v, match v with None => Some e | Some v => Some v end) in
  let k := set_conns k c in
  if negb found
  then set_addrs k
         (pot.Swap entry_Address (addrs k) (Address p) (λ _, Some e)).1
  else k.

(** [p.Off()]: the record that persists of a connected peer; it keeps
    the address under which the peer is entered in the table. *)
Definition conn_Off (p : OverlayPeer) : OverlayPeer := PeerAddr (Address p).

(** [Off(p)]: the first closure panics on [nil], that is when the peer
    is not found among the known addresses, and sets [del] otherwise. *)
Definition Off (k : Kademlia) (p : OverlayPeer) (now : Time)
  : result Kademlia :=
  let '(t, found) :=
    pot.Swap entry_Address (addrs k) (Address p)
      (λ v, match v with
            | None => None
            | Some _ => Some (newEntry (conn_Off p) now)
            end) in
  if negb found then Panic
  else
    let k := set_addrs k t in
    Ok (set_conns k
          (pot.Swap entry_Address (conns k) (Address p) (λ _, None)).1).

(** [gotNearestNeighbours(peers)]: the closure state is the set [pm] of
    addresses, or a panic when [eachConn] hands it a [nil] connection
    that is within the depth. *)
Definition gotNearestNeighbours (k : Kademlia) (peers : list OverlayAddress)
  : result bool :=
  let pm :=
    eachConn k [] 255
      (λ p po nn (st : result (gset (list byte))),
         match st with
         | Panic => (Panic, false)
         | Ok pm =>
             if negb nn then (Ok pm, false)
             else match p with
                  | None => (Panic, false)
                  | Some (a, _) => (Ok ({[a]} ∪ pm), true)
                  end
         end)
      (Ok ∅) in
  match pm with
  | Panic => Panic
  | Ok pm => Ok (forallb (λ p, bool_decide (p ∈ pm)) peers)
  end.

(** The record held for an address in an index. *)
Definition record (t : list entry) (a : OverlayAddress) : option entry :=
  List.find (pot.has_key entry_Address a) t.

(** The invariant that [Register], [On] and [Off] keep: one record per
    address in each index, and every live peer is known. *)
Definition table_ok (k : Kademlia) : Prop :=
  NoDup (pot.keys entry_Address (addrs k)) ∧
  NoDup (pot.keys entry_Address (conns k)) ∧
  pot.keys entry_Address (conns k) ⊆ pot.keys entry_Address (addrs k).

End kademlia.

(** ** Package pss: recipients, outgoing messages *)

Module pssmore.
Import network pss.

(** [isSelfRecipient] *)
Definition isSelfRecipient (s : Pss) (msg : PssMsg) : bool :=
  bytes_Equal (To msg) (base (Overlay s)).

(** The message that [send] hands to [forward] for the envelope that
    whisper returned. *)
Definition outgoing (w : World) (s : Pss) (to : list byte)
    (envelope : Envelope) : PssMsg :=
  {| To := to;
     Expire := uint32 (Time_Unix (now w + msgTTL s));
     Payload := envelope |}.

(** A send event of the message [msg]. *)
Definition sends_msg (msg : PssMsg) (ev : event) : Prop :=
  ∃ a ok, ev = EvSend a msg ok.

End pssmore.

(** ** Package pss: keys and peers *)

Module psskeys.
Import network pss.

(** The collaborators of the key section that [World] does not hold:
    [crypto.FromECDSAPub] on an (opaque) public key, [common.ToHex],
    the topic of an envelope, [envelope.OpenSymmetric] ([None] for an
    error) and [Validate] on the received message. *)
Record Whisper := {
  FromECDSAPub : list byte → list byte;
  ToHex : list byte → string;
  envelope_Topic : Envelope → Topic;
  OpenSymmetric : Envelope → list byte → option (list byte);
  Validate : list byte → bool
}.

Inductive keyerror :=
| ErrInvalidPublicKey
    (* "invalid public key: %v" *)
| ErrCorrupt
    (* "symmetrically encrypted message has invalid signature or is corrupt" *)
| ErrCouldNotDecrypt.
    (* "could not decrypt message" *)

(** The node together with the fields of [Pss] that only the key
    section uses: the cache of symmetric key ids recently used for
    decryption and its cursor. A slot is a [*string], [None] for
    [nil]. *)
Record KeyStore := {
  node : Pss;
  symKeyDecryptCache : list (option string);
  symKeyDecryptCacheCursor : Z
}.

Definition set_pubKeyPool (s : Pss) (pool : gmap string (gmap Topic pssPeer))
  : Pss :=
  {| Overlay := Overlay s; fwdCache := fwdCache s; cacheTTL := cacheTTL s;
     msgTTL := msgTTL s; paddingByteSize := paddingByteSize s;
     pubKeyPool := pool; symKeyPool := symKeyPool s |}.

Definition set_symKeyPool (s : Pss) (pool : gmap string (gmap Topic pssPeer))
  : Pss :=
  {| Overlay := Overlay s; fwdCache := fwdCache s; cacheTTL := cacheTTL s;
     msgTTL := msgTTL s; paddingByteSize := paddingByteSize s;
     pubKeyPool := pubKeyPool s; symKeyPool := pool |}.

(** [&pssPeer{address: address}] *)
Definition newPeer (address : option (list byte)) : pssPeer :=
  {| lastSeen := 0; pss.address := address; protected := false |}.

(** [if _, ok := pool[id]; !ok { pool[id] = make(...) }; pool[id][topic] = psp] *)
Definition bind_key (pool : gmap string (gmap Topic pssPeer))
    (keyid : string) (topic : Topic) (psp : pssPeer)
  : gmap string (gmap Topic pssPeer) :=
  <[keyid := <[topic := psp]> (default ∅ (pool !! keyid))]> pool.

(** [SetPeerPublicKey]: the trace line dereferences [address]. *)
Definition SetPeerPublicKey (wh : Whisper) (pubkey : list byte)
    (topic : Topic) (address : option (list byte)) (s : Pss)
  : result (Pss * option keyerror) :=
  let pubkeybytes := FromECDSAPub wh pubkey in
  if bool_decide (length pubkeybytes = O)
  then Ok (s, Some ErrInvalidPublicKey)
  else
    let pubkeyid := ToHex wh pubkeybytes in
    let s := set_pubKeyPool s
               (bind_key (pubKeyPool s) pubkeyid topic (newPeer address)) in
    match address with
    | None => Panic
    | Some _ => Ok (s, None)
    end.

(** [cache[cursor % cap(cache)] = id]: the remainder panics on a
    capacity of 0, the store on an index out of range. *)
Definition store_slot (slots : list (option string)) (cursor : Z)
    (id : option string) : result (list (option string)) :=
  let cap := Z.of_nat (length slots) in
  if cap =? 0 then Panic
  else
    let idx := cursor `rem` cap in
    if (idx <? 0) || (cap <=? idx) then Panic
    else Ok (<[Z.to_nat idx := id]> slots).

(** [addSymmetricKeyToPool] *)
Definition addSymmetricKeyToPool (keyid : string) (topic : Topic)
    (address : option (list byte)) (addtocache : bool) (ks : KeyStore)
  : result KeyStore :=
  let s := set_symKeyPool (node ks)
             (bind_key (symKeyPool (node ks)) keyid topic (newPeer address)) in
  if addtocache then
    let cursor := wrap64 (symKeyDecryptCacheCursor ks + 1) in
    match store_slot (symKeyDecryptCache ks) cursor (Some keyid) with
    | Panic => Panic
    | Ok slots =>
        Ok {| node := s; symKeyDecryptCache := slots;
              symKeyDecryptCacheCursor := cursor |}
    end
  else
    Ok {| node := s; symKeyDecryptCache := symKeyDecryptCache ks;
          symKeyDecryptCacheCursor := symKeyDecryptCacheCursor ks |}.

(** [cache[i % cap(cache)]] read as a string: [Panic] for an index out
    of range and for a [nil] slot. *)
Definition read_slot (slots : list (option string)) (i : Z) : result string :=
  let cap := Z.of_nat (length slots) in
  if cap =? 0 then Panic
  else
    let idx := i `rem` cap in
    if idx <? 0 then Panic
    else match slots !! Z.to_nat idx with
         | Some (Some id) => Ok id
         | _ => Panic
         end.

(** The loop of [processSym] from the index [i]:
    [for i := cursor; i > cursor-cap && i > 0; i--]. [None] stands for
    a loop that has not ended within [fuel] rounds. *)
Fixpoint processSym_from (fuel : nat) (w : World) (wh : Whisper)
    (ks : KeyStore) (envelope : Envelope) (i : Z)
  : option (result (KeyStore *
                    (list byte * string * option (list byte) + keyerror))) :=
  let cursor := symKeyDecryptCacheCursor ks in
  let cap := Z.of_nat (length (symKeyDecryptCache ks)) in
  if (cursor - cap <? i) && (0 <? i) then
    match fuel with
    | O => None
    | S fuel' =>
        match read_slot (symKeyDecryptCache ks) i with
        | Panic => Some Panic
        | Ok symkeyid =>
            match GetSymKey w symkeyid with
            | None => processSym_from fuel' w wh ks envelope (i - 1)
            | Some symkey =>
                match OpenSymmetric wh envelope symkey with
                | None => processSym_from fuel' w wh ks envelope (i - 1)
                | Some recvmsg =>
                    if negb (Validate wh recvmsg)
                    then Some (Ok (ks, inr ErrCorrupt))
                    else
                      match pool_lookup (symKeyPool (node ks)) symkeyid
                              (envelope_Topic wh envelope) with
                      | None => Some Panic
                      | Some psp =>
                          let cursor' := wrap64 (cursor + 1) in
                          match store_slot (symKeyDecryptCache ks) cursor'
                                  (Some symkeyid) with
                          | Panic => Some Panic
                          | Ok slots =>
                              Some (Ok ({| node := node ks;
                                           symKeyDecryptCache := slots;
                                           symKeyDecryptCacheCursor := cursor' |},
                                        inl (recvmsg, symkeyid, address psp)))
                          end
                      end
                end
            end
        end
    end
  else Some (Ok (ks, inr ErrCouldNotDecrypt)).

(** [processSym]; the loop makes at most [cap] rounds. *)
Definition processSym (w : World) (wh : Whisper) (ks : KeyStore)
    (envelope : Envelope) :=
  processSym_from (length (symKeyDecryptCache ks)) w wh ks envelope
    (symKeyDecryptCacheCursor ks).

(** The inner loop of [cleanKeys] from the index [i]: it reads every
    slot of the window and tells whether one of them holds [keyid]. *)
Fixpoint cache_match (fuel : nat) (ks : KeyStore) (keyid : string)
    (i : Z) (found : bool) : option (result bool) :=
  let cursor := symKeyDecryptCacheCursor ks in
  let cap := Z.of_nat (length (symKeyDecryptCache ks)) in
  if (cursor - cap <? i) && (0 <? i) then
    match fuel with
    | O => None
    | S fuel' =>
        match read_slot (symKeyDecryptCache ks) i with
        | Panic => Some Panic
        | Ok cacheid =>
            cache_match fuel' ks keyid (i - 1)
              (if bool_decide (cacheid = keyid) then true else found)
        end
    end
  else Some (Ok found).

Definition in_cache (ks : KeyStore) (keyid : string) : option (result bool) :=
  cache_match (length (symKeyDecryptCache ks)) ks keyid
    (symKeyDecryptCacheCursor ks) false.

(** [match] after the inner loop of [cleanKeys] for the key id. *)
Definition is_cached (ks : KeyStore) (keyid : string) : bool :=
  match in_cache ks keyid with
  | Some (Ok b) => b
  | _ => false
  end.

(** The bindings of one key id that [cleanKeys] keeps: the protected
    ones, and all of them when the key id is in the cache. *)
Definition kept (cached : bool) (topics : gmap Topic pssPeer)
  : gmap Topic pssPeer :=
  filter (λ b, protected b.2 = true ∨ cached = true) topics.

(** [cleanKeys]: for every key id of [symKeyPool] the unprotected
    bindings are collected unless a slot of the cache window holds the
    key id, then deleted and counted. Go leaves the order of the map
    iterations open; the deletions of different key ids and topics do
    not interfere, and the window is read, with the same outcome, once
    for every unprotected binding. *)
Definition cleanKeys (ks : KeyStore) : option (result (KeyStore * Z)) :=
  let pool := symKeyPool (node ks) in
  let unprotected :=
    bool_decide
      (map_Exists (λ _ topics,
                     map_Exists (λ _ psp, protected psp = false) topics)
         pool) in
  if negb unprotected then Some (Ok (ks, 0))
  else
    match in_cache ks ""%string with
    | None => None
    | Some Panic => Some Panic
    | Some (Ok _) =>
        let pool' :=
          map_imap (λ keyid topics, Some (kept (is_cached ks keyid) topics))
            pool in
        let count :=
          map_fold (λ keyid topics n,
                      n + Z.of_nat (size topics)
                        - Z.of_nat (size (kept (is_cached ks keyid) topics)))
            0 pool in
        Some (Ok ({| node := set_symKeyPool (node ks) pool';
                     symKeyDecryptCache := symKeyDecryptCache ks;
                     symKeyDecryptCacheCursor := symKeyDecryptCacheCursor ks |},
                  count))
    end.

(** The cache as [NewPss] makes it: [capacity] empty slots, cursor 0. *)
Definition new_cache (s : Pss) (capacity : nat) : KeyStore :=
  {| node := s; symKeyDecryptCache := replicate capacity None;
     symKeyDecryptCacheCursor := 0 |}.

(** What the slot read at the index [i] holds. *)
Definition slot (ks : KeyStore) (i : Z) : option (option string) :=
  symKeyDecryptCache ks
    !! Z.to_nat (i `mod` Z.of_nat (length (symKeyDecryptCache ks))).

(** Every slot that the loops of [processSym] and [cleanKeys] read holds
    a key id. *)
Definition cache_ok (ks : KeyStore) : Prop :=
  let cursor := symKeyDecryptCacheCursor ks in
  let cap := Z.of_nat (length (symKeyDecryptCache ks)) in
  0 ≤ cursor < maxInt64 ∧
  ∀ i, cursor - cap < i ≤ cursor → 0 < i → ∃ id, slot ks i = Some (Some id).

(** The key id [id] is held by a slot that the loops read. *)
Definition in_window (ks : KeyStore) (id : string) : Prop :=
  let cursor := symKeyDecryptCacheCursor ks in
  let cap := Z.of_nat (length (symKeyDecryptCache ks)) in
  ∃ i, cursor - cap < i ≤ cursor ∧ 0 < i ∧ slot ks i = Some (Some id).

(** The number of bindings of a pool. *)
Definition bindings (pool : gmap string (gmap Topic pssPeer)) : Z :=
  map_fold (λ _ topics n, n + Z.of_nat (size topics)) 0 pool.

(** The message that the key [id] of the whisper backend opens the
    envelope to. *)
Definition opens (w : World) (wh : Whisper) (envelope : Envelope)
    (id : string) : option (list byte) :=
  GetSymKey w id ≫= OpenSymmetric wh envelope.

(** [i] is the first index, from the cursor down, whose key opens the
    envelope, and it opens it to [recvmsg]. *)
Definition first_opening (w : World) (wh : Whisper) (ks : KeyStore)
    (envelope : Envelope) (i : Z) (id : string) (recvmsg : list byte)
  : Prop :=
  let cursor := symKeyDecryptCacheCursor ks in
  let cap := Z.of_nat (length (symKeyDecryptCache ks)) in
  cursor - cap < i ≤ cursor ∧ 0 < i ∧
  slot ks i = Some (Some id) ∧
  opens w wh envelope id = Some recvmsg ∧
  ∀ j id', i < j ≤ cursor → slot ks j = Some (Some id') →
           opens w wh envelope id' = None.

(** The cache after [id] was put on top of it. *)
Definition promoted (ks : KeyStore) (id : string) : KeyStore :=
  let cursor := symKeyDecryptCacheCursor ks + 1 in
  let cap := Z.of_nat (length (symKeyDecryptCache ks)) in
  {| node := node ks;
     symKeyDecryptCache :=
       <[Z.to_nat (cursor `mod` cap) := Some id]> (symKeyDecryptCache ks);
     symKeyDecryptCacheCursor := cursor |}.

(** A store with a cache of two slots that holds the key "k1", bound to
    the sample topic, and a whisper backend that opens the envelopes
    starting with the byte 01 with the key 01.. to their rest. *)
Definition sample_store : KeyStore :=
  {| node := set_symKeyPool sample.node
               {[ "k1"%string := {[ sample.topic := sample.hinted (sample.a32 xff) ]} ]};
     symKeyDecryptCache := [None; Some "k1"%string];
     symKeyDecryptCacheCursor := 1 |}.

Definition sample_whisper : Whisper :=
  {| FromECDSAPub := λ k, k;
     ToHex := λ b, if bool_decide (b = [x04]) then "0x04"%string
                   else "0x"%string;
     envelope_Topic := λ _, sample.topic;
     OpenSymmetric := λ e k,
       match e, k with
       | b :: rest, b' :: _ => if bool_decide (b = b') then Some rest else None
       | _, _ => None
       end;
     Validate := λ m, negb (bytes_Equal m []) |}.

(** [sample.world] with the symmetric key "k1" in the whisper backend. *)
Definition sample_keyworld : World :=
  {| now := now sample.world; serialize := serialize sample.world;
     dpaStore := dpaStore sample.world;
     peerSend := peerSend sample.world; randRead := randRead sample.world;
     GetSymKey := λ id, if bool_decide (id = "k1"%string) then Some [x01]
                        else None;
     FromHex := FromHex sample.world;
     ToECDSAPub := ToECDSAPub sample.world;
     NewSentMessage := NewSentMessage sample.world;
     Wrap := Wrap sample.world; processed := processed sample.world |}.

End psskeys.

(** ** Package pss: handlers *)

Module psshandlers.
Section Handlers.
Context {Handler : Type}.

(** The field [handlers] of [Pss], with the handler variables that
    [Register] has allocated: a [*Handler] is an address of [heap]. *)
Record Registry := {
  handlers : gmap Topic (gmap positive bool);
  heap : gmap positive Handler
}.

(** [make(map[Topic]map[*Handler]bool)], nothing allocated yet. *)
Definition empty : Registry := {| handlers := ∅; heap := ∅ |}.

(** [Register]: [&handler] is the address of a variable of this very
    call. Returned are the registry and that address; the deregister
    function of the source is [deregister topic] at it. *)
Definition Register (topic : Topic) (handler : Handler) (r : Registry)
  : Registry * positive :=
  let h := fresh (dom (heap r)) in
  let hs :=
    match handlers r !! topic with
    | Some hs => hs
    | None => ∅
    end in
  ({| handlers := <[topic := <[h := true]> hs]> (handlers r);
      heap := <[h := handler]> (heap r) |}, h).

(** [deregister]: for a topic without handlers [len] of the nil map is
    0 and [delete] on it does nothing. *)
Definition deregister (topic : Topic) (h : positive) (r : Registry)
  : Registry :=
  match handlers r !! topic with
  | None => r
  | Some hs =>
      if bool_decide (size hs = 1%nat)
      then {| handlers := delete topic (handlers r); heap := heap r |}
      else {| handlers := <[topic := delete h hs]> (handlers r);
              heap := heap r |}
  end.

(** [getHandlers]: [None] for the nil map. *)
Definition getHandlers (topic : Topic) (r : Registry)
  : option (gmap positive bool) :=
  handlers r !! topic.

(** The handlers that [process] would call for a topic. *)
Definition registered (topic : Topic) (r : Registry) : gset positive :=
  match getHandlers topic r with
  | Some hs => dom hs
  | None => ∅
  end.

(** No topic is bound to an empty map, and every handler address has
    been allocated. *)
Definition registry_ok (r : Registry) : Prop :=
  ∀ topic hs, handlers r !! topic = Some hs →
              hs ≠ ∅ ∧ dom hs ⊆ dom (heap r).

End Handlers.
Arguments Registry : clear implicits.
End psshandlers.

(** ** Package main: the connection manager *)

Module connmanager.

(** A [discover.NodeID], and a [simulations.Node] as far as the
    manager looks at it. *)
Abbreviation NodeID := (list byte).

Record Node := { ID : NodeID }.

#[global] Instance Node_eq_dec : EqDecision Node.
Proof. solve_decision. Defined.

Record connManager := {
  clients : gmap string Node;
  assigned : gset NodeID
}.

Definition newConnManager : connManager := {| clients := ∅; assigned := ∅ |}.

Section Manager.
(** [net.SplitHostPort] on the remote address of a request, reduced to
    the host ([None] for an error), and [net.GetNodes()]. *)
Context (SplitHostPort : string → option string) (GetNodes : list Node).

(** The loop over the nodes: the first one whose id is not assigned. *)
Definition free (c : connManager) : option Node :=
  List.find (λ node, bool_decide (ID node ∉ assigned c)) GetNodes.

Definition assign (c : connManager) (clientIP : string) (node : Node)
  : connManager :=
  {| clients := <[clientIP := node]> (clients c);
     assigned := {[ID node]} ∪ assigned c |}.

(** [getNode], with the lookup of the client (lines 43-63). *)
Definition getNode (c : connManager) (RemoteAddr : string)
  : connManager * option Node :=
  match SplitHostPort RemoteAddr with
  | None => (c, None)
  | Some clientIP =>
      match clients c !! clientIP with
      | Some node => (c, Some node)
      | None =>
          match free c with
          | Some node => (assign c clientIP node, Some node)
          | None => (c, None)
          end
      end
  end.

(** [getNode] of the revision that serves the node list, where the
    lookup of the client is commented out (lines 138-158). *)
Definition getNode_list (c : connManager) (RemoteAddr : string)
  : connManager * option Node :=
  match SplitHostPort RemoteAddr with
  | None => (c, None)
  | Some clientIP =>
      match free c with
      | Some node => (assign c clientIP node, Some node)
      | None => (c, None)
      end
  end.

(** A run of requests, one after the other, with what each got. *)
Fixpoint serve (get : connManager → string → connManager * option Node)
    (c : connManager) (requests : list string)
  : connManager * list (option Node) :=
  match requests with
  | [] => (c, [])
  | r :: rest =>
      let '(c1, got) := get c r in
      let '(c2, gots) := serve get c1 rest in
      (c2, got :: gots)
  end.

(** Every client holds an assigned node, and no two clients hold nodes
    of the same id. *)
Definition manager_ok (c : connManager) : Prop :=
  (∀ ip node, clients c !! ip = Some node → ID node ∈ assigned c) ∧
  (∀ ip1 ip2 n1 n2, clients c !! ip1 = Some n1 → clients c !! ip2 = Some n2 →
                    ID n1 = ID n2 → ip1 = ip2).

End Manager.
End connmanager.
(** * Facts about the pot model *)

Section PotFacts.
Context {V : Type} (key : V → OverlayAddress).
Implicit Types (t l : list V) (base : OverlayAddress).

Lemma place_perm base v l : pot.place key base v l ≡ₚ v :: l.
Proof.
  induction l as [|x l IH]; simpl; [done|].
  destruct (_ <=? _); [done|].
  rewrite IH. apply Permutation_swap.
Qed.

Lemma neighbours_perm base t : pot.neighbours key base t ≡ₚ t.
Proof.
  induction t as [|v t IH]; simpl; [done|].
  fold (pot.neighbours key base t). by rewrite place_perm, IH.
Qed.

Lemma place_sorted base v l :
  pot.nearest_first key base l → pot.nearest_first key base (pot.place key base v l).
Proof.
  unfold pot.nearest_first.
  induction 1 as [|x l Hs IH Hx]; simpl.
  - repeat constructor.
  - destruct (Z.leb_spec (pot.pof (key x) base) (pot.pof (key v) base)) as [Hle|Hlt].
    + constructor; [by constructor|].
      constructor; [done|].
      eapply Forall_impl; [exact Hx|]. simpl. lia.
    + constructor; [done|].
      rewrite (place_perm base v l). constructor; [lia|done].
Qed.

Lemma neighbours_sorted base t :
  pot.nearest_first key base (pot.neighbours key base t).
Proof.
  induction t as [|v t IH]; simpl; [constructor|].
  by apply place_sorted.
Qed.

Lemma neighbours_length base t :
  length (pot.neighbours key base t) = length t.
Proof. by rewrite neighbours_perm. Qed.

(** The proximity orders met along any two nearest-first enumerations
    of the same values agree position by position. *)
Lemma nearest_first_pof_unique base l1 l2 :
  l1 ≡ₚ l2 →
  pot.nearest_first key base l1 → pot.nearest_first key base l2 →
  (λ v, pot.pof (key v) base) <$> l1 = (λ v, pot.pof (key v) base) <$> l2.
Proof.
  intros Hp H1 H2.
  assert (AntiSymm eq (flip Z.le)) by (intros x y ??; unfold flip in *; lia).
  apply (StronglySorted_unique (flip Z.le)).
  - eapply StronglySorted_fmap; [|exact H1]. by unfold flip.
  - eapply StronglySorted_fmap; [|exact H2]. by unfold flip.
  - by rewrite Hp.
Qed.
End PotFacts.

(** * The Kademlia table *)

Import network pss notions.

(** The counting closure of [neighbourhoodDepth] run over a list: it
    stops on the element that brings [size] up to [m]. *)
Lemma each_counts (m : Z) (po : entry → Z) (l : list entry) (size depth : Z) :
  0 ≤ size < m →
  m - size ≤ Z.of_nat (length l) →
  ∃ e, l !! Z.to_nat (m - size - 1) = Some e ∧
       (pot.each
          (λ v '(size, depth),
             let size := size + 1 in
             let depth := po v in ((size, depth), size <? m))
          l (size, depth)).1.2 = po e.
Proof.
  revert size depth. induction l as [|v l IH]; intros size depth Hs Hl.
  - simpl in Hl. lia.
  - simpl. destruct (Z.ltb_spec (size + 1) m) as [Hlt|Hge].
    + destruct (IH (size + 1) (po v)) as (e & He & Hd).
      * lia.
      * rewrite length_cons in Hl. lia.
      * exists e. split; [|exact Hd].
        replace (Z.to_nat (m - size - 1)) with (S (Z.to_nat (m - (size + 1) - 1))) by lia.
        exact He.
    + exists v. split; [|done].
      by replace (Z.to_nat (m - size - 1)) with O by lia.
Qed.

(** C1. [neighbourhoodDepth] is 0 when fewer than [MinProxBinSize] peers
    are live; otherwise it is the proximity order to the base address of
    the [MinProxBinSize]-th live peer of any nearest-first enumeration of
    the live connections. *)
Theorem neighbourhoodDepth_nth_nearest (k : Kademlia) (order : list entry) :
  order ≡ₚ conns k →
  pot.nearest_first entry_Address (base k) order →
  (pot.Size (conns k) < MinProxBinSize (params k) →
     neighbourhoodDepth k = 0) ∧
  (1 ≤ MinProxBinSize (params k) ≤ pot.Size (conns k) →
     ∃ e, order !! Z.to_nat (MinProxBinSize (params k) - 1) = Some e ∧
          neighbourhoodDepth k = pot.pof (entry_Address e) (base k)).
Proof.
  intros Hperm Hsorted. unfold neighbourhoodDepth. split.
  - intros Hlt. by rewrite (proj2 (Z.ltb_lt _ _) Hlt).
  - intros [Hone Hsize].
    rewrite (proj2 (Z.ltb_ge _ _) Hsize).
    unfold pot.EachNeighbour.
    set (near := pot.neighbours entry_Address (base k) (conns k)).
    destruct (each_counts (MinProxBinSize (params k))
                (λ v, pot.pof (entry_Address v) (base k)) near 0 0)
      as (e & He & Hd).
    + lia.
    + unfold near. rewrite neighbours_length. unfold pot.Size in Hsize. lia.
    + assert (Hpo : (λ v, pot.pof (entry_Address v) (base k)) <$> order
                  = (λ v, pot.pof (entry_Address v) (base k)) <$> near).
      { apply nearest_first_pof_unique; [|done|apply neighbours_sorted].
        unfold near. by rewrite neighbours_perm. }
      replace (MinProxBinSize (params k) - 0 - 1)
        with (MinProxBinSize (params k) - 1) in He by lia.
      assert (Hl : ((λ v, pot.pof (entry_Address v) (base k)) <$> near)
                     !! Z.to_nat (MinProxBinSize (params k) - 1)
                   = Some (pot.pof (entry_Address e) (base k))).
      { by rewrite list_lookup_fmap, He. }
      rewrite <- Hpo, list_lookup_fmap in Hl.
      destruct (order !! Z.to_nat (MinProxBinSize (params k) - 1)) as [e'|] eqn:He';
        [|done].
      exists e'. split; [done|].
      simpl in Hl. injection Hl as Hl. rewrite Hl. exact Hd.
Qed.

Lemma neighbourhoodDepth_nth_nearest_witness :
  ∃ e, conns sample.table !! 1%nat = Some e ∧
       neighbourhoodDepth sample.table
       = pot.pof (entry_Address e) (base sample.table).
Proof.
  assert (Hs : pot.nearest_first entry_Address (base sample.table)
                 (conns sample.table)).
  { unfold pot.nearest_first. repeat constructor; by vm_compute. }
  destruct (neighbourhoodDepth_nth_nearest sample.table (conns sample.table)
              (reflexivity _) Hs) as [_ H].
  apply H. by vm_compute.
Defined.

(** ** Register *)

Section SwapFacts.
Context {V : Type} (key : V → OverlayAddress).
Implicit Types (t : list V) (k : OverlayAddress).

Lemma find_has_key_None t k :
  List.find (pot.has_key key k) t = None ↔ k ∉ pot.keys key t.
Proof.
  unfold pot.keys, pot.has_key, bytes_Equal.
  induction t as [|x t IH]; simpl.
  - split; [intros _; apply not_elem_of_nil|done].
  - rewrite not_elem_of_cons. case_bool_decide as Hx; split.
    + done.
    + intros [Hne _]. by destruct Hne.
    + intros Hf. split; [congruence|by apply IH].
    + intros [_ Hni]. by apply IH.
Qed.

Lemma find_has_key_Some t k old :
  List.find (pot.has_key key k) t = Some old → key old = k ∧ old ∈ t.
Proof.
  unfold pot.has_key, bytes_Equal.
  induction t as [|x t IH]; simpl; [done|].
  case_bool_decide as Hx.
  - intros [= <-]. split; [done|apply list_elem_of_here].
  - intros Hf. destruct (IH Hf) as [? ?].
    split; [done|by apply list_elem_of_further].
Qed.

(** Storing back the value that was found changes nothing. *)
Lemma replace_found t k old :
  List.find (pot.has_key key k) t = Some old →
  pot.replace key k (Some old) t = t.
Proof.
  induction t as [|x t IH]; simpl; [done|].
  destruct (pot.has_key key k x).
  - by intros [= <-].
  - intros Hf. by rewrite IH.
Qed.
End SwapFacts.

Lemma Swap_learn now t p :
  (pot.Swap entry_Address t p
     (λ v, match v with
           | None => Some (newEntry (PeerAddr p) now)
           | Some v => Some v
           end)).1 = learn now t p.
Proof.
  unfold pot.Swap, learn.
  destruct (List.find _ t) as [old|] eqn:Hf; simpl.
  - rewrite (replace_found _ _ _ _ Hf).
    apply find_has_key_Some in Hf as [Hk Hin].
    rewrite bool_decide_eq_true_2; [done|].
    unfold pot.keys. rewrite <- Hk. by apply list_elem_of_fmap_2.
  - apply find_has_key_None in Hf. by rewrite bool_decide_eq_false_2.
Qed.

Lemma learn_keys now t p :
  p ∈ pot.keys entry_Address (learn now t p).
Proof.
  unfold learn. case_bool_decide as Hin; [done|].
  unfold pot.keys. rewrite fmap_app. apply elem_of_app. right.
  simpl. apply list_elem_of_here.
Qed.

Lemma learn_keeps now t p q :
  q ∈ pot.keys entry_Address t → q ∈ pot.keys entry_Address (learn now t p).
Proof.
  unfold learn. case_bool_decide; [done|].
  unfold pot.keys. rewrite fmap_app. intros ?. apply elem_of_app. by left.
Qed.

Lemma learn_known now t p :
  p ∈ pot.keys entry_Address t → learn now t p = t.
Proof. intros Hin. unfold learn. by rewrite bool_decide_eq_true_2. Qed.

Lemma learn_NoDup now t p :
  NoDup (pot.keys entry_Address t) →
  NoDup (pot.keys entry_Address (learn now t p)).
Proof.
  unfold learn. case_bool_decide as Hin; [done|].
  intros Hnd. unfold pot.keys in *. rewrite fmap_app. simpl.
  apply NoDup_app. split; [done|]. split.
  - intros x Hx Hx'. apply list_elem_of_singleton in Hx'. by subst.
  - apply NoDup_singleton.
Qed.

(** The loop of [Register], one round unfolded; the counters do not
    reach the result. *)
Lemma Register_from_cons now p rest k known size :
  Register_from now (p :: rest) k known size =
  if bytes_Equal p (base k) then (k, Some (ErrIsSelf (base k)))
  else Register_from now rest (set_addrs k (learn now (addrs k) p))
         (if bool_decide (p ∈ pot.keys entry_Address (addrs k))
          then known + 1 else known) (size + 1).
Proof.
  simpl. destruct (bytes_Equal p (base k)); [done|].
  rewrite <- (Swap_learn now (addrs k) p).
  unfold pot.Swap.
  destruct (List.find _ (addrs k)) as [old|] eqn:Hf; simpl.
  - apply find_has_key_Some in Hf as [Hk Hin].
    rewrite bool_decide_eq_true_2; [done|].
    unfold pot.keys. rewrite <- Hk. by apply list_elem_of_fmap_2.
  - apply find_has_key_None in Hf. by rewrite bool_decide_eq_false_2.
Qed.

Lemma Register_from_keeps now peers k known size q :
  q ∈ pot.keys entry_Address (addrs k) →
  q ∈ pot.keys entry_Address (addrs (Register_from now peers k known size).1).
Proof.
  revert k known size. induction peers as [|p rest IH]; intros k known size Hq;
    [done|].
  rewrite Register_from_cons. destruct (bytes_Equal p (base k)); [done|].
  apply IH. simpl. by apply learn_keeps.
Qed.

(** A list that mentions the base address is refused. *)
Lemma Register_from_self now peers k known size :
  base k ∈ peers →
  (Register_from now peers k known size).2 = Some (ErrIsSelf (base k)).
Proof.
  revert k known size. induction peers as [|p rest IH]; intros k known size Hin.
  - by apply elem_of_nil in Hin.
  - rewrite Register_from_cons. unfold bytes_Equal.
    case_bool_decide as Hp; [done|].
    apply elem_of_cons in Hin as [Heq|Hin]; [congruence|].
    by rewrite (IH (set_addrs k _)).
Qed.

Lemma Register_from_counters now peers k known size known' size' :
  Register_from now peers k known size =
  Register_from now peers k known' size'.
Proof.
  revert k known size known' size'.
  induction peers as [|p rest IH]; intros; [done|].
  rewrite !Register_from_cons. destruct (bytes_Equal p (base k)); [done|].
  apply IH.
Qed.

Lemma Register_cons k p rest now :
  Register k (p :: rest) now =
  if bytes_Equal p (base k) then (k, Some (ErrIsSelf (base k)))
  else Register (set_addrs k (learn now (addrs k) p)) rest now.
Proof.
  unfold Register. rewrite Register_from_cons.
  destruct (bytes_Equal p (base k)); [done|]. apply Register_from_counters.
Qed.

(** Up to the first occurrence of the base address the addresses are
    registered, and they stay registered when the error is returned. *)
Lemma Register_prefix k pre post now :
  base k ∉ pre →
  Register k (pre ++ base k :: post) now =
    ((Register k pre now).1, Some (ErrIsSelf (base k))) ∧
  (Register k pre now).2 = None ∧
  ∀ p, p ∈ pre → p ∈ pot.keys entry_Address (addrs (Register k pre now).1).
Proof.
  revert k. induction pre as [|q pre IH]; intros k Hni.
  - simpl. rewrite Register_cons. unfold bytes_Equal.
    rewrite bool_decide_eq_true_2 by done.
    split; [done|]. split; [done|]. intros p Hp. by apply elem_of_nil in Hp.
  - apply not_elem_of_cons in Hni as [Hq Hni].
    rewrite <- app_comm_cons, !Register_cons. unfold bytes_Equal.
    rewrite bool_decide_eq_false_2 by congruence.
    destruct (IH (set_addrs k (learn now (addrs k) q)) Hni)
      as (Heq & Hnone & Hin).
    split; [exact Heq|]. split; [exact Hnone|].
    intros p Hp. apply elem_of_cons in Hp as [->|Hp]; [|by apply Hin].
    apply Register_from_keeps. simpl. apply learn_keys.
Qed.

Lemma filter_key_absent (t : list entry) (p : OverlayAddress) :
  p ∉ pot.keys entry_Address t →
  filter (λ e, entry_Address e = p) t = [].
Proof.
  unfold pot.keys. induction t as [|e t IH]; [done|].
  simpl. intros Hni. apply not_elem_of_cons in Hni as [Hne Hni].
  rewrite filter_cons. case_decide; [congruence|]. by apply IH.
Qed.

(** C4. [Register] returns the is-self error whenever the base address is
    among the supplied addresses; and registering an address other than
    the base twice leaves one record for it, the second registration
    changing nothing in the index of known addresses. *)
Theorem Register_self_fails_known_once (k : Kademlia) (now now' : Time) :
  (∀ peers, base k ∈ peers →
     (Register k peers now).2 = Some (ErrIsSelf (base k))) ∧
  (∀ p, p ≠ base k →
     NoDup (pot.keys entry_Address (addrs k)) →
     let k1 := (Register k [p] now).1 in
     let k2 := (Register k1 [p] now').1 in
     (Register k [p] now).2 = None ∧
     (Register k1 [p] now').2 = None ∧
     addrs k2 = addrs k1 ∧
     length (filter (λ e, entry_Address e = p) (addrs k2)) = 1%nat).
Proof.
  split.
  - intros peers Hin. by apply Register_from_self.
  - intros p Hp Hnd. simpl.
    assert (Hr1 : Register k [p] now
                  = (set_addrs k (learn now (addrs k) p), None)).
    { rewrite Register_cons. unfold bytes_Equal.
      by rewrite bool_decide_eq_false_2. }
    rewrite Hr1. simpl.
    assert (Hr2 : Register (set_addrs k (learn now (addrs k) p)) [p] now'
                  = (set_addrs k (learn now (addrs k) p), None)).
    { rewrite Register_cons. unfold bytes_Equal. simpl.
      rewrite bool_decide_eq_false_2 by done.
      rewrite (learn_known now' (learn now (addrs k) p) p) by apply learn_keys.
      by destruct k. }
    rewrite Hr2. simpl. repeat split.
    pose proof (learn_NoDup now (addrs k) p Hnd) as Hnd'.
    pose proof (learn_keys now (addrs k) p) as Hin.
    revert Hnd' Hin. generalize (learn now (addrs k) p). clear.
    unfold pot.keys. intros t. induction t as [|e t IH]; simpl.
    + intros _ Hin. by apply elem_of_nil in Hin.
    + intros Hnd Hin. apply NoDup_cons in Hnd as [Hni Hnd].
      rewrite filter_cons. case_decide as He.
      * simpl. f_equal. rewrite filter_key_absent; [done|].
        unfold pot.keys. by rewrite <- He.
      * apply IH; [done|]. apply elem_of_cons in Hin as [Heq|Hin]; [|done].
        by destruct He.
Qed.

Lemma Register_self_fails_known_once_witness :
  (Register sample.table [sample.a32 x07; sample.a32 x00] 9).2
    = Some (ErrIsSelf (sample.a32 x00)) ∧
  length (filter (λ e, entry_Address e = sample.a32 x07)
            (addrs (Register (Register sample.table [sample.a32 x07] 9).1
                      [sample.a32 x07] 11).1)) = 1%nat.
Proof.
  destruct (Register_self_fails_known_once sample.table 9 11) as [Hself Htwice].
  split.
  - apply (Hself [sample.a32 x07; sample.a32 x00]).
    apply list_elem_of_further, list_elem_of_here.
  - apply (Htwice (sample.a32 x07)).
    + by vm_compute.
    + apply NoDup_nil_2.
Defined.

(** C10 as stated fails when the base address occurs more than once:
    [Register] returns at the first occurrence, and the address between
    the two occurrences is never entered. *)
Lemma Register_later_self_not_inserted :
  let k := NewKademlia (sample.a32 x00) None in
  let peers := [sample.a32 x00; sample.a32 x01; sample.a32 x00] in
  peers !! 2%nat = Some (base k) ∧
  sample.a32 x01 ∈ take 2 peers ∧
  (Register k peers 9).2 = Some (ErrIsSelf (base k)) ∧
  sample.a32 x01 ∉ pot.keys entry_Address (addrs (Register k peers 9).1).
Proof.
  simpl. split; [done|]. split.
  - apply list_elem_of_further, list_elem_of_here.
  - split; [done|]. vm_compute. apply not_elem_of_nil.
Qed.

(** C10 (amended). When the base address first occurs after the
    addresses [pre], [Register] returns the is-self error in the state
    reached by registering [pre]: every address of [pre] is among the
    known addresses of that state, and the index is not restored to what
    it was before the call. *)
Theorem Register_keeps_prefix_on_self
    (k : Kademlia) (pre post : list OverlayAddress) (now : Time) :
  base k ∉ pre →
  let k' := (Register k pre now).1 in
  Register k (pre ++ base k :: post) now = (k', Some (ErrIsSelf (base k))) ∧
  (∀ p, p ∈ pre → p ∈ pot.keys entry_Address (addrs k')) ∧
  (∀ p, p ∈ pre → p ∉ pot.keys entry_Address (addrs k) →
        addrs k' ≠ addrs k).
Proof.
  intros Hni. simpl.
  destruct (Register_prefix k pre post now Hni) as (Heq & _ & Hin).
  split; [exact Heq|]. split; [exact Hin|].
  intros p Hp Hnew Hsame. apply Hnew. rewrite <- Hsame. by apply Hin.
Qed.

Lemma Register_keeps_prefix_on_self_witness :
  Register sample.table [sample.a32 x07; sample.a32 x00; sample.a32 x09] 9
  = ((Register sample.table [sample.a32 x07] 9).1,
     Some (ErrIsSelf (sample.a32 x00))) ∧
  addrs (Register sample.table [sample.a32 x07] 9).1 ≠ addrs sample.table.
Proof.
  assert (Hni : base sample.table ∉ [sample.a32 x07]).
  { apply not_elem_of_cons. split; [by vm_compute|apply not_elem_of_nil]. }
  destruct (Register_keeps_prefix_on_self sample.table [sample.a32 x07]
              [sample.a32 x09] 9 Hni) as (Heq & _ & Hne).
  split; [exact Heq|].
  apply (Hne (sample.a32 x07)); [apply list_elem_of_here|apply not_elem_of_nil].
Defined.

(** ** callable *)

Lemma wrap64_small z : - 2 ^ 63 ≤ z < 2 ^ 63 → wrap64 z = z.
Proof. intros Hz. unfold wrap64. rewrite Z.mod_small; lia. Qed.






(** A record that has been tried once is held back until the retry
    interval has passed, and is returned after it. *)
Example callable_waits_for_interval :
  let e := set_retries (sample.known x07) 1 in
  callable 64 sample.table 10 100 e = Done (None, e) ∧
  callable 64 sample.table 10000000000 100 e
    = Done (Some (sample.a32 x07), set_retries e 2).
Proof. by vm_compute. Qed.

(** * The messaging engine *)


(** ** handlePssMsg *)

(** C9. For a node whose base address has the full address length,
    [isSelfPossibleRecipient] panics on every message whose [To] is
    longer than that, and so does [handlePssMsg]; on every message whose
    [To] is at most that long the check returns whether [To] is a prefix
    of the base address. *)
Theorem isSelfPossibleRecipient_total_iff (s : Pss) (msg : PssMsg) :
  length (base (Overlay s)) = addressLength →
  ((addressLength < length (To msg))%nat →
     isSelfPossibleRecipient s msg = Panic ∧
     ∀ w, handlePssMsg w (IsPssMsg msg) s = Panic) ∧
  ((length (To msg) ≤ addressLength)%nat →
     isSelfPossibleRecipient s msg
     = Ok (bool_decide
             (To msg = take (length (To msg)) (base (Overlay s))))).
Proof.
  intros Hlen. unfold isSelfPossibleRecipient, slice_to. split.
  - intros Hlong.
    assert (Hp : (if decide (length (To msg) ≤ length (base (Overlay s)))%nat
                  then Ok (take (length (To msg)) (base (Overlay s)))
                  else Panic) = Panic).
    { case_decide; [lia|done]. }
    split.
    + by rewrite Hp.
    + intros w. unfold handlePssMsg, isSelfPossibleRecipient, slice_to.
      unfold mbind, M_bind, get. by rewrite Hp.
  - intros Hshort. case_decide; [done|lia].
Qed.

Lemma isSelfPossibleRecipient_total_iff_witness :
  isSelfPossibleRecipient sample.node
    {| To := sample.a32 x00 ++ [x00]; Expire := 0; Payload := [] |} = Panic ∧
  isSelfPossibleRecipient sample.node
    {| To := [x00; x00]; Expire := 0; Payload := [] |} = Ok true.
Proof.
  split.
  - apply (isSelfPossibleRecipient_total_iff sample.node
             {| To := sample.a32 x00 ++ [x00]; Expire := 0; Payload := [] |});
      [reflexivity|]; vm_compute; lia.
  - apply (isSelfPossibleRecipient_total_iff sample.node
             {| To := [x00; x00]; Expire := 0; Payload := [] |});
      [reflexivity|]; vm_compute; lia.
Defined.

(** C6 as stated fails for a message whose [To] is a prefix of the base
    address: no expiry is looked at, the message is processed and, when
    it does not decrypt, forwarded. Here [To] is the first byte of the
    base address and the expiry is an hour ahead of a clock at 1000
    seconds, respectively 100 seconds behind it. *)
Lemma handlePssMsg_possible_recipient_skips_expiry :
  let far := {| To := [x00]; Expire := 4600; Payload := [x07] |} in
  let old := {| To := [x00]; Expire := 900; Payload := [x07] |} in
  now sample.world + msgTTL sample.node < time_Unix (Expire far) ∧
  time_Unix (Expire old) < now sample.world ∧
  isSelfPossibleRecipient sample.node far = Ok true ∧
  isSelfPossibleRecipient sample.node old = Ok true ∧
  (∃ s' tr, handlePssMsg sample.world (IsPssMsg far) sample.node
            = Ok (None, s', tr) ∧ sends tr ≠ []) ∧
  (∃ s' tr, handlePssMsg sample.world (IsPssMsg old) sample.node
            = Ok (None, s', tr) ∧ sends tr ≠ []).
Proof.
  simpl. split; [by vm_compute|]. split; [by vm_compute|].
  split; [reflexivity|]. split; [reflexivity|].
  split; eexists _, _; (split; [vm_compute; reflexivity|by vm_compute]).
Qed.

(** C6 (amended). For an inbound message of which the node is not a
    possible recipient, [handlePssMsg] returns the "Invalid TTL" error
    when the expiry lies more than [msgTTL] ahead of the clock, and
    returns [nil] when the expiry has passed; in both cases nothing is
    forwarded and the state is left as it was. *)
Theorem handlePssMsg_expiry_checks (w : World) (s : Pss) (msg : PssMsg) :
  isSelfPossibleRecipient s msg = Ok false →
  (0 ≤ msgTTL s →
   now w + msgTTL s < time_Unix (Expire msg) →
   handlePssMsg w (IsPssMsg msg) s = Ok (Some ErrInvalidTTL, s, [])) ∧
  (time_Unix (Expire msg) < now w →
   handlePssMsg w (IsPssMsg msg) s = Ok (None, s, [])).
Proof.
  intros Hnot. unfold handlePssMsg, mbind, M_bind, get. rewrite Hnot. split.
  - intros Httl Hfar.
    destruct (Z.ltb_spec (time_Unix (Expire msg)) (now w)); [lia|].
    destruct (Z.ltb_spec (now w + msgTTL s) (time_Unix (Expire msg))); [|lia].
    done.
  - intros Hold.
    destruct (Z.ltb_spec (time_Unix (Expire msg)) (now w)); [|lia].
    done.
Qed.

Lemma handlePssMsg_expiry_checks_witness :
  handlePssMsg sample.world
    (IsPssMsg {| To := [xff]; Expire := 4600; Payload := [] |}) sample.node
  = Ok (Some ErrInvalidTTL, sample.node, []) ∧
  handlePssMsg sample.world
    (IsPssMsg {| To := [xff]; Expire := 900; Payload := [] |}) sample.node
  = Ok (None, sample.node, []).
Proof.
  split.
  - apply (handlePssMsg_expiry_checks sample.world sample.node
             {| To := [xff]; Expire := 4600; Payload := [] |});
      by vm_compute.
  - apply (handlePssMsg_expiry_checks sample.world sample.node
             {| To := [xff]; Expire := 900; Payload := [] |});
      by vm_compute.
Defined.

(** ** SendSym, SendAsym and send *)

Lemma M_bind_ret {A} (m : M A) (s : Pss) : (m ≫= mret) s = m s.
Proof.
  unfold mbind, M_bind, mret, M_ret.
  destruct (m s) as [[[a s'] tr]|]; [|done]. by rewrite app_nil_r.
Qed.

(** [send] refuses an empty key before it touches any collaborator. *)
Lemma send_zero_length_key w s to topic msg asymmetric :
  send w to topic msg asymmetric [] s = Ok (Some ErrZeroLengthKey, s, []).
Proof. done. Qed.

(** An unknown key id, an unbound topic and a binding without a routing
    hint are reported by [SendSym] and [SendAsym] without any send. *)
Lemma SendSym_errors w s symkeyid topic msg :
  (GetSymKey w symkeyid = None →
   SendSym w symkeyid topic msg s
   = Ok (Some (ErrMissingSymKey symkeyid), s, [])) ∧
  (is_Some (GetSymKey w symkeyid) →
   pool_lookup (symKeyPool s) symkeyid topic = None →
   SendSym w symkeyid topic msg s
   = Ok (Some (ErrInvalidTopic topic symkeyid), s, [])) ∧
  (∀ psp, is_Some (GetSymKey w symkeyid) →
   pool_lookup (symKeyPool s) symkeyid topic = Some psp →
   address psp = None →
   SendSym w symkeyid topic msg s
   = Ok (Some (ErrNoAddressHint topic symkeyid), s, [])).
Proof.
  unfold SendSym. repeat split.
  - by intros ->.
  - intros [key ->] Hpool. unfold mbind, M_bind, get. by rewrite Hpool.
  - intros psp [key ->] Hpool Hhint. unfold mbind, M_bind, get.
    by rewrite Hpool, Hhint.
Qed.

Lemma SendAsym_errors w s pubkeyid topic msg :
  (ToECDSAPub w (FromHex w pubkeyid) = false →
   SendAsym w pubkeyid topic msg s = Ok (Some ErrInvalidPublicKeyId, s, [])) ∧
  (ToECDSAPub w (FromHex w pubkeyid) = true →
   pool_lookup (pubKeyPool s) pubkeyid topic = None →
   SendAsym w pubkeyid topic msg s
   = Ok (Some (ErrInvalidTopic topic pubkeyid), s, [])) ∧
  (∀ psp, ToECDSAPub w (FromHex w pubkeyid) = true →
   pool_lookup (pubKeyPool s) pubkeyid topic = Some psp →
   address psp = None →
   SendAsym w pubkeyid topic msg s
   = Ok (Some (ErrNoAddressHint topic pubkeyid), s, [])).
Proof.
  unfold SendAsym. repeat split.
  - by intros ->.
  - intros -> Hpool. simpl. unfold mbind, M_bind, get. by rewrite Hpool.
  - intros psp -> Hpool Hhint. simpl. unfold mbind, M_bind, get.
    by rewrite Hpool, Hhint.
Qed.

(** [SendSym] hands the result of [send] to its caller. *)
Lemma SendSym_returns_send w s symkeyid topic msg symkey psp a :
  GetSymKey w symkeyid = Some symkey →
  pool_lookup (symKeyPool s) symkeyid topic = Some psp →
  address psp = Some a →
  SendSym w symkeyid topic msg s = send w a topic msg false symkey s.
Proof.
  intros Hkey Hpool Hhint. unfold SendSym. rewrite Hkey.
  unfold mbind at 1, M_bind at 1, get. rewrite Hpool, Hhint.
  change (λ err : option error, ret err) with (@mret M _ (option error)).
  rewrite M_bind_ret.
  by destruct (send w a topic msg false symkey s) as [[[b s2] tr2]|].
Qed.

(** [SendAsym] answers [nil] whatever [send] returned. *)
Lemma SendAsym_ignores_send w s pubkeyid topic msg psp a :
  ToECDSAPub w (FromHex w pubkeyid) = true →
  pool_lookup (pubKeyPool s) pubkeyid topic = Some psp →
  address psp = Some a →
  SendAsym w pubkeyid topic msg s =
  match send w a topic msg true (FromHex w pubkeyid) s with
  | Ok (_, s', tr) => Ok (None, s', tr)
  | Panic => Panic
  end.
Proof.
  intros Hpub Hpool Hhint. unfold SendAsym. rewrite Hpub. simpl.
  unfold mbind at 1, M_bind at 1, get. rewrite Hpool, Hhint.
  unfold mbind, M_bind.
  destruct (send w a topic msg true (FromHex w pubkeyid) s)
    as [[[b s2] tr2]|]; [|done].
  simpl. by rewrite app_nil_r.
Qed.

(** C7. With the public key "0x04" bound to a topic and a routing hint,
    and an envelope encryption that fails, [send] returns the encryption
    error while [SendAsym], which called it, returns [nil]: the error of
    the send path is dropped by the call that requested the send. *)
Theorem SendAsym_drops_encryption_error :
  send sample.world_wrap_down (sample.a32 xff) sample.topic [x07] true [x04]
    sample.node
  = Ok (Some ErrWhisperEncryption, sample.node,
        [EvRandRead 16; EvNewSentMessage; EvWrap]) ∧
  SendAsym sample.world_wrap_down "0x04" sample.topic [x07] sample.node
  = Ok (None, sample.node, [EvRandRead 16; EvNewSentMessage; EvWrap]).
Proof. split; vm_compute; reflexivity. Qed.

(** ** forward *)

Lemma pof_le_256 a b : pot.pof a b ≤ 256.
Proof. unfold pot.pof. lia. Qed.

Lemma padded_length msgTo to :
  padded msgTo = Ok to → length to = addressLength.
Proof.
  unfold padded. case_decide as Hlen; [|done]. intros [= <-].
  rewrite length_app, length_replicate. lia.
Qed.


Lemma attempts_cons w s msg digest v l :
  attempts w s msg digest (v :: l) =
  (if blocked w s digest v then []
   else [EvSend (entry_Address v) msg (peerSend w (entry_Address v) msg)])
  ++ attempts w s msg digest l.
Proof.
  unfold attempts. rewrite filter_cons.
  destruct (blocked w s digest v); case_decide; done.
Qed.

Lemma accepted_app tr1 tr2 : accepted (tr1 ++ tr2) = accepted tr1 ++ accepted tr2.
Proof. apply omap_app. Qed.

Section Visit.
Context (w : World) (s : Pss) (msg : PssMsg) (digest : list byte)
        (to : OverlayAddress).

Local Abbreviation closure := (closure w s msg digest to).
Local Abbreviation stops := (stops w s msg digest to).

(** One step of the closure on a connected sender peer with a
    full-length address. *)
Lemma closure_step v a sent tr :
  peer v = PeerConn a true → length a = addressLength →
  closure v (Ok (sent, tr)) =
  (Ok (sent + Z.of_nat (length (accepted (attempts w s msg digest [v]))),
       tr ++ attempts w s msg digest [v]),
   continues w s msg digest to v).
Proof.
  intros Hpeer Hlen. unfold closure.
  destruct (Z.ltb_spec 256 (pot.pof (entry_Address v) to)) as [Hgt|_].
  { pose proof (pof_le_256 (entry_Address v) to). lia. }
  rewrite attempts_cons, app_nil_r.
  unfold visit, conn, continues, in_depth, blocked, entry_Address.
  rewrite Hpeer. simpl.
  destruct (checkFwdCache w s a digest); simpl.
  { by rewrite Z.add_0_r, app_nil_r. }
  destruct (peerSend w a msg); simpl.
  2: { by rewrite Z.add_0_r. }
  unfold prefix_match, slice_to.
  case_bool_decide as Hshort; simpl.
  - case_decide; [|lia].
    destruct (bytes_Equal (To msg) (take (length (To msg)) a)); simpl; [done|].
    by destruct (_ <=? _).
  - by destruct (_ <=? _).
Qed.

(** The closure run over a list of such peers: it attempts the peers
    up to the first one at which it stops, skipping those that the
    per-peer cache check blocks, and counts the accepted sends. *)
Lemma each_closure l sent tr :
  Forall (λ e, ∃ a, peer e = PeerConn a true ∧ length a = addressLength) l →
  pot.each closure l (Ok (sent, tr)) =
  (Ok (sent + Z.of_nat
                (length (accepted (attempts w s msg digest (upto stops l)))),
       tr ++ attempts w s msg digest (upto stops l)),
   forallb (continues w s msg digest to) l).
Proof.
  intros Hl. revert sent tr.
  induction Hl as [|v l (a & Hpeer & Hlen) Hl IH]; intros sent tr; simpl.
  - by rewrite Z.add_0_r, app_nil_r.
  - rewrite (closure_step v a sent tr Hpeer Hlen).
    destruct (continues w s msg digest to v) eqn:Hc.
    + assert (Hs : stops v = false) by (unfold notions.stops; by rewrite Hc).
      rewrite Hs, IH.
      rewrite (attempts_cons w s msg digest v (upto stops l)).
      rewrite (attempts_cons w s msg digest v []), app_nil_r.
      rewrite accepted_app, length_app, <- app_assoc.
      f_equal. f_equal. f_equal. lia.
    + assert (Hs : stops v = true) by (unfold notions.stops; by rewrite Hc).
      by rewrite Hs.
Qed.
End Visit.

Lemma eachConn_closure {S : Type} (k : Kademlia) (to : OverlayAddress) o
    (f : option (OverlayAddress * bool) → Z → bool → S → S * bool) (st : S) :
  length to ≠ O →
  eachConn k to o f st =
  (pot.each
     (λ v st, if o <? pot.pof (entry_Address v) to then (st, true)
              else f (conn v) (pot.pof (entry_Address v) to)
                     (neighbourhoodDepth k <=? pot.pof (entry_Address v) to) st)
     (pot.neighbours entry_Address to (conns k)) st).1.
Proof.
  intros Hlen. unfold eachConn, pot.EachNeighbour.
  by rewrite bool_decide_eq_false_2.
Qed.

(** What [forward] does on a table of connected sender peers: blocked by
    the flood guard it only computes the digest; otherwise it attempts
    the peers nearest the padded destination up to the first at which
    the closure stops, and records the digest if a send was accepted. *)
Lemma forward_run w s msg to digest :
  live_table (Overlay s) →
  padded (To msg) = Ok to →
  forward_digest w msg = Ok digest →
  forward w msg s =
  if checkFwdCache w s [] digest
  then Ok (None, s, [EvStore (serialize w msg)])
  else
    let evs :=
      attempts w s msg digest
        (upto (stops w s msg digest to)
           (pot.neighbours entry_Address to (conns (Overlay s)))) in
    if bool_decide (accepted evs = [])
    then Ok (None, s, EvStore (serialize w msg) :: evs)
    else Ok (None,
             set_fwdCache s (<[digest := cached w s digest]> (fwdCache s)),
             EvStore (serialize w msg) :: evs).
Proof.
  intros [_ Hlive] Hpad Hdig. unfold forward. rewrite Hpad.
  assert (Hstore : ∃ err, storeMsg w msg s
                   = Ok ((digest, err), s, [EvStore (serialize w msg)])).
  { unfold storeMsg, forward_digest in *. unfold mbind, M_bind, emit.
    destruct (dpaStore w (serialize w msg)) as [key|].
    - rewrite Hdig. by eexists.
    - injection Hdig as <-. by eexists. }
  destruct Hstore as [err Hstore].
  unfold mbind at 1, M_bind at 1. rewrite Hstore.
  unfold mbind at 1, M_bind at 1, get.
  destruct (checkFwdCache w s [] digest); [done|].
  rewrite eachConn_closure
    by (rewrite (padded_length _ _ Hpad); discriminate).
  fold (closure w s msg digest to).
  rewrite each_closure
    by (by rewrite (neighbours_perm entry_Address to (conns (Overlay s)))).
  simpl.
  set (evs := attempts w s msg digest _).
  unfold mbind, M_bind, emit, ret, mret, M_ret, addFwdCache, get, put.
  destruct (accepted evs) as [|a accs] eqn:Hacc; simpl.
  - by rewrite app_nil_r.
  - rewrite app_nil_r. unfold cached.
    by destruct (fwdCache s !! digest).
Qed.

(** When the chunk store fails, [forward] does all of the above with the
    zero digest as its cache key. *)
Lemma forward_store_failure w s msg to :
  live_table (Overlay s) →
  padded (To msg) = Ok to →
  dpaStore w (serialize w msg) = None →
  forward w msg s =
  if checkFwdCache w s [] zeroDigest
  then Ok (None, s, [EvStore (serialize w msg)])
  else
    let evs :=
      attempts w s msg zeroDigest
        (upto (stops w s msg zeroDigest to)
           (pot.neighbours entry_Address to (conns (Overlay s)))) in
    if bool_decide (accepted evs = [])
    then Ok (None, s, EvStore (serialize w msg) :: evs)
    else Ok (None,
             set_fwdCache s
               (<[zeroDigest := cached w s zeroDigest]> (fwdCache s)),
             EvStore (serialize w msg) :: evs).
Proof.
  intros Hlive Hpad Hstore. apply forward_run; [done|done|].
  unfold forward_digest. by rewrite Hstore.
Qed.

(** ** The flood guard *)









Lemma sample_live_table : live_table (Overlay sample.node).
Proof.
  split.
  - apply (bool_decide_unpack _). by vm_compute.
  - repeat constructor; eexists; (split; reflexivity).
Defined.


(** The same message forwarded three times by the sample node: at 1000
    seconds it goes to the nearest peer, half a second later it is
    blocked by the flood guard, two seconds later it goes out again. *)
Example forward_thrice :
  let m := sample.message x01 in
  let soon := sample.with_now sample.world (now sample.world + 500000000) in
  let late := sample.with_now sample.world (now sample.world + 2000000000) in
  ∃ s1 s2,
    forward sample.world m sample.node
    = Ok (None, s1, [EvStore (serialize sample.world m);
                     EvSend (sample.a32 x80) m true]) ∧
    forward soon m s1 = Ok (None, s1, [EvStore (serialize soon m)]) ∧
    forward late m s1
    = Ok (None, s2, [EvStore (serialize late m);
                     EvSend (sample.a32 x80) m true]).
Proof.
  simpl. eexists _, _.
  split; [vm_compute; reflexivity|]. split; vm_compute; reflexivity.
Qed.

(** C8. With a chunk store that fails, [forward] of a message goes on
    with the zero digest: after a send is accepted the flood-guard cache
    has gained an entry under the zero digest, and a different message
    forwarded while the store still fails is blocked by that entry and
    sent to no peer; with a working store the second message goes out. *)
Theorem forward_store_failure_uses_zero_digest :
  let m1 := sample.message x01 in
  let m2 := sample.message x02 in
  stored_digest sample.world_store_down m1 = None ∧
  stored_digest sample.world_store_down m2 = None ∧
  fwdCache sample.node !! zeroDigest = None ∧
  ∃ s1 s2,
    forward sample.world_store_down m1 sample.node
    = Ok (None, s1, [EvStore (serialize sample.world m1);
                     EvSend (sample.a32 x80) m1 true]) ∧
    fwdCache s1 !! zeroDigest
    = Some {| expiresAt := now sample.world + cacheTTL sample.node;
              receivedFrom := [] |} ∧
    forward sample.world_store_down m2 s1
    = Ok (None, s1, [EvStore (serialize sample.world m2)]) ∧
    forward sample.world m2 s1
    = Ok (None, s2, [EvStore (serialize sample.world m2);
                     EvSend (sample.a32 x80) m2 true]).
Proof.
  simpl. split; [done|]. split; [done|]. split; [done|].
  eexists _, _. split; [vm_compute; reflexivity|].
  split; [vm_compute; reflexivity|].
  split; vm_compute; reflexivity.
Qed.

(** ** The iteration of forward over the live peers *)





(** * Further properties of the Kademlia table *)

Import kademlia.

(** ** Register, continued *)

Lemma Register_fields k peers now :
  let k' := (Register k peers now).1 in
  params k' = params k ∧ base k' = base k ∧
  conns k' = conns k ∧ depth k' = depth k.
Proof.
  revert k. induction peers as [|p rest IH]; intros k; [done|].
  simpl. rewrite Register_cons. destruct (bytes_Equal p (base k)); [done|].
  destruct (IH (set_addrs k (learn now (addrs k) p))) as (? & ? & ? & ?).
  done.
Qed.

Lemma Register_grows k peers now :
  ∃ new,
    addrs (Register k peers now).1 = addrs k ++ new ∧
    Forall (λ e, ∃ p, p ∈ peers ∧ e = newEntry (PeerAddr p) now) new.
Proof.
  revert k. induction peers as [|p rest IH]; intros k.
  - exists []. by rewrite app_nil_r.
  - rewrite Register_cons. destruct (bytes_Equal p (base k)).
    { exists []. by rewrite app_nil_r. }
    destruct (IH (set_addrs k (learn now (addrs k) p))) as (new & Heq & Hnew).
    rewrite Heq. simpl. unfold learn. case_bool_decide.
    + exists new. split; [done|].
      eapply Forall_impl; [exact Hnew|].
      intros e (q & Hq & ->). exists q. split; [by apply list_elem_of_further|done].
    + exists (newEntry (PeerAddr p) now :: new).
      split; [by rewrite <- app_assoc|].
      constructor.
      * exists p. split; [apply list_elem_of_here|done].
      * eapply Forall_impl; [exact Hnew|].
        intros e (q & Hq & ->). exists q.
        split; [by apply list_elem_of_further|done].
Qed.

Lemma Register_NoDup k peers now :
  NoDup (pot.keys entry_Address (addrs k)) →
  NoDup (pot.keys entry_Address (addrs (Register k peers now).1)).
Proof.
  revert k. induction peers as [|p rest IH]; intros k Hnd; [done|].
  rewrite Register_cons. destruct (bytes_Equal p (base k)); [done|].
  apply IH. simpl. by apply learn_NoDup.
Qed.

(** X1. [Register] succeeds exactly when the base address is not among the
    supplied addresses, and then every supplied address is known. *)
Theorem Register_succeeds_iff (k : Kademlia) (peers : list OverlayAddress)
    (now : Time) :
  ((Register k peers now).2 = None ↔ base k ∉ peers) ∧
  ((Register k peers now).2 = None →
   ∀ p, p ∈ peers →
        p ∈ pot.keys entry_Address (addrs (Register k peers now).1)).
Proof.
  assert (Hok : base k ∉ peers →
            (Register k peers now).2 = None ∧
            ∀ p, p ∈ peers →
                 p ∈ pot.keys entry_Address (addrs (Register k peers now).1)).
  { revert k. induction peers as [|q rest IH]; intros k Hni.
    - split; [done|]. intros p Hp. by apply elem_of_nil in Hp.
    - apply not_elem_of_cons in Hni as [Hq Hni].
      rewrite Register_cons. unfold bytes_Equal.
      rewrite bool_decide_eq_false_2 by congruence.
      destruct (IH (set_addrs k (learn now (addrs k) q)) Hni) as [Hnone Hall].
      split; [exact Hnone|].
      intros p Hp. apply elem_of_cons in Hp as [->|Hp]; [|by apply Hall].
      apply Register_from_keeps. simpl. apply learn_keys. }
  assert (Hiff : (Register k peers now).2 = None ↔ base k ∉ peers).
  { split; [|by intros Hni; apply Hok].
    intros Hnone Hin.
    pose proof (Register_from_self now peers k 0 0 Hin) as Herr.
    unfold Register in Hnone. congruence. }
  split; [exact Hiff|]. intros Hnone. apply Hok. by apply Hiff.
Qed.

Lemma Register_succeeds_iff_witness :
  (Register sample.table [sample.a32 x07; sample.a32 x09] 9).2 = None ∧
  sample.a32 x09
  ∈ pot.keys entry_Address
      (addrs (Register sample.table [sample.a32 x07; sample.a32 x09] 9).1).
Proof.
  destruct (Register_succeeds_iff sample.table
              [sample.a32 x07; sample.a32 x09] 9) as [Hiff Hall].
  assert (Hnone : (Register sample.table
                     [sample.a32 x07; sample.a32 x09] 9).2 = None).
  { apply Hiff. apply (bool_decide_unpack _). by vm_compute. }
  split; [exact Hnone|]. apply (Hall Hnone).
  apply list_elem_of_further, list_elem_of_here.
Defined.

(** X2. Whatever it returns, [Register] only appends fresh offline records
    of supplied addresses to the known addresses: the records that were
    there stay in place unaltered, the live connections, the base
    address, the parameters and the depth are untouched, and an index
    with one record per address stays so. *)
Theorem Register_only_appends (k : Kademlia) (peers : list OverlayAddress)
    (now : Time) :
  let k' := (Register k peers now).1 in
  (∃ new, addrs k' = addrs k ++ new ∧
          Forall (λ e, ∃ p, p ∈ peers ∧ e = newEntry (PeerAddr p) now) new) ∧
  conns k' = conns k ∧ base k' = base k ∧
  params k' = params k ∧ depth k' = depth k ∧
  (NoDup (pot.keys entry_Address (addrs k)) →
   NoDup (pot.keys entry_Address (addrs k'))).
Proof.
  simpl. destruct (Register_fields k peers now) as (? & ? & ? & ?).
  split; [apply Register_grows|].
  repeat (split; [done|]). apply Register_NoDup.
Qed.

Lemma Register_only_appends_witness :
  NoDup (pot.keys entry_Address
           (addrs (Register sample.table
                     [sample.a32 x07; sample.a32 x07; sample.a32 x00] 9).1)).
Proof.
  apply (Register_only_appends sample.table
           [sample.a32 x07; sample.a32 x07; sample.a32 x00] 9).
  apply NoDup_nil_2.
Defined.

(** ** neighbourhoodDepth, continued *)

Lemma pof_nonneg a b : 0 ≤ pot.pof a b.
Proof. unfold pot.pof. lia. Qed.

Lemma each_counts_range (m : Z) (po : entry → Z) (l : list entry)
    (size depth : Z) :
  (∀ v, 0 ≤ po v ≤ 256) → 0 ≤ depth ≤ 256 →
  0 ≤ (pot.each
         (λ v '(size, depth),
            let size := size + 1 in
            let depth := po v in ((size, depth), size <? m))
         l (size, depth)).1.2 ≤ 256.
Proof.
  intros Hpo. revert size depth.
  induction l as [|v l IH]; intros size depth Hd; simpl; [done|].
  destruct (size + 1 <? m); [|simpl; apply Hpo].
  apply IH, Hpo.
Qed.

(** The neighbourhood depth is a proximity order: it lies between 0 and
    256. *)
Theorem neighbourhoodDepth_range (k : Kademlia) :
  0 ≤ neighbourhoodDepth k ≤ 256.
Proof.
  unfold neighbourhoodDepth.
  destruct (_ <? _); [lia|].
  unfold pot.EachNeighbour.
  apply (each_counts_range (MinProxBinSize (params k))
           (λ v, pot.pof (entry_Address v) (base k))); [|lia].
  intros v. split; [apply pof_nonneg|apply pof_le_256].
Qed.

(** The depth read as an element of the proximity orders met nearest
    first. *)
Lemma neighbourhoodDepth_lookup (k : Kademlia) :
  1 ≤ MinProxBinSize (params k) ≤ pot.Size (conns k) →
  ((λ v, pot.pof (entry_Address v) (base k))
     <$> pot.neighbours entry_Address (base k) (conns k))
    !! Z.to_nat (MinProxBinSize (params k) - 1)
  = Some (neighbourhoodDepth k).
Proof.
  intros [Hone Hsize]. unfold neighbourhoodDepth.
  rewrite (proj2 (Z.ltb_ge _ _) Hsize). unfold pot.EachNeighbour.
  set (near := pot.neighbours entry_Address (base k) (conns k)).
  destruct (each_counts (MinProxBinSize (params k))
              (λ v, pot.pof (entry_Address v) (base k)) near 0 0)
    as (e & He & Hd).
  - lia.
  - unfold near. rewrite neighbours_length. unfold pot.Size in Hsize. lia.
  - replace (MinProxBinSize (params k) - 0 - 1)
      with (MinProxBinSize (params k) - 1) in He by lia.
    rewrite list_lookup_fmap, He. simpl. f_equal. symmetry. exact Hd.
Qed.

Lemma StronglySorted_lookup_lt {A} (R : relation A) (l : list A) i j x y :
  StronglySorted R l → l !! i = Some x → l !! j = Some y → (i < j)%nat →
  R x y.
Proof.
  intros Hs Hi Hj Hlt.
  rewrite <- (take_drop j l) in Hs.
  apply (StronglySorted_app_1_elem_of R _ _ x y Hs).
  - apply list_elem_of_lookup. exists i. by rewrite lookup_take_lt.
  - apply list_elem_of_lookup. exists O. by rewrite lookup_drop, Nat.add_0_r.
Qed.

(** Placing a value into a nearest-first list never lowers the
    proximity order found at a position. *)
Lemma place_lookup_le base (e : entry) (l : list entry) i v :
  pot.nearest_first entry_Address base l →
  l !! i = Some v →
  ∃ u, pot.place entry_Address base e l !! i = Some u ∧
       pot.pof (entry_Address v) base ≤ pot.pof (entry_Address u) base.
Proof.
  unfold pot.nearest_first. intros Hs. revert i.
  induction Hs as [|v0 l Hs IH Hv0]; intros i Hi; [done|].
  simpl. destruct (Z.leb_spec (pot.pof (entry_Address v0) base)
                     (pot.pof (entry_Address e) base)) as [Hle|Hgt].
  - destruct i as [|[|j]]; simpl in *.
    + injection Hi as <-. eauto.
    + exists v0. split; [done|].
      rewrite Forall_forall in Hv0. apply Hv0.
      apply list_elem_of_lookup. eauto.
    + destruct (lookup_lt_is_Some_2 l j) as [u Hu].
      { apply lookup_lt_Some in Hi. lia. }
      exists u. split; [done|].
      apply (StronglySorted_lookup_lt _ l j (S j) u v Hs Hu Hi). lia.
  - destruct i as [|j]; simpl in *.
    + injection Hi as <-. eauto with lia.
    + by apply IH.
Qed.

(** X3. When a peer goes live the neighbourhood depth does not go down: for
    a positive [MinProxBinSize], a table whose live connections are
    those of [k] and one more has a neighbourhood depth at least that of
    [k]. *)
Theorem neighbourhoodDepth_grows (k k' : Kademlia) (e : entry) :
  base k' = base k → params k' = params k →
  1 ≤ MinProxBinSize (params k) →
  conns k' ≡ₚ e :: conns k →
  neighbourhoodDepth k ≤ neighbourhoodDepth k'.
Proof.
  intros Hbase Hparams Hone Hperm.
  destruct (Z.lt_ge_cases (pot.Size (conns k)) (MinProxBinSize (params k)))
    as [Hfew|Hmany].
  { unfold neighbourhoodDepth at 1. rewrite (proj2 (Z.ltb_lt _ _) Hfew).
    apply neighbourhoodDepth_range. }
  assert (Hsize' : pot.Size (conns k') = pot.Size (conns k) + 1).
  { unfold pot.Size. rewrite Hperm. simpl. lia. }
  pose proof (neighbourhoodDepth_lookup k (conj Hone Hmany)) as Hk.
  assert (Hk' : 1 ≤ MinProxBinSize (params k') ≤ pot.Size (conns k'))
    by (rewrite Hparams; lia).
  apply neighbourhoodDepth_lookup in Hk'. rewrite Hparams, Hbase in Hk'.
  set (pos := λ v : entry, pot.pof (entry_Address v) (base k)) in *.
  set (n := Z.to_nat (MinProxBinSize (params k) - 1)) in *.
  assert (Hsame : pos <$> pot.neighbours entry_Address (base k) (conns k')
                = pos <$> pot.place entry_Address (base k) e
                            (pot.neighbours entry_Address (base k) (conns k))).
  { apply nearest_first_pof_unique.
    - by rewrite neighbours_perm, place_perm, neighbours_perm.
    - apply neighbours_sorted.
    - apply place_sorted, neighbours_sorted. }
  rewrite Hsame in Hk'.
  rewrite list_lookup_fmap in Hk.
  destruct (pot.neighbours entry_Address (base k) (conns k) !! n)
    as [v|] eqn:Hv; [|done].
  destruct (place_lookup_le (base k) e _ n v
              (neighbours_sorted entry_Address (base k) (conns k)) Hv)
    as (u & Hu & Hle).
  rewrite list_lookup_fmap, Hu in Hk'. simpl in *.
  injection Hk as <-. injection Hk' as <-. exact Hle.
Qed.

Lemma neighbourhoodDepth_grows_witness :
  neighbourhoodDepth sample.table
  ≤ neighbourhoodDepth
      (set_conns sample.table (conns sample.table ++ [sample.live x03])).
Proof.
  apply (neighbourhoodDepth_grows sample.table _ (sample.live x03));
    [reflexivity|reflexivity|by vm_compute|].
  exact (Permutation_app_comm (conns sample.table) [sample.live x03]).
Defined.

(** ** On and Off *)

Section SwapMore.
Context {V : Type} (key : V → OverlayAddress).
Implicit Types (t : list V) (k q : OverlayAddress).

Lemma find_has_key_is_Some t k :
  is_Some (List.find (pot.has_key key k) t) ↔ k ∈ pot.keys key t.
Proof.
  rewrite <- not_eq_None_Some, (find_has_key_None key t k).
  split; [apply dec_stable|by intros ? ?].
Qed.

Lemma replace_absent t k n :
  k ∉ pot.keys key t → pot.replace key k n t = t.
Proof.
  unfold pot.keys, pot.has_key, bytes_Equal.
  induction t as [|x t IH]; simpl; [done|].
  intros Hni. apply not_elem_of_cons in Hni as [Hne Hni].
  unfold pot.has_key, bytes_Equal.
  rewrite bool_decide_eq_false_2 by congruence. by rewrite IH.
Qed.

Lemma keys_replace_Some t k v :
  key v = k → pot.keys key (pot.replace key k (Some v) t) = pot.keys key t.
Proof.
  intros Hv. unfold pot.keys. induction t as [|x t IH]; [done|].
  cbn [pot.replace]. unfold pot.has_key, bytes_Equal.
  case_bool_decide as Hx; rewrite !fmap_cons.
  - by rewrite Hv, Hx.
  - by rewrite IH.
Qed.

Lemma keys_replace_None t k :
  NoDup (pot.keys key t) →
  pot.keys key (pot.replace key k None t)
  = filter (λ q, q ≠ k) (pot.keys key t).
Proof.
  unfold pot.keys. induction t as [|x t IH]; [done|].
  rewrite fmap_cons. intros Hnd. apply NoDup_cons in Hnd as [Hni Hnd].
  cbn [pot.replace]. unfold pot.has_key, bytes_Equal. rewrite filter_cons.
  case_bool_decide as Hx; case_decide as Hd; try done.
  - subst k. symmetry. clear IH Hd Hnd.
    induction t as [|y t IH]; [done|].
    rewrite fmap_cons in Hni |- *.
    apply not_elem_of_cons in Hni as [Hne Hni].
    rewrite filter_cons. case_decide; [|congruence]. f_equal. by apply IH.
  - rewrite fmap_cons. f_equal. by apply IH.
Qed.

Lemma has_key_spec k (x : V) : pot.has_key key k x = true ↔ key x = k.
Proof. unfold pot.has_key, bytes_Equal. apply bool_decide_eq_true. Qed.

Lemma has_key_false k (x : V) : pot.has_key key k x = false ↔ key x ≠ k.
Proof. unfold pot.has_key, bytes_Equal. apply bool_decide_eq_false. Qed.

Lemma find_replace_ne t k q n :
  q ≠ k → (∀ v, n = Some v → key v = k) →
  List.find (pot.has_key key q) (pot.replace key k n t)
  = List.find (pot.has_key key q) t.
Proof.
  intros Hne Hn. induction t as [|x t IH]; [done|].
  cbn [pot.replace List.find].
  destruct (pot.has_key key k x) eqn:Hkx.
  - apply has_key_spec in Hkx.
    assert (Hqx : pot.has_key key q x = false)
      by (apply has_key_false; congruence).
    rewrite Hqx. destruct n as [v|]; [|done].
    cbn [List.find].
    assert (Hqv : pot.has_key key q v = false).
    { apply has_key_false. rewrite (Hn v eq_refl). congruence. }
    by rewrite Hqv.
  - cbn [List.find]. by rewrite IH.
Qed.

Lemma find_replace_Some t k v :
  key v = k → k ∈ pot.keys key t →
  List.find (pot.has_key key k) (pot.replace key k (Some v) t) = Some v.
Proof.
  intros Hv. unfold pot.keys. induction t as [|x t IH].
  - intros Hin. by apply elem_of_nil in Hin.
  - rewrite fmap_cons. intros Hin. cbn [pot.replace].
    destruct (pot.has_key key k x) eqn:Hkx; cbn [List.find].
    + by rewrite (proj2 (has_key_spec k v) Hv).
    + rewrite Hkx. apply IH.
      apply has_key_false in Hkx.
      apply elem_of_cons in Hin as [Heq|Hin]; [congruence|done].
Qed.

Lemma find_app_new t v q :
  List.find (pot.has_key key q) (t ++ [v]) =
  match List.find (pot.has_key key q) t with
  | Some x => Some x
  | None => if pot.has_key key q v then Some v else None
  end.
Proof.
  induction t as [|x t IH]; simpl; [done|].
  destruct (pot.has_key key q x); [done|exact IH].
Qed.

Lemma replace_None_app_new t k v :
  k ∉ pot.keys key t → key v = k →
  pot.replace key k None (t ++ [v]) = t.
Proof.
  unfold pot.keys. intros Hni Hv. induction t as [|x t IH].
  - simpl. by rewrite (proj2 (has_key_spec k v) Hv).
  - rewrite fmap_cons in Hni. apply not_elem_of_cons in Hni as [Hne Hni].
    rewrite <- app_comm_cons. cbn [pot.replace].
    rewrite (proj2 (has_key_false k x)) by congruence. by rewrite IH.
Qed.
End SwapMore.

Lemma record_is_Some (t : list entry) (a : OverlayAddress) :
  is_Some (record t a) ↔ a ∈ pot.keys entry_Address t.
Proof. apply find_has_key_is_Some. Qed.

Lemma record_None (t : list entry) (a : OverlayAddress) :
  record t a = None ↔ a ∉ pot.keys entry_Address t.
Proof. apply find_has_key_None. Qed.

Lemma On_unfold k p now :
  On k p now =
  let k2 := entered k p now in
  let d := uint8 (saturation k2 (MinBinSize (params k2))) in
  if bool_decide (d ≠ depth k2) then (set_depth k2 d, d, true)
  else (k2, depth k2, false).
Proof. unfold On, entered. by destruct (pot.Swap _ _ _ _) as [c found]. Qed.

Lemma entered_eq k p now :
  entered k p now =
  if bool_decide (Address p ∈ pot.keys entry_Address (conns k))
  then set_conns k (conns k)
  else set_addrs (set_conns k (conns k ++ [newEntry p now]))
         (pot.Swap entry_Address (addrs k) (Address p)
            (λ _, Some (newEntry p now))).1.
Proof.
  unfold entered, pot.Swap at 1.
  destruct (List.find _ (conns k)) as [old|] eqn:Hf; cbn [negb].
  - rewrite (replace_found _ _ _ _ Hf).
    rewrite bool_decide_eq_true_2; [done|].
    apply find_has_key_is_Some. by rewrite Hf.
  - apply find_has_key_None in Hf. by rewrite bool_decide_eq_false_2.
Qed.

(** The indexes after the peer is entered: nothing changes for a peer
    that is live already; otherwise its entry is appended to the live
    connections and stored among the known addresses. *)
Lemma entered_indexes k p now :
  let e := newEntry p now in
  let k2 := entered k p now in
  base k2 = base k ∧ params k2 = params k ∧ depth k2 = depth k ∧
  (Address p ∈ pot.keys entry_Address (conns k) →
   conns k2 = conns k ∧ addrs k2 = addrs k) ∧
  (Address p ∉ pot.keys entry_Address (conns k) →
   conns k2 = conns k ++ [e] ∧
   addrs k2 = (pot.Swap entry_Address (addrs k) (Address p) (λ _, Some e)).1).
Proof.
  simpl. rewrite entered_eq. case_bool_decide; simpl; naive_solver.
Qed.

(** Storing an entry under its own address: the address is known
    afterwards, with that entry, no other record changes and no address
    is entered twice. *)
Lemma Swap_store (t : list entry) (e : entry) :
  let t' := (pot.Swap entry_Address t (entry_Address e) (λ _, Some e)).1 in
  record t' (entry_Address e) = Some e ∧
  (∀ q, q ≠ entry_Address e → record t' q = record t q) ∧
  (∀ q, q ∈ pot.keys entry_Address t' ↔
        q = entry_Address e ∨ q ∈ pot.keys entry_Address t) ∧
  (NoDup (pot.keys entry_Address t) → NoDup (pot.keys entry_Address t')).
Proof.
  simpl. unfold pot.Swap, record.
  destruct (List.find _ t) as [old|] eqn:Hf; cbn [fst].
  - assert (Hin : entry_Address e ∈ pot.keys entry_Address t).
    { apply find_has_key_is_Some. by rewrite Hf. }
    split; [by apply find_replace_Some|].
    split; [intros q Hq; apply find_replace_ne; [done|by intros v [= <-]]|].
    rewrite keys_replace_Some by done.
    split; [|done]. intros q. split; [by right|]. by intros [->|?].
  - apply find_has_key_None in Hf.
    split.
    { rewrite find_app_new.
      rewrite (proj2 (find_has_key_None entry_Address t _) Hf).
      by rewrite (proj2 (has_key_spec entry_Address _ e) eq_refl). }
    split.
    { intros q Hq. rewrite find_app_new.
      destruct (List.find _ t); [done|].
      by rewrite (proj2 (has_key_false entry_Address q e)). }
    unfold pot.keys in *. rewrite fmap_app. simpl. split.
    + intros q. rewrite elem_of_app, list_elem_of_singleton. tauto.
    + intros Hnd. apply NoDup_app. split; [done|]. split.
      * intros x Hx Hx'. apply list_elem_of_singleton in Hx'. by subst.
      * apply NoDup_singleton.
Qed.

Lemma Swap_delete (t : list entry) (a : OverlayAddress) :
  (pot.Swap entry_Address t a (λ _, None)).1
  = pot.replace entry_Address a None t.
Proof.
  unfold pot.Swap. destruct (List.find _ t) eqn:Hf; [done|].
  apply find_has_key_None in Hf. by rewrite replace_absent.
Qed.

Lemma Off_eq k p now :
  Off k p now =
  if bool_decide (Address p ∈ pot.keys entry_Address (addrs k))
  then Ok (set_conns
             (set_addrs k
                (pot.replace entry_Address (Address p)
                   (Some (newEntry (conn_Off p) now)) (addrs k)))
             (pot.replace entry_Address (Address p) None (conns k)))
  else Panic.
Proof.
  unfold Off, pot.Swap at 1.
  destruct (List.find _ (addrs k)) as [old|] eqn:Hf; cbn [negb].
  - rewrite Swap_delete. rewrite bool_decide_eq_true_2; [done|].
    apply find_has_key_is_Some. by rewrite Hf.
  - apply find_has_key_None in Hf. by rewrite bool_decide_eq_false_2.
Qed.

(** [On] leaves the entered table with the depth [uint8(saturation)]. *)
Lemma On_table_eq k p now :
  ∃ d, (On k p now).1.1 = set_depth (entered k p now) d ∧
       d = uint8 (saturation (entered k p now)
                    (MinBinSize (params (entered k p now)))).
Proof.
  rewrite On_unfold. simpl. case_bool_decide as Hd; cbn [fst].
  - by eexists.
  - exists (depth (entered k p now)).
    split; [by destruct (entered k p now)|].
    done.
Qed.

(** X4. [On] enters the peer among the live connections and returns the
    depth it stores, with a flag that tells whether the stored depth
    changed. A peer that is live already leaves both indexes as they
    are. Otherwise one and the same new entry is appended to the live
    connections and stored as the known record of the address, and no
    other known record changes. *)
Theorem On_enters (k : Kademlia) (p : OverlayPeer) (now : Time) :
  let e := newEntry p now in
  let k' := (On k p now).1.1 in
  base k' = base k ∧ params k' = params k ∧
  (On k p now).1.2 = depth k' ∧
  ((On k p now).2 = true ↔ depth k' ≠ depth k) ∧
  Address p ∈ pot.keys entry_Address (conns k') ∧
  (Address p ∈ pot.keys entry_Address (conns k) →
   conns k' = conns k ∧ addrs k' = addrs k) ∧
  (Address p ∉ pot.keys entry_Address (conns k) →
   conns k' = conns k ++ [e] ∧
   record (addrs k') (Address p) = Some e ∧
   ∀ q, q ≠ Address p → record (addrs k') q = record (addrs k) q).
Proof.
  simpl. rewrite On_unfold.
  destruct (entered_indexes k p now) as (Hb & Hp & Hd & Hold & Hnew).
  set (k2 := entered k p now) in *.
  assert (Hpots : ∀ d, conns (set_depth k2 d) = conns k2 ∧
                       addrs (set_depth k2 d) = addrs k2) by done.
  set (d := uint8 (saturation k2 (MinBinSize (params k2)))). simpl.
  assert (Hgoal :
    Address p ∈ pot.keys entry_Address (conns k2) ∧
    (Address p ∈ pot.keys entry_Address (conns k) →
     conns k2 = conns k ∧ addrs k2 = addrs k) ∧
    (Address p ∉ pot.keys entry_Address (conns k) →
     conns k2 = conns k ++ [newEntry p now] ∧
     record (addrs k2) (Address p) = Some (newEntry p now) ∧
     ∀ q, q ≠ Address p → record (addrs k2) q = record (addrs k) q)).
  { split.
    - destruct (decide (Address p ∈ pot.keys entry_Address (conns k)))
        as [Hin|Hni].
      + by rewrite (proj1 (Hold Hin)).
      + rewrite (proj1 (Hnew Hni)). unfold pot.keys. rewrite fmap_app.
        apply elem_of_app. right. apply list_elem_of_here.
    - split; [exact Hold|]. intros Hni. destruct (Hnew Hni) as [Hc Ha].
      split; [exact Hc|]. rewrite Ha.
      destruct (Swap_store (addrs k) (newEntry p now)) as (Hs & Ho & _).
      split; [exact Hs|exact Ho]. }
  case_bool_decide as Hdd; cbn [fst snd].
  - split; [done|]. split; [done|]. split; [done|].
    split; [|exact Hgoal]. split; [intros _|done].
    simpl. rewrite <- Hd. exact Hdd.
  - split; [done|]. split; [done|]. split; [done|].
    split; [|exact Hgoal]. split; [done|]. intros Hne. congruence.
Qed.

Lemma On_enters_witness :
  let k' := (On sample.table (PeerConn (sample.a32 x03) true) 9).1.1 in
  (conns (On sample.table (PeerConn (sample.a32 x01) true) 9).1.1
   = conns sample.table) ∧
  conns k' = conns sample.table
             ++ [newEntry (PeerConn (sample.a32 x03) true) 9] ∧
  record (addrs k') (sample.a32 x03)
  = Some (newEntry (PeerConn (sample.a32 x03) true) 9).
Proof.
  simpl. split.
  - apply (On_enters sample.table (PeerConn (sample.a32 x01) true) 9).
    apply list_elem_of_here.
  - destruct (On_enters sample.table (PeerConn (sample.a32 x03) true) 9)
      as (_ & _ & _ & _ & _ & _ & Hnew).
    destruct Hnew as (Hc & Hr & _); [|by split].
    apply (bool_decide_unpack _). by vm_compute.
Defined.

(** X5. [Off] panics exactly when the peer is not among the known
    addresses. Otherwise the known record of the peer is replaced by a
    fresh offline record (seen now, no retries), the peer is no longer
    live, no other record of either index changes, and the stored depth
    is left as it was. *)
Theorem Off_leaves (k : Kademlia) (p : OverlayPeer) (now : Time) :
  (Off k p now = Panic ↔ Address p ∉ pot.keys entry_Address (addrs k)) ∧
  (∀ k', Off k p now = Ok k' →
     base k' = base k ∧ params k' = params k ∧ depth k' = depth k ∧
     record (addrs k') (Address p)
     = Some (newEntry (PeerAddr (Address p)) now) ∧
     (∀ q, q ≠ Address p →
           record (addrs k') q = record (addrs k) q ∧
           record (conns k') q = record (conns k) q) ∧
     (NoDup (pot.keys entry_Address (conns k)) →
      Address p ∉ pot.keys entry_Address (conns k'))).
Proof.
  rewrite Off_eq. case_bool_decide as Hin.
  - split; [split; [done|by intros Hni]|].
    intros k' [= <-]. simpl.
    split; [done|]. split; [done|]. split; [done|]. split.
    { apply (find_replace_Some entry_Address); done. }
    split.
    + intros q Hq. unfold record. split.
      * apply find_replace_ne; [done|]. by intros v [= <-].
      * by apply find_replace_ne.
    + intros Hnd. rewrite keys_replace_None by done.
      intros Hf. apply list_elem_of_filter in Hf as [Hne _]. done.
  - split; [done|]. by intros k' ?.
Qed.

Lemma Off_leaves_witness :
  Off sample.table (PeerConn (sample.a32 x01) true) 9 = Panic ∧
  ∀ k', Off (Register sample.table [sample.a32 x01] 7).1
          (PeerConn (sample.a32 x01) true) 9 = Ok k' →
        record (addrs k') (sample.a32 x01)
        = Some (newEntry (PeerAddr (sample.a32 x01)) 9) ∧
        sample.a32 x01 ∉ pot.keys entry_Address (conns k').
Proof.
  split.
  - apply (Off_leaves sample.table (PeerConn (sample.a32 x01) true) 9).
    apply not_elem_of_nil.
  - intros k' Hoff.
    destruct (Off_leaves (Register sample.table [sample.a32 x01] 7).1
                (PeerConn (sample.a32 x01) true) 9) as [_ Hok].
    destruct (Hok k' Hoff) as (_ & _ & _ & Hr & _ & Hnd).
    split; [exact Hr|]. apply Hnd.
    apply (bool_decide_unpack _). by vm_compute.
Defined.

(** X6. A peer that goes live and then offline leaves the live connections
    as they were; it is known afterwards by a fresh offline record, and
    the other known records are as before. *)
Theorem On_Off_restores_conns (k : Kademlia) (p : OverlayPeer)
    (now now' : Time) :
  Address p ∉ pot.keys entry_Address (conns k) →
  ∃ k'', Off (On k p now).1.1 p now' = Ok k'' ∧
         conns k'' = conns k ∧
         record (addrs k'') (Address p)
         = Some (newEntry (PeerAddr (Address p)) now') ∧
         ∀ q, q ≠ Address p → record (addrs k'') q = record (addrs k) q.
Proof.
  intros Hni.
  destruct (On_table_eq k p now) as (d & -> & _).
  destruct (entered_indexes k p now) as (_ & _ & _ & _ & Hnew).
  destruct (Hnew Hni) as [Hc Ha].
  destruct (Swap_store (addrs k) (newEntry p now)) as (Hs & Ho & Hk & _).
  rewrite Off_eq. simpl. rewrite Ha, Hc.
  rewrite bool_decide_eq_true_2 by (apply Hk; by left).
  eexists. split; [done|]. simpl.
  split; [by apply replace_None_app_new|]. split.
  - apply (find_replace_Some entry_Address); [done|]. apply Hk. by left.
  - intros q Hq. unfold record.
    rewrite find_replace_ne; [by apply Ho|done|by intros v [= <-]].
Qed.

Lemma On_Off_restores_conns_witness :
  ∃ k'', Off (On sample.table (PeerConn (sample.a32 x03) true) 9).1.1
           (PeerConn (sample.a32 x03) true) 11 = Ok k'' ∧
         conns k'' = conns sample.table ∧
         record (addrs k'') (sample.a32 x03)
         = Some (newEntry (PeerAddr (sample.a32 x03)) 11) ∧
         ∀ q, q ≠ sample.a32 x03 →
              record (addrs k'') q = record (addrs sample.table) q.
Proof.
  apply (On_Off_restores_conns sample.table (PeerConn (sample.a32 x03) true)).
  apply (bool_decide_unpack _). by vm_compute.
Defined.

Lemma On_table_ok (k : Kademlia) (p : OverlayPeer) (now : Time) :
  table_ok k → table_ok (On k p now).1.1.
Proof.
  intros (Hna & Hnc & Hsub).
  destruct (On_table_eq k p now) as (d & -> & _). unfold table_ok. simpl.
  destruct (entered_indexes k p now) as (_ & _ & _ & Hold & Hnew).
  destruct (decide (Address p ∈ pot.keys entry_Address (conns k)))
    as [Hin|Hni].
  + destruct (Hold Hin) as [-> ->]. done.
  + destruct (Hnew Hni) as [-> ->].
    destruct (Swap_store (addrs k) (newEntry p now)) as (_ & _ & Hk & Hnd).
    split; [by apply Hnd|]. unfold pot.keys in *. rewrite fmap_app. split.
    * apply NoDup_app. split; [done|]. split; [|apply NoDup_singleton].
      intros x Hx Hx'. apply list_elem_of_singleton in Hx'. by subst.
    * intros q Hq. apply Hk. apply elem_of_app in Hq as [Hq|Hq].
      -- right. by apply Hsub.
      -- left. by apply list_elem_of_singleton in Hq.
Qed.

Lemma On_live (k : Kademlia) (p : OverlayPeer) (now : Time) :
  Address p ∈ pot.keys entry_Address (conns (On k p now).1.1).
Proof.
  destruct (On_table_eq k p now) as (d & -> & _). simpl.
  destruct (entered_indexes k p now) as (_ & _ & _ & Hold & Hnew).
  destruct (decide (Address p ∈ pot.keys entry_Address (conns k)))
    as [Hin|Hni].
  - by rewrite (proj1 (Hold Hin)).
  - rewrite (proj1 (Hnew Hni)). unfold pot.keys. rewrite fmap_app.
    apply elem_of_app. right. apply list_elem_of_here.
Qed.

(** X7. [Register], [On] and [Off] keep the table well formed: one record
    per address in each index, and every live peer among the known
    addresses. *)
Theorem table_ok_kept (k : Kademlia) (now : Time) :
  table_ok k →
  (∀ peers, table_ok (Register k peers now).1) ∧
  (∀ p, table_ok (On k p now).1.1) ∧
  (∀ p k', Off k p now = Ok k' → table_ok k').
Proof.
  intros (Hna & Hnc & Hsub). split; [|split].
  - intros peers.
    destruct (Register_fields k peers now) as (_ & _ & Hc & _).
    destruct (Register_grows k peers now) as (new & Ha & _).
    split; [by apply Register_NoDup|]. rewrite Hc. split; [done|].
    rewrite Ha. unfold pot.keys in *. rewrite fmap_app.
    intros q Hq. apply elem_of_app. left. by apply Hsub.
  - intros p. by apply On_table_ok.
  - intros p k'. rewrite Off_eq. case_bool_decide as Hin; [|done].
    intros [= <-]. unfold table_ok. simpl.
    rewrite keys_replace_Some by done. rewrite keys_replace_None by done.
    split; [done|]. split; [by apply NoDup_filter|].
    intros q Hq. apply list_elem_of_filter in Hq as [_ Hq]. by apply Hsub.
Qed.

Lemma empty_table_ok a : table_ok (NewKademlia a None).
Proof. split; [|split]; [apply NoDup_nil_2|apply NoDup_nil_2|done]. Defined.

Lemma table_ok_kept_witness :
  table_ok (Register (NewKademlia (sample.a32 x00) None)
              [sample.a32 x07] 11).1 ∧
  table_ok (On (NewKademlia (sample.a32 x00) None)
              (PeerConn (sample.a32 x05) true) 11).1.1.
Proof.
  destruct (table_ok_kept _ 11 (empty_table_ok (sample.a32 x00)))
    as (Hr & Ho & _).
  split; [apply Hr|apply Ho].
Defined.

(** ** saturation *)

Section Saturation.
Context {V : Type}.

(** The closure of [saturation] run over bins: every order between the
    start and the result was met, in its turn, with at least [n]
    values. *)
Lemma each_saturated (n : Z) (B : list (Z * list V)) (prev : Z) :
  let r :=
    (pot.each
       (λ (b : Z * list V) prev,
          (prev + 1, (prev + 1 =? b.1) && (n <=? Z.of_nat (length b.2))))
       B prev).1 in
  prev ≤ r ∧
  (B ≠ [] → prev < r) ∧
  ∀ j, prev < j < r → ∃ l, (j, l) ∈ B ∧ n ≤ Z.of_nat (length l).
Proof.
  cbv zeta. revert prev. induction B as [|b B IH]; intros prev; simpl.
  - split; [lia|]. split; [done|]. intros j Hj. lia.
  - destruct (Z.eqb_spec (prev + 1) b.1) as [Heq|Hne]; simpl.
    + destruct (Z.leb_spec n (Z.of_nat (length b.2))) as [Hle|Hgt]; simpl.
      * destruct (IH (prev + 1)) as (Hr & _ & Hall).
        split; [lia|]. split; [lia|]. intros j Hj.
        destruct (decide (j = prev + 1)) as [->|Hj'].
        -- exists b.2. split; [|done]. rewrite Heq.
           destruct b. apply list_elem_of_here.
        -- destruct (Hall j ltac:(lia)) as (l & Hl & Hn).
           exists l. split; [by apply list_elem_of_further|done].
      * split; [lia|]. split; [lia|]. intros j Hj. lia.
    + split; [lia|]. split; [lia|]. intros j Hj. lia.
Qed.
End Saturation.

Lemma elem_of_bins (t : list entry) (b : OverlayAddress) from j l :
  (j, l) ∈ bins.bins entry_Address b from t →
  l = filter (λ v, pot.pof (entry_Address v) b = j) t ∧ l ≠ [].
Proof.
  unfold bins.bins. intros Hin.
  apply list_elem_of_filter in Hin as [Hne Hin].
  apply list_elem_of_fmap in Hin as (po & [= -> ->] & _). done.
Qed.

Lemma bins_nonempty (t : list entry) (b : OverlayAddress) :
  t ≠ [] → bins.bins entry_Address b 0 t ≠ [].
Proof.
  destruct t as [|v t]; [done|]. intros _ Hnil.
  assert (Hin : (pot.pof (entry_Address v) b,
                 bins.bin entry_Address b (v :: t) (pot.pof (entry_Address v) b))
                ∈ bins.bins entry_Address b 0 (v :: t)).
  { unfold bins.bins. apply list_elem_of_filter. split.
    - simpl. unfold bins.bin. rewrite filter_cons.
      by rewrite decide_True.
    - apply (list_elem_of_fmap_2 (λ po, (po, bins.bin entry_Address b (v :: t) po))).
      apply elem_of_seqZ.
      pose proof (pof_nonneg (entry_Address v) b).
      pose proof (pof_le_256 (entry_Address v) b). lia. }
  rewrite Hnil in Hin. by apply elem_of_nil in Hin.
Qed.

Lemma saturation_le_depth (k : Kademlia) (n : Z) :
  saturation k n ≤ neighbourhoodDepth k.
Proof.
  unfold saturation. cbv zeta.
  match goal with
  | |- (if ?a <? ?b then _ else _) ≤ _ => destruct (Z.ltb_spec a b); lia
  end.
Qed.

Lemma saturation_bins_full (k : Kademlia) (n : Z) :
  (addrs k ≠ [] → 0 ≤ saturation k n) ∧
  ∀ po, 0 ≤ po < saturation k n →
    let known :=
      filter (λ v, pot.pof (entry_Address v) (base k) = po) (addrs k) in
    known ≠ [] ∧ n ≤ Z.of_nat (length known).
Proof.
  unfold saturation, bins.EachBin.
  set (B := bins.bins entry_Address (base k) 0 (addrs k)).
  pose proof (each_saturated n B (-1)) as Hsat. cbv zeta in Hsat |- *.
  destruct Hsat as (Hr & Hne & Hall).
  set (r := (pot.each _ B (-1)).1) in *.
  pose proof (neighbourhoodDepth_range k) as Hd.
  split.
  - intros Hnon. specialize (Hne (bins_nonempty _ _ Hnon)).
    destruct (Z.ltb_spec (neighbourhoodDepth k) r); lia.
  - intros po Hpo.
    destruct (Hall po) as (l & Hl & Hn).
    { destruct (Z.ltb_spec (neighbourhoodDepth k) r); lia. }
    apply elem_of_bins in Hl as [-> Hnil]. done.
Qed.

(** X8. [saturation(n)] is at most the neighbourhood depth, and every
    proximity order below it holds at least [n] known addresses, and at
    least one. With a known address in the table it is not negative. *)
Theorem saturation_sound (k : Kademlia) (n : Z) :
  saturation k n ≤ neighbourhoodDepth k ∧
  (addrs k ≠ [] → 0 ≤ saturation k n) ∧
  ∀ po, 0 ≤ po < saturation k n →
    let known :=
      filter (λ v, pot.pof (entry_Address v) (base k) = po) (addrs k) in
    known ≠ [] ∧ n ≤ Z.of_nat (length known).
Proof.
  destruct (saturation_bins_full k n) as [Hpos Hall].
  split; [apply saturation_le_depth|]. split; [exact Hpos|exact Hall].
Qed.

Lemma saturation_sound_witness :
  let k := (On (On (On (NewKademlia (sample.a32 x00) None)
                    (PeerConn (sample.a32 x80) true) 1).1.1
                (PeerConn (sample.a32 x40) true) 2).1.1
            (PeerConn (sample.a32 x41) true) 3).1.1 in
  saturation k 1 = 1 ∧
  filter (λ v, pot.pof (entry_Address v) (base k) = 0) (addrs k) ≠ [].
Proof.
  simpl. split; [by vm_compute|].
  destruct (saturation_sound
              (On (On (On (NewKademlia (sample.a32 x00) None)
                         (PeerConn (sample.a32 x80) true) 1).1.1
                     (PeerConn (sample.a32 x40) true) 2).1.1
                 (PeerConn (sample.a32 x41) true) 3).1.1 1)
    as (_ & _ & Hall).
  destruct (Hall 0) as [Hne _]; [by vm_compute|exact Hne].
Defined.

(** X9. The depth that [On] stores in a well-formed table lies between 0 and
    the neighbourhood depth of the table it leaves, and every proximity
    order below it holds at least [MinBinSize] known addresses, and at
    least one. *)
Theorem On_depth_sound (k : Kademlia) (p : OverlayPeer) (now : Time) :
  table_ok k →
  let k' := (On k p now).1.1 in
  0 ≤ depth k' ≤ neighbourhoodDepth k' ∧
  ∀ po, 0 ≤ po < depth k' →
    let known :=
      filter (λ v, pot.pof (entry_Address v) (base k') = po) (addrs k') in
    known ≠ [] ∧ MinBinSize (params k') ≤ Z.of_nat (length known).
Proof.
  intros Hok. simpl.
  destruct (On_table_ok k p now Hok) as (_ & _ & Hsub).
  pose proof (On_live k p now) as Hlive.
  destruct (On_table_eq k p now) as (d & Heq & Hd).
  rewrite Heq in *. simpl in *.
  set (k2 := entered k p now) in *.
  assert (Hnon : addrs k2 ≠ []).
  { intros Hnil. apply Hsub in Hlive. rewrite Hnil in Hlive.
    by apply elem_of_nil in Hlive. }
  pose proof (saturation_le_depth k2 (MinBinSize (params k2))) as Hle.
  destruct (saturation_bins_full k2 (MinBinSize (params k2)))
    as (Hpos & Hall).
  specialize (Hpos Hnon).
  pose proof (neighbourhoodDepth_range k2) as Hrange.
  change (neighbourhoodDepth (set_depth k2 d)) with (neighbourhoodDepth k2).
  assert (Hds : 0 ≤ d ≤ saturation k2 (MinBinSize (params k2))).
  { rewrite Hd. unfold uint8.
    pose proof (Z.mod_pos_bound (saturation k2 (MinBinSize (params k2))) 256
                  ltac:(lia)).
    split; [lia|]. apply Z.mod_le; lia. }
  split; [lia|]. intros po Hpo. apply Hall. lia.
Qed.

Lemma On_depth_sound_witness :
  let k' := (On (NewKademlia (sample.a32 x00) None)
               (PeerConn (sample.a32 x05) true) 11).1.1 in
  0 ≤ depth k' ≤ neighbourhoodDepth k'.
Proof.
  apply (On_depth_sound _ (PeerConn (sample.a32 x05) true) 11
           (empty_table_ok (sample.a32 x00))).
Defined.

(** ** gotNearestNeighbours *)

Lemma filter_none {A} (P : A → Prop) `{!∀ x, Decision (P x)} (l : list A) :
  Forall (λ x, ¬ P x) l → filter P l = [].
Proof.
  induction 1 as [|x l Hx Hl IH]; [done|].
  rewrite filter_cons. by rewrite decide_False.
Qed.

Lemma eachConn_closure_nil {S : Type} (k : Kademlia) o
    (f : option (OverlayAddress * bool) → Z → bool → S → S * bool) (st : S) :
  eachConn k [] o f st =
  (pot.each
     (λ v st, if o <? pot.pof (entry_Address v) (base k) then (st, true)
              else f (conn v) (pot.pof (entry_Address v) (base k))
                     (neighbourhoodDepth k <=? pot.pof (entry_Address v) (base k))
                     st)
     (pot.neighbours entry_Address (base k) (conns k)) st).1.
Proof. done. Qed.

(** The closure of [gotNearestNeighbours] run over live connections met
    nearest first: it collects the addresses of those whose proximity
    order lies between the depth and 255. *)
Lemma each_nearest (b : OverlayAddress) (d : Z) (l : list entry)
    (pm : gset (list byte)) :
  pot.nearest_first entry_Address b l →
  Forall (λ e, is_Some (conn e)) l →
  (pot.each
     (λ v (st : result (gset (list byte))),
        if 255 <? pot.pof (entry_Address v) b then (st, true)
        else
          match st with
          | Panic => (Panic, false)
          | Ok pm =>
              if negb (d <=? pot.pof (entry_Address v) b) then (Ok pm, false)
              else match conn v with
                   | None => (Panic, false)
                   | Some (a, _) => (Ok ({[a]} ∪ pm), true)
                   end
          end)
     l (Ok pm)).1
  = Ok (pm ∪ list_to_set
               (entry_Address <$>
                  filter (λ v, d ≤ pot.pof (entry_Address v) b ≤ 255) l)).
Proof.
  unfold pot.nearest_first. intros Hs. revert pm.
  induction Hs as [|v l Hs IH Hv]; intros pm Hall.
  - simpl. f_equal. by rewrite (right_id_L ∅ (∪)).
  - apply Forall_cons in Hall as [Hc Hall]. cbn [pot.each].
    rewrite filter_cons.
    destruct (Z.ltb_spec 255 (pot.pof (entry_Address v) b)) as [Hbig|Hsmall].
    { rewrite decide_False by lia. by apply IH. }
    destruct (Z.leb_spec d (pot.pof (entry_Address v) b)) as [Hnn|Hfar];
      cbn [negb].
    + rewrite decide_True by lia.
      destruct Hc as [[a sender] Hc].
      assert (Ha : entry_Address v = a).
      { unfold conn, entry_Address in *. destruct (peer v); [done|].
        by injection Hc as -> ->. }
      rewrite Hc. rewrite IH by done. f_equal.
      rewrite fmap_cons, list_to_set_cons, Ha.
      by rewrite (assoc_L (∪)), (comm_L (∪) pm).
    + rewrite decide_False by lia.
      assert (Hnone : filter (λ v0, d ≤ pot.pof (entry_Address v0) b ≤ 255) l
                      = []).
      { apply filter_none. eapply Forall_impl; [exact Hv|].
        intros x Hx. simpl in Hx. lia. }
      rewrite Hnone. simpl. f_equal. by rewrite (right_id_L ∅ (∪)).
Qed.

(** X10. On a table whose live connections are connected peers,
    [gotNearestNeighbours] answers [true] exactly when each of the given
    addresses is that of a live peer whose proximity order to the base
    lies between the neighbourhood depth and 255. *)
Theorem gotNearestNeighbours_iff (k : Kademlia) (peers : list OverlayAddress) :
  Forall (λ e, is_Some (conn e)) (conns k) →
  ∃ b, gotNearestNeighbours k peers = Ok b ∧
       (b = true ↔
        ∀ p, p ∈ peers →
             ∃ e, e ∈ conns k ∧ entry_Address e = p ∧
                  neighbourhoodDepth k ≤ pot.pof p (base k) ≤ 255).
Proof.
  intros Hall. unfold gotNearestNeighbours.
  rewrite eachConn_closure_nil.
  rewrite (each_nearest (base k) (neighbourhoodDepth k)).
  - eexists. split; [done|].
    rewrite forallb_forall.
    split.
    + intros H p Hp. apply list_elem_of_In in Hp. specialize (H p Hp).
      apply bool_decide_eq_true in H.
      apply elem_of_union in H as [H|H]; [by apply elem_of_empty in H|].
      apply elem_of_list_to_set, list_elem_of_fmap in H as (e & -> & He).
      apply list_elem_of_filter in He as [Hpo He].
      exists e. split; [|done].
      by rewrite <- (neighbours_perm entry_Address (base k) (conns k)).
    + intros H p Hp. apply list_elem_of_In in Hp.
      destruct (H p Hp) as (e & He & <- & Hpo).
      apply bool_decide_eq_true, elem_of_union. right.
      apply elem_of_list_to_set, list_elem_of_fmap_2, list_elem_of_filter.
      split; [done|].
      by rewrite (neighbours_perm entry_Address (base k) (conns k)).
  - apply neighbours_sorted.
  - by rewrite (neighbours_perm entry_Address (base k) (conns k)).
Qed.

Lemma gotNearestNeighbours_iff_witness :
  ∃ b, gotNearestNeighbours sample.table [sample.a32 x01; sample.a32 x02]
       = Ok b ∧
       (b = true ↔
        ∀ p, p ∈ [sample.a32 x01; sample.a32 x02] →
             ∃ e, e ∈ conns sample.table ∧ entry_Address e = p ∧
                  neighbourhoodDepth sample.table
                  ≤ pot.pof p (base sample.table) ≤ 255).
Proof.
  apply (gotNearestNeighbours_iff sample.table
           [sample.a32 x01; sample.a32 x02]).
  repeat constructor; by eexists.
Defined.

(** The two nearest live peers of the sample table are its nearest
    neighbours; the far peer [80..] is not. *)
Example gotNearestNeighbours_sample :
  gotNearestNeighbours sample.table [sample.a32 x01; sample.a32 x02] = Ok true ∧
  gotNearestNeighbours sample.table [sample.a32 x80] = Ok false.
Proof. split; by vm_compute. Qed.

Import pssmore psskeys.

(** * Further properties of the messaging engine *)

(** ** forward, continued *)

(** The closure of [forward] run over any live connections: what it
    adds to the trace are sends of the message, to addresses of the
    connections in their order, and the counter grows by the number of
    sends that were accepted. *)
Lemma each_closure_any w s msg digest to (l : list entry) sent tr sent' tr' b :
  pot.each (closure w s msg digest to) l (Ok (sent, tr)) = (Ok (sent', tr'), b) →
  ∃ evs, tr' = tr ++ evs ∧
         sent' = sent + Z.of_nat (length (accepted evs)) ∧
         Forall (sends_msg msg) evs ∧
         sends evs `sublist_of` (entry_Address <$> l).
Proof.
  revert sent tr. induction l as [|v l IH]; intros sent tr.
  - simpl. intros [= <- <- <-]. exists (@nil event).
    rewrite app_nil_r, Z.add_0_r. by repeat split.
  - cbn [pot.each].
    destruct (closure w s msg digest to v (Ok (sent, tr))) as [st next] eqn:Hv.
    assert (Hstep : st = Panic ∨
              ∃ evs, st = Ok (sent + Z.of_nat (length (accepted evs)), tr ++ evs) ∧
                     Forall (sends_msg msg) evs ∧
                     sends evs `sublist_of` [entry_Address v]).
    { unfold closure in Hv.
      destruct (256 <? _).
      { injection Hv as <- <-. right. exists (@nil event).
        rewrite app_nil_r, Z.add_0_r. repeat split; [done|apply sublist_nil_l]. }
      unfold visit in Hv. destruct (conn v) as [[a sender]|] eqn:Hc.
      2: { injection Hv as <- <-. by left. }
      assert (Ha : entry_Address v = a).
      { unfold conn, entry_Address in *. destruct (peer v); [done|].
        by injection Hc as -> ->. }
      rewrite Ha.
      assert (Hnone : ∃ evs, Ok (sent, tr)
                = Ok (sent + Z.of_nat (length (accepted evs)), tr ++ evs) ∧
                Forall (sends_msg msg) evs ∧ sends evs `sublist_of` [a]).
      { exists (@nil event). rewrite app_nil_r, Z.add_0_r.
        repeat split; [done|apply sublist_nil_l]. }
      assert (Hone : ∀ (ok : bool) (n : Z), n = sent + (if ok then 1 else 0) →
                ∃ evs, Ok (n, tr ++ [EvSend a msg ok])
                = Ok (sent + Z.of_nat (length (accepted evs)), tr ++ evs) ∧
                Forall (sends_msg msg) evs ∧ sends evs `sublist_of` [a]).
      { intros ok n ->. exists [EvSend a msg ok]. split.
        - destruct ok; reflexivity.
        - split; [|done]. constructor; [by exists a, ok|done]. }
      destruct (negb sender); [injection Hv as <- <-; by right|].
      destruct (checkFwdCache w s a digest); [injection Hv as <- <-; by right|].
      destruct (peerSend w a msg) eqn:Hok; cbn [negb] in Hv.
      2: { injection Hv as <- <-. right. apply (Hone false). lia. }
      destruct (bool_decide _).
      - destruct (slice_to _ a); [|injection Hv as <- <-; by left].
        destruct (bytes_Equal _ _);
          [injection Hv as <- <-; right; by apply (Hone true)|].
        destruct (neighbourhoodDepth _ <=? _);
          injection Hv as <- <-; right; by apply (Hone true).
      - destruct (neighbourhoodDepth _ <=? _);
          injection Hv as <- <-; right; by apply (Hone true). }
    destruct Hstep as [->|(evs1 & -> & Hf1 & Hs1)].
    { destruct next.
      - assert (Hp : ∀ l', (pot.each (closure w s msg digest to) l' Panic).1
                           = Panic).
        { intros l'. induction l' as [|x l' IHl]; [done|].
          cbn [pot.each]. unfold closure at 1.
          destruct (256 <? _); [exact IHl|done]. }
        intros Heach. specialize (Hp l). rewrite Heach in Hp. done.
      - done. }
    destruct next.
    + intros Heach. destruct (IH _ _ Heach) as (evs2 & -> & -> & Hf2 & Hs2).
      exists (evs1 ++ evs2). rewrite accepted_app, length_app, <- app_assoc.
      split; [done|]. split; [lia|]. split; [by apply Forall_app|].
      unfold sends in *. rewrite omap_app, fmap_cons.
      by apply (sublist_app _ [entry_Address v]).
    + intros [= <- <- <-]. exists evs1. split; [done|]. split; [done|].
      split; [done|]. rewrite fmap_cons.
      by apply (sublist_inserts_r (entry_Address <$> l) _ [entry_Address v]).
Qed.

(** Everything a [forward] that returns does. *)
Lemma forward_effects w msg s r s' tr :
  forward w msg s = Ok (r, s', tr) →
  ∃ to d evs,
    padded (To msg) = Ok to ∧ forward_digest w msg = Ok d ∧
    r = None ∧
    tr = EvStore (serialize w msg) :: evs ∧
    Forall (sends_msg msg) evs ∧
    sends evs `sublist_of`
      (entry_Address <$> pot.neighbours entry_Address to (conns (Overlay s))) ∧
    s' = (if bool_decide (accepted evs = []) then s
          else set_fwdCache s (<[d := cached w s d]> (fwdCache s))).
Proof.
  unfold forward. destruct (padded (To msg)) as [to|] eqn:Hpad; [|done].
  unfold mbind at 1, M_bind at 1.
  destruct (storeMsg w msg s) as [[[[d err] s0] tr0]|] eqn:Hstore; [|done].
  assert (Hs : s0 = s ∧ tr0 = [EvStore (serialize w msg)] ∧
               forward_digest w msg = Ok d).
  { unfold storeMsg, forward_digest, mbind, M_bind, emit in *.
    destruct (dpaStore w (serialize w msg)) as [key|].
    - destruct (slice_to digestLength key); [|done].
      by injection Hstore as <- <- <- <-.
    - by injection Hstore as <- <- <- <-. }
  destruct Hs as (-> & -> & Hdig).
  unfold mbind at 1, M_bind at 1, get.
  destruct (checkFwdCache w s [] d).
  { intros [= <- <- <-]. exists to, d, (@nil event).
    repeat split; try done. apply sublist_nil_l. }
  rewrite eachConn_closure
    by (rewrite (padded_length _ _ Hpad); discriminate).
  fold (closure w s msg d to).
  destruct (pot.each _ _ _) as [[[sent evs]|] b] eqn:Heach; [|done].
  apply each_closure_any in Heach as (evs' & Hevs & Hsent & Hall & Hsub).
  simpl in Hevs, Hsent. subst evs' sent. cbn [fst].
  unfold mbind, M_bind, emit, ret, mret, M_ret, addFwdCache, get, put.
  destruct (accepted evs) as [|a accs] eqn:Hacc; simpl.
  - intros [= <- <- <-]. exists to, d, evs.
    rewrite Hacc, app_nil_r. by repeat split.
  - intros [= <- <- <-]. exists to, d, evs.
    rewrite Hacc, app_nil_r. repeat split; try done.
    unfold cached. by destruct (fwdCache s !! d).
Qed.

(** X11. [forward] never returns an error, and of the state it changes
    nothing but the flood-guard cache: the digest of the message is
    recorded, with the lifetime [cacheTTL], exactly when a peer accepted
    the send; when none did, the state is left as it was. *)
Theorem forward_only_caches (w : World) (msg : PssMsg) (s s' : Pss)
    (r : option error) (tr : list event) :
  forward w msg s = Ok (r, s', tr) →
  r = None ∧
  (accepted tr = [] → s' = s) ∧
  (accepted tr ≠ [] →
   ∃ d, forward_digest w msg = Ok d ∧
        s' = set_fwdCache s
               (<[d := {| expiresAt := now w + cacheTTL s;
                          receivedFrom :=
                            match fwdCache s !! d with
                            | Some entry => receivedFrom entry
                            | None => []
                            end |}]> (fwdCache s))).
Proof.
  intros Hf.
  destruct (forward_effects _ _ _ _ _ _ Hf)
    as (to & d & evs & _ & Hd & -> & -> & _ & _ & ->).
  split; [done|]. simpl. split.
  - intros Hacc. by rewrite bool_decide_eq_true_2.
  - intros Hacc. rewrite bool_decide_eq_false_2 by done. by exists d.
Qed.

Lemma forward_only_caches_witness :
  ∃ s' tr,
    forward sample.world (sample.message x01) sample.node = Ok (None, s', tr) ∧
    (accepted tr ≠ [] →
     ∃ d, forward_digest sample.world (sample.message x01) = Ok d ∧
          s' = set_fwdCache sample.node
                 (<[d := {| expiresAt := now sample.world + cacheTTL sample.node;
                            receivedFrom :=
                              match fwdCache sample.node !! d with
                              | Some entry => receivedFrom entry
                              | None => []
                              end |}]> (fwdCache sample.node))).
Proof.
  assert (H : ∃ s' tr, forward sample.world (sample.message x01) sample.node
                       = Ok (None, s', tr))
    by (eexists _, _; vm_compute; reflexivity).
  destruct H as (s' & tr & H). exists s', tr. split; [exact H|].
  apply (forward_only_caches _ _ _ _ _ _ H).
Defined.

(** X12. What [forward] does to its collaborators: it stores the serialized
    message once, and every other step is a send of that very message to
    a live connection; the sends follow the order of the live peers
    nearest the padded destination first, and with one connection per
    address no peer is sent to twice. *)
Theorem forward_sends_to_live (w : World) (msg : PssMsg) (s s' : Pss)
    (r : option error) (tr : list event) :
  forward w msg s = Ok (r, s', tr) →
  ∃ to evs,
    padded (To msg) = Ok to ∧
    tr = EvStore (serialize w msg) :: evs ∧
    Forall (sends_msg msg) evs ∧
    sends tr `sublist_of`
      (entry_Address <$> pot.neighbours entry_Address to (conns (Overlay s))) ∧
    (∀ a, a ∈ sends tr → a ∈ pot.keys entry_Address (conns (Overlay s))) ∧
    (NoDup (pot.keys entry_Address (conns (Overlay s))) → NoDup (sends tr)).
Proof.
  intros Hf.
  destruct (forward_effects _ _ _ _ _ _ Hf)
    as (to & d & evs & Hpad & _ & _ & -> & Hall & Hsub & _).
  exists to, evs. split; [done|]. split; [done|]. split; [done|].
  change (sends (EvStore (serialize w msg) :: evs)) with (sends evs).
  split; [done|]. split.
  - intros a Ha. unfold pot.keys.
    rewrite <- (neighbours_perm entry_Address to (conns (Overlay s))).
    by apply (sublist_subseteq _ _ Hsub).
  - intros Hnd. eapply sublist_NoDup; [|exact Hsub].
    unfold pot.keys in Hnd.
    by rewrite (neighbours_perm entry_Address to (conns (Overlay s))).
Qed.

Lemma forward_sends_to_live_witness :
  ∃ s' tr,
    forward sample.world_peer_down (sample.message x01) sample.node
    = Ok (None, s', tr) ∧
    NoDup (sends tr).
Proof.
  assert (H : ∃ s' tr,
            forward sample.world_peer_down (sample.message x01) sample.node
            = Ok (None, s', tr))
    by (eexists _, _; vm_compute; reflexivity).
  destruct H as (s' & tr & H). exists s', tr. split; [exact H|].
  destruct (forward_sends_to_live _ _ _ _ _ _ H)
    as (to & evs & _ & _ & _ & _ & _ & Hnd).
  apply Hnd, sample_live_table.
Defined.

(** ** isSelfRecipient *)

(** X13. The node is the recipient of a message exactly when it is a possible
    recipient and the destination has the length of the base address: a
    partial address never makes the node the recipient. *)
Theorem isSelfRecipient_iff (s : Pss) (msg : PssMsg) :
  isSelfRecipient s msg = true ↔
  isSelfPossibleRecipient s msg = Ok true ∧
  length (To msg) = length (base (Overlay s)).
Proof.
  unfold isSelfRecipient, isSelfPossibleRecipient, slice_to, bytes_Equal.
  split.
  - intros Heq%bool_decide_eq_true. rewrite Heq.
    case_decide; [|lia]. rewrite firstn_all.
    by rewrite bool_decide_eq_true_2.
  - intros [Hp Hlen]. apply bool_decide_eq_true.
    case_decide; [|done]. injection Hp as Hp%bool_decide_eq_true.
    by rewrite Hlen, firstn_all in Hp.
Qed.

(** ** handlePssMsg, continued *)

(** X14. An error from [handlePssMsg] is a rejection: nothing was stored,
    processed or sent and the state is as before. The error is either
    that of a payload which is no [PssMsg], or "Invalid TTL" for a
    message of which the node is no possible recipient and whose expiry
    lies more than [msgTTL] ahead of the clock. *)
Theorem handlePssMsg_error_rejects (w : World) (msg : wiremsg) (s s' : Pss)
    (e : error) (tr : list event) :
  handlePssMsg w msg s = Ok (Some e, s', tr) →
  s' = s ∧ tr = [] ∧
  match msg with
  | OtherMsg ty => e = ErrInvalidMessageType ty
  | IsPssMsg m =>
      e = ErrInvalidTTL ∧ isSelfPossibleRecipient s m = Ok false ∧
      ¬ time_Unix (Expire m) < now w ∧
      now w + msgTTL s < time_Unix (Expire m)
  end.
Proof.
  destruct msg as [m|ty]; simpl.
  2: { by intros [= <- <- <-]. }
  unfold mbind at 1, M_bind at 1, get.
  destruct (isSelfPossibleRecipient s m) as [[|]|] eqn:Hrec; [| |done].
  - unfold process, mbind, M_bind, emit, ret, mret, M_ret.
    destruct (negb (processed w m)); [|done].
    destruct (forward w m s) as [[[r s1] tr1]|] eqn:Hf; [|done].
    destruct (forward_effects _ _ _ _ _ _ Hf) as (_ & _ & _ & _ & _ & -> & _).
    done.
  - destruct (time_Unix (Expire m) <? now w) eqn:Hexp; [done|].
    destruct (now w + msgTTL s <? time_Unix (Expire m)) eqn:Httl.
    + intros [= <- <- <-]. repeat split; try done; lia.
    + destruct (forward w m s) as [[[r s1] tr1]|] eqn:Hf; [|done].
      destruct (forward_effects _ _ _ _ _ _ Hf)
        as (_ & _ & _ & _ & _ & -> & _).
      done.
Qed.

Lemma handlePssMsg_error_rejects_witness :
  let far := {| To := sample.a32 xff; Expire := 4600; Payload := [x07] |} in
  handlePssMsg sample.world (IsPssMsg far) sample.node
  = Ok (Some ErrInvalidTTL, sample.node, []) ∧
  isSelfPossibleRecipient sample.node far = Ok false ∧
  now sample.world + msgTTL sample.node < time_Unix (Expire far).
Proof.
  simpl.
  assert (H : handlePssMsg sample.world
                (IsPssMsg {| To := sample.a32 xff; Expire := 4600;
                             Payload := [x07] |}) sample.node
              = Ok (Some ErrInvalidTTL, sample.node, []))
    by (vm_compute; reflexivity).
  split; [exact H|].
  destruct (handlePssMsg_error_rejects _ _ _ _ _ _ H)
    as (_ & _ & _ & Hr & _ & Hlate).
  by split.
Defined.

(** ** send, continued *)

(** X15. What [send] does. When it returns an error the state is as before
    and nothing was stored or sent: at most the random padding was read
    and whisper was asked to build and wrap the message. When it returns
    [nil] the key is not empty, whisper has wrapped the payload with
    this key into an envelope, and that envelope, addressed to [to] and
    expiring [msgTTL] from now, was handed to [forward]. *)
Theorem send_outcomes (w : World) (to : list byte) (topic : Topic)
    (msg : list byte) (asymmetric : bool) (key : list byte) (s s' : Pss)
    (r : option error) (tr : list event) :
  send w to topic msg asymmetric key s = Ok (r, s', tr) →
  match r with
  | Some e =>
      s' = s ∧
      tr `prefix_of` [EvRandRead (paddingByteSize s); EvNewSentMessage; EvWrap]
  | None =>
      key ≠ [] ∧
      ∃ padding envelope tr',
        Wrap w {| mpTopic := topic; mpPayload := msg; mpPadding := padding;
                  mpDst := if asymmetric then Some key else None;
                  mpKeySym := if asymmetric then None else Some key |}
        = Some envelope ∧
        tr = [EvRandRead (paddingByteSize s); EvNewSentMessage; EvWrap] ++ tr' ∧
        forward w (outgoing w s to envelope) s = Ok (None, s', tr')
  end.
Proof.
  unfold send, bytes_Equal. case_bool_decide as Hkey.
  { intros [= <- <- <-]. split; [done|]. apply prefix_nil. }
  unfold mbind at 1, M_bind at 1, get.
  unfold mbind at 1, M_bind at 1, emit.
  destruct (randRead w (paddingByteSize s)) as [[padding c] err].
  destruct err as [e|].
  { intros [= <- <- <-]. split; [done|]. by exists [EvNewSentMessage; EvWrap]. }
  destruct (c <? paddingByteSize s).
  { intros [= <- <- <-]. split; [done|]. by exists [EvNewSentMessage; EvWrap]. }
  unfold mbind at 1, M_bind at 1.
  destruct (negb (NewSentMessage w _)).
  { intros [= <- <- <-]. split; [done|]. by exists [EvWrap]. }
  unfold mbind at 1, M_bind at 1.
  destruct (Wrap w _) as [envelope|] eqn:Hwrap.
  2: { intros [= <- <- <-]. split; [done|]. by exists []. }
  fold (outgoing w s to envelope).
  destruct (forward w (outgoing w s to envelope) s) as [[[r1 s1] tr1]|] eqn:Hf;
    [|done].
  destruct (forward_effects _ _ _ _ _ _ Hf) as (_ & _ & _ & _ & _ & Hr & _).
  subst r1. intros [= <- <- <-]. split; [done|].
  by exists padding, envelope, tr1.
Qed.

Lemma send_outcomes_witness :
  (∃ tr, send sample.world_wrap_down (sample.a32 xff) sample.topic [x07] true
           [x04] sample.node
         = Ok (Some ErrWhisperEncryption, sample.node, tr) ∧
         tr `prefix_of` [EvRandRead (paddingByteSize sample.node);
                         EvNewSentMessage; EvWrap]) ∧
  ∃ s' tr, send sample.world (sample.a32 xff) sample.topic [x07] true [x04]
             sample.node
           = Ok (None, s', tr) ∧
           ∃ tr', tr = [EvRandRead (paddingByteSize sample.node);
                        EvNewSentMessage; EvWrap] ++ tr' ∧
                  forward sample.world
                    (outgoing sample.world sample.node (sample.a32 xff) [x07])
                    sample.node
                  = Ok (None, s', tr').
Proof.
  split.
  - assert (H : ∃ tr, send sample.world_wrap_down (sample.a32 xff)
                        sample.topic [x07] true [x04] sample.node
                      = Ok (Some ErrWhisperEncryption, sample.node, tr))
      by (eexists; vm_compute; reflexivity).
    destruct H as (tr & H). exists tr. split; [exact H|].
    apply (send_outcomes _ _ _ _ _ _ _ _ _ _ H).
  - assert (H : ∃ s' tr, send sample.world (sample.a32 xff) sample.topic
                           [x07] true [x04] sample.node
                         = Ok (None, s', tr))
      by (eexists _, _; vm_compute; reflexivity).
    destruct H as (s' & tr & H). exists s', tr. split; [exact H|].
    destruct (send_outcomes _ _ _ _ _ _ _ _ _ _ H)
      as (_ & padding & envelope & tr' & Hw & Htr & Hf).
    injection Hw as <-. by exists tr'.
Defined.

(** ** From send to handlePssMsg *)

(** X16. The expiry that [send] stamps is honoured along the route: a node
    that is no possible recipient and whose [msgTTL] is not smaller than
    the sender's forwards the message whenever it arrives after it was
    sent and a second or more before [msgTTL] has passed; it neither
    drops it as expired nor rejects its TTL. The expiry must fit the 32
    bits of the field. *)
Theorem sent_message_is_forwarded (w w' : World) (s s' : Pss)
    (to : list byte) (envelope : Envelope) :
  0 ≤ Time_Unix (now w + msgTTL s) < 2 ^ 32 →
  now w ≤ now w' →
  now w' + 1000000000 ≤ now w + msgTTL s →
  msgTTL s ≤ msgTTL s' →
  isSelfPossibleRecipient s' (outgoing w s to envelope) = Ok false →
  handlePssMsg w' (IsPssMsg (outgoing w s to envelope)) s'
  = forward w' (outgoing w s to envelope) s'.
Proof.
  intros Hfit Hafter Hbefore Httl Hrec.
  unfold handlePssMsg. unfold mbind at 1, M_bind at 1, get. rewrite Hrec.
  cbn [outgoing Expire].
  assert (Hexp : now w + msgTTL s - 1000000000
                 < time_Unix (uint32 (Time_Unix (now w + msgTTL s)))
                 ≤ now w + msgTTL s).
  { unfold uint32. rewrite Z.mod_small by done.
    unfold time_Unix, Time_Unix.
    pose proof (Z.div_mod (now w + msgTTL s) 1000000000 ltac:(lia)).
    pose proof (Z.mod_pos_bound (now w + msgTTL s) 1000000000 ltac:(lia)).
    lia. }
  rewrite (proj2 (Z.ltb_ge _ _)) by lia.
  rewrite (proj2 (Z.ltb_ge _ _)) by lia.
  destruct (forward w' _ s') as [[[r s1] tr1]|]; [|done].
  by rewrite app_nil_l.
Qed.

Lemma sent_message_is_forwarded_witness :
  handlePssMsg (sample.with_now sample.world (time_Unix 1003))
    (IsPssMsg (outgoing sample.world sample.node (sample.a32 xff) [x07]))
    sample.node
  = forward (sample.with_now sample.world (time_Unix 1003))
      (outgoing sample.world sample.node (sample.a32 xff) [x07]) sample.node.
Proof.
  apply (sent_message_is_forwarded sample.world
           (sample.with_now sample.world (time_Unix 1003))
           sample.node sample.node (sample.a32 xff) [x07]).
  - by vm_compute.
  - by vm_compute.
  - by vm_compute.
  - reflexivity.
  - reflexivity.
Defined.

(** * Keys and peers *)

(** ** The cache of decryption keys *)

Lemma window_cap (ks : KeyStore) (i : Z) :
  symKeyDecryptCacheCursor ks - Z.of_nat (length (symKeyDecryptCache ks)) < i
  ≤ symKeyDecryptCacheCursor ks →
  0 < Z.of_nat (length (symKeyDecryptCache ks)).
Proof. lia. Qed.

Lemma read_slot_window (ks : KeyStore) (i : Z) (id : string) :
  0 < i → slot ks i = Some (Some id) →
  read_slot (symKeyDecryptCache ks) i = Ok id.
Proof.
  intros Hi Hs. unfold read_slot, slot in *.
  destruct (Z.eqb_spec (Z.of_nat (length (symKeyDecryptCache ks))) 0)
    as [Hz|Hnz].
  { rewrite Hz in Hs. apply lookup_lt_Some in Hs. lia. }
  rewrite Z.rem_mod_nonneg by lia.
  pose proof (Z.mod_pos_bound i (Z.of_nat (length (symKeyDecryptCache ks)))
                ltac:(lia)).
  rewrite (proj2 (Z.ltb_ge _ _)) by lia. by rewrite Hs.
Qed.

Lemma store_slot_top (slots : list (option string)) (cursor : Z)
    (id : option string) :
  0 < Z.of_nat (length slots) → 0 ≤ cursor →
  store_slot slots cursor id
  = Ok (<[Z.to_nat (cursor `mod` Z.of_nat (length slots)) := id]> slots).
Proof.
  intros Hcap Hc. unfold store_slot.
  rewrite (proj2 (Z.eqb_neq _ _)) by lia.
  rewrite Z.rem_mod_nonneg by lia.
  pose proof (Z.mod_pos_bound cursor (Z.of_nat (length slots)) ltac:(lia)).
  rewrite (proj2 (Z.ltb_ge _ _)) by lia.
  by rewrite (proj2 (Z.leb_gt _ _)) by lia.
Qed.

(** Two indices of one window read different slots. *)
Lemma slot_index_ne (cap i j : Z) :
  0 < cap → 0 ≤ i → i < j → j - i < cap →
  Z.to_nat (i `mod` cap) ≠ Z.to_nat (j `mod` cap).
Proof.
  intros Hcap Hi Hij Hd Heq.
  pose proof (Z.mod_pos_bound i cap ltac:(lia)).
  pose proof (Z.mod_pos_bound j cap ltac:(lia)).
  assert (Hm : i `mod` cap = j `mod` cap) by lia.
  pose proof (Z.div_mod i cap ltac:(lia)).
  pose proof (Z.div_mod j cap ltac:(lia)).
  assert (Hq : cap * (j `div` cap - i `div` cap) = j - i) by lia.
  assert (j `div` cap - i `div` cap = 0 ∨ 1 ≤ j `div` cap - i `div` cap
          ∨ j `div` cap - i `div` cap ≤ -1) as [Hz|[Hp|Hn]] by lia.
  - rewrite Hz in Hq. lia.
  - nia.
  - nia.
Qed.

Lemma promoted_length (ks : KeyStore) (id : string) :
  length (symKeyDecryptCache (promoted ks id))
  = length (symKeyDecryptCache ks).
Proof. unfold promoted. cbn [symKeyDecryptCache]. by rewrite length_insert. Qed.

Lemma slot_promoted_top (ks : KeyStore) (id : string) :
  0 < Z.of_nat (length (symKeyDecryptCache ks)) →
  0 ≤ symKeyDecryptCacheCursor ks →
  slot (promoted ks id) (symKeyDecryptCacheCursor ks + 1) = Some (Some id).
Proof.
  intros Hcap Hc. unfold slot, promoted. cbn [symKeyDecryptCache].
  rewrite length_insert. apply list_lookup_insert_eq.
  pose proof (Z.mod_pos_bound (symKeyDecryptCacheCursor ks + 1)
                (Z.of_nat (length (symKeyDecryptCache ks))) ltac:(lia)).
  lia.
Qed.

Lemma slot_promoted_below (ks : KeyStore) (id : string) (i : Z) :
  0 < i ≤ symKeyDecryptCacheCursor ks →
  symKeyDecryptCacheCursor ks + 1
  - Z.of_nat (length (symKeyDecryptCache ks)) < i →
  slot (promoted ks id) i = slot ks i.
Proof.
  intros Hi Hw. unfold slot, promoted. cbn [symKeyDecryptCache].
  rewrite length_insert. apply list_lookup_insert_ne.
  intros Heq. symmetry in Heq. revert Heq.
  apply slot_index_ne; lia.
Qed.

Lemma promoted_cache_ok (ks : KeyStore) (id : string) :
  cache_ok ks →
  0 < Z.of_nat (length (symKeyDecryptCache ks)) →
  symKeyDecryptCacheCursor ks + 1 < maxInt64 →
  cache_ok (promoted ks id).
Proof.
  intros [Hc Hw] Hcap Hmax. split.
  { unfold promoted. cbn [symKeyDecryptCacheCursor]. lia. }
  intros i Hi Hpos.
  assert (Hlen : length (symKeyDecryptCache (promoted ks id))
                 = length (symKeyDecryptCache ks)).
  { unfold promoted. cbn [symKeyDecryptCache]. by rewrite length_insert. }
  rewrite Hlen in Hi.
  change (symKeyDecryptCacheCursor (promoted ks id))
    with (symKeyDecryptCacheCursor ks + 1) in Hi.
  destruct (decide (i = symKeyDecryptCacheCursor ks + 1)) as [->|Hne].
  - exists id. by apply slot_promoted_top; lia.
  - rewrite slot_promoted_below by lia. apply Hw; lia.
Qed.

(** X17. The cache that [NewPss] makes is well formed whatever its capacity.
    With a capacity of 0 [addSymmetricKeyToPool] panics when told to
    add the key to the cache. Otherwise it binds the key to the topic
    with the address hint, leaves the other bindings alone and, when
    told so, puts the key on top of the cache, which stays well
    formed. *)
Theorem addSymmetricKeyToPool_spec (keyid : string) (topic : Topic)
    (address : option (list byte)) (addtocache : bool) (ks : KeyStore) :
  cache_ok ks →
  symKeyDecryptCacheCursor ks + 1 < maxInt64 →
  (∀ s capacity, cache_ok (new_cache s capacity)) ∧
  (length (symKeyDecryptCache ks) = 0%nat →
   addSymmetricKeyToPool keyid topic address true ks = Panic) ∧
  (addtocache = true → length (symKeyDecryptCache ks) ≠ 0%nat → 
   ∃ ks', addSymmetricKeyToPool keyid topic address true ks = Ok ks' ∧
          symKeyDecryptCache ks' = symKeyDecryptCache (promoted ks keyid) ∧
          symKeyDecryptCacheCursor ks' = symKeyDecryptCacheCursor ks + 1 ∧
          in_window ks' keyid ∧ cache_ok ks') ∧
  (∃ ks', addSymmetricKeyToPool keyid topic address false ks = Ok ks' ∧
          symKeyDecryptCache ks' = symKeyDecryptCache ks ∧
          symKeyDecryptCacheCursor ks' = symKeyDecryptCacheCursor ks) ∧
  (∀ ks', addSymmetricKeyToPool keyid topic address addtocache ks = Ok ks' →
     pool_lookup (symKeyPool (node ks')) keyid topic = Some (newPeer address) ∧
     (∀ id t, (id, t) ≠ (keyid, topic) →
        pool_lookup (symKeyPool (node ks')) id t
        = pool_lookup (symKeyPool (node ks)) id t) ∧
     pubKeyPool (node ks') = pubKeyPool (node ks) ∧
     fwdCache (node ks') = fwdCache (node ks) ∧
     Overlay (node ks') = Overlay (node ks)).
Proof.
  intros Hok Hmax. pose proof Hok as [Hc Hw].
  assert (Hwrap : wrap64 (symKeyDecryptCacheCursor ks + 1)
                  = symKeyDecryptCacheCursor ks + 1).
  { apply wrap64_small. unfold minInt64, maxInt64 in *. lia. }
  split; [|split; [|split; [|split]]].
  - intros s capacity. split; [by vm_compute|].
    intros i [_ Hi] Hpos. simpl in Hi. lia.
  - intros H0. unfold addSymmetricKeyToPool, store_slot. by rewrite H0.
  - intros _ Hcap. unfold addSymmetricKeyToPool.
    rewrite Hwrap, store_slot_top by lia.
    eexists. split; [done|]. cbn [symKeyDecryptCache symKeyDecryptCacheCursor].
    split; [done|]. split; [done|].
    assert (Hpr : cache_ok (promoted ks keyid)) by (apply promoted_cache_ok; [done|lia|lia]).
    split.
    + exists (symKeyDecryptCacheCursor ks + 1).
      cbn [symKeyDecryptCache symKeyDecryptCacheCursor].
      rewrite length_insert. split; [lia|]. split; [lia|].
      apply (slot_promoted_top ks keyid); lia.
    + exact Hpr.
  - unfold addSymmetricKeyToPool. by eexists.
  - intros ks' Hadd.
    assert (Hnode : node ks'
                    = set_symKeyPool (node ks)
                        (bind_key (symKeyPool (node ks)) keyid topic
                           (newPeer address))).
    { unfold addSymmetricKeyToPool in Hadd. destruct addtocache.
      - destruct (store_slot _ _ _); [|done]. by injection Hadd as <-.
      - by injection Hadd as <-. }
    rewrite Hnode. cbn [set_symKeyPool symKeyPool pubKeyPool fwdCache Overlay].
    split; [|split; [|done]].
    + unfold pool_lookup, bind_key. rewrite lookup_insert_eq. simpl.
      by rewrite lookup_insert_eq.
    + intros id t Hne. unfold pool_lookup, bind_key.
      destruct (decide (id = keyid)) as [->|Hid].
      * rewrite lookup_insert_eq. simpl.
        rewrite lookup_insert_ne by congruence.
        by destruct (symKeyPool (node ks) !! keyid).
      * by rewrite lookup_insert_ne.
Qed.

Lemma sample_store_ok : cache_ok sample_store.
Proof.
  split; [by vm_compute|]. intros i Hi Hpos.
  assert (i = 1) as -> by (simpl in Hi; lia). by exists "k1"%string.
Qed.

Lemma addSymmetricKeyToPool_spec_witness :
  ∃ ks', addSymmetricKeyToPool "k2" sample.topic None true sample_store
         = Ok ks' ∧
         in_window ks' "k2" ∧ cache_ok ks'.
Proof.
  pose proof sample_store_ok as Hok.
  assert (Hmax : symKeyDecryptCacheCursor sample_store + 1 < maxInt64)
    by by vm_compute.
  destruct (addSymmetricKeyToPool_spec "k2" sample.topic None true
              sample_store Hok Hmax) as (_ & _ & Hadd & _).
  destruct Hadd as (ks' & Hks' & _ & _ & Hin & Hok'); [done|done|].
  by exists ks'.
Defined.

(** ** processSym *)

(** What an outcome of [processSym] says about the store it ran on. *)
Lemma processSym_from_spec (w : World) (wh : Whisper) (ks : KeyStore)
    (envelope : Envelope) (fuel : nat) (i : Z) :
  cache_ok ks →
  symKeyDecryptCacheCursor ks + 1 < maxInt64 →
  i ≤ symKeyDecryptCacheCursor ks →
  i - Z.max (symKeyDecryptCacheCursor ks
             - Z.of_nat (length (symKeyDecryptCache ks))) 0
  ≤ Z.of_nat fuel →
  (∀ j id', i < j ≤ symKeyDecryptCacheCursor ks →
            slot ks j = Some (Some id') → opens w wh envelope id' = None) →
  ∃ r, processSym_from fuel w wh ks envelope i = Some r ∧
       match r with
       | Panic =>
           ∃ i id recvmsg,
             first_opening w wh ks envelope i id recvmsg ∧
             Validate wh recvmsg = true ∧
             pool_lookup (symKeyPool (node ks)) id (envelope_Topic wh envelope)
             = None
       | Ok (ks', inl (recvmsg, id, from)) =>
           ∃ i psp,
             first_opening w wh ks envelope i id recvmsg ∧
             Validate wh recvmsg = true ∧
             pool_lookup (symKeyPool (node ks)) id (envelope_Topic wh envelope)
             = Some psp ∧
             from = address psp ∧ ks' = promoted ks id
       | Ok (ks', inr e) =>
           ks' = ks ∧
           ((e = ErrCorrupt ∧
             ∃ i id recvmsg, first_opening w wh ks envelope i id recvmsg ∧
                             Validate wh recvmsg = false) ∨
            (e = ErrCouldNotDecrypt ∧
             ∀ id, in_window ks id → opens w wh envelope id = None))
       end.
Proof.
  intros Hok Hmax. pose proof Hok as [Hc Hw].
  revert i. induction fuel as [|fuel IH]; intros i Hi Hfuel Habove.
  - cbn [processSym_from].
    destruct (_ && _) eqn:Hcond.
    { apply andb_prop in Hcond as [H1%Z.ltb_lt H2%Z.ltb_lt]. lia. }
    eexists. split; [done|]. split; [done|]. right. split; [done|].
    intros id (j & Hj & Hpos & Hs). apply (Habove j); [|done].
    apply andb_false_iff in Hcond as [H1%Z.ltb_ge|H1%Z.ltb_ge]; lia.
  - cbn [processSym_from].
    destruct (_ && _) eqn:Hcond.
    2: { eexists. split; [done|]. split; [done|]. right. split; [done|].
         intros id (j & Hj & Hpos & Hs). apply (Habove j); [|done].
         apply andb_false_iff in Hcond as [H1%Z.ltb_ge|H1%Z.ltb_ge]; lia. }
    apply andb_prop in Hcond as [H1%Z.ltb_lt H2%Z.ltb_lt].
    destruct (Hw i ltac:(lia) H2) as (id & Hslot).
    rewrite (read_slot_window ks i id H2 Hslot).
    assert (Hnext : opens w wh envelope id = None →
              ∀ j id', i - 1 < j ≤ symKeyDecryptCacheCursor ks →
                       slot ks j = Some (Some id') →
                       opens w wh envelope id' = None).
    { intros Hno j id' Hj Hs. destruct (decide (j = i)) as [->|Hne].
      - rewrite Hslot in Hs. by injection Hs as <-.
      - apply (Habove j); [lia|done]. }
    destruct (GetSymKey w id) as [symkey|] eqn:Hkey.
    2: { apply IH; [lia|lia|]. apply Hnext. unfold opens. by rewrite Hkey. }
    destruct (OpenSymmetric wh envelope symkey) as [recvmsg|] eqn:Hopen.
    2: { apply IH; [lia|lia|]. apply Hnext. unfold opens.
         rewrite Hkey. simpl. by rewrite Hopen. }
    assert (Hfirst : first_opening w wh ks envelope i id recvmsg).
    { split; [lia|]. split; [done|]. split; [done|]. split; [|done].
      unfold opens. rewrite Hkey. simpl. by rewrite Hopen. }
    destruct (Validate wh recvmsg) eqn:Hval; cbn [negb].
    2: { eexists. split; [done|]. split; [done|]. left. split; [done|].
         by exists i, id, recvmsg. }
    destruct (pool_lookup _ id _) as [psp|] eqn:Hpool.
    2: { eexists. split; [done|]. by exists i, id, recvmsg. }
    rewrite wrap64_small by (unfold minInt64, maxInt64 in *; lia).
    rewrite store_slot_top by lia.
    eexists. split; [done|]. by exists i, psp.
Qed.

(** X18. [processSym] ends, and it panics only on a key that is not bound to
    the topic of the envelope. For a well-formed cache its outcome is
    decided by the first key, from the most recently used one down,
    that opens the envelope: without such a key the message could not
    be decrypted; a message that does not validate is corrupt, and no
    other key is tried; a key that is not bound to the topic of the
    envelope makes it panic; otherwise the message, the key id and the
    address hint of the binding are returned and the key is put on top
    of the cache. An error leaves the store as it was. *)
Theorem processSym_outcomes (w : World) (wh : Whisper) (ks : KeyStore)
    (envelope : Envelope) :
  cache_ok ks →
  symKeyDecryptCacheCursor ks + 1 < maxInt64 →
  ∃ r, processSym w wh ks envelope = Some r ∧
       match r with
       | Panic =>
           ∃ i id recvmsg,
             first_opening w wh ks envelope i id recvmsg ∧
             Validate wh recvmsg = true ∧
             pool_lookup (symKeyPool (node ks)) id (envelope_Topic wh envelope)
             = None
       | Ok (ks', inl (recvmsg, id, from)) =>
           (∃ i psp,
             first_opening w wh ks envelope i id recvmsg ∧
             Validate wh recvmsg = true ∧
             pool_lookup (symKeyPool (node ks)) id (envelope_Topic wh envelope)
             = Some psp ∧
             from = address psp) ∧
           ks' = promoted ks id ∧ cache_ok ks' ∧ in_window ks' id
       | Ok (ks', inr e) =>
           ks' = ks ∧
           ((e = ErrCorrupt ∧
             ∃ i id recvmsg, first_opening w wh ks envelope i id recvmsg ∧
                             Validate wh recvmsg = false) ∨
            (e = ErrCouldNotDecrypt ∧
             ∀ id, in_window ks id → opens w wh envelope id = None))
       end.
Proof.
  intros Hok Hmax.
  destruct (processSym_from_spec w wh ks envelope
              (length (symKeyDecryptCache ks)) (symKeyDecryptCacheCursor ks)
              Hok Hmax) as (r & Hr & Hspec); [lia|lia|intros; lia|].
  exists r. split; [exact Hr|].
  destruct r as [[ks' [[[recvmsg id] from]|e]]|]; [|done|done].
  destruct Hspec as (i & psp & Hfirst & Hval & Hpool & -> & ->).
  split; [by exists i, psp|]. split; [done|].
  pose proof Hfirst as (Hi & Hpos & _).
  destruct Hok as [Hc Hw].
  split.
  - apply promoted_cache_ok; [by split|lia|done].
  - exists (symKeyDecryptCacheCursor ks + 1). rewrite promoted_length.
    change (symKeyDecryptCacheCursor (promoted ks id))
      with (symKeyDecryptCacheCursor ks + 1).
    split; [lia|]. split; [lia|].
    apply slot_promoted_top; lia.
Qed.

Lemma processSym_outcomes_witness :
  (∃ ks', processSym sample_keyworld sample_whisper sample_store [x01; x07]
          = Some (Ok (ks', inl ([x07], "k1"%string, Some (sample.a32 xff)))) ∧
          ks' = promoted sample_store "k1" ∧ cache_ok ks') ∧
  processSym sample_keyworld sample_whisper sample_store [x02; x07]
  = Some (Ok (sample_store, inr ErrCouldNotDecrypt)) ∧
  ∀ id, in_window sample_store id →
        opens sample_keyworld sample_whisper [x02; x07] id = None.
Proof.
  pose proof sample_store_ok as Hok.
  assert (Hmax : symKeyDecryptCacheCursor sample_store + 1 < maxInt64)
    by by vm_compute.
  split.
  - destruct (processSym_outcomes sample_keyworld sample_whisper sample_store
                [x01; x07] Hok Hmax) as (r & Hr & Hspec).
    assert (Hrun : ∃ ks', processSym sample_keyworld sample_whisper
                            sample_store [x01; x07]
                          = Some (Ok (ks', inl ([x07], "k1"%string,
                                                Some (sample.a32 xff)))))
      by (eexists; vm_compute; reflexivity).
    destruct Hrun as (ks' & Hrun). exists ks'. split; [exact Hrun|].
    rewrite Hrun in Hr. injection Hr as <-.
    by destruct Hspec as (_ & ? & ? & _).
  - destruct (processSym_outcomes sample_keyworld sample_whisper sample_store
                [x02; x07] Hok Hmax) as (r & Hr & Hspec).
    assert (Hrun : processSym sample_keyworld sample_whisper sample_store
                     [x02; x07]
                   = Some (Ok (sample_store, inr ErrCouldNotDecrypt)))
      by (vm_compute; reflexivity).
    split; [exact Hrun|].
    rewrite Hrun in Hr. injection Hr as <-.
    destruct Hspec as (_ & [[? _]|[_ Hno]]); [done|exact Hno].
Defined.

(** X19. The key that decrypted a message is the first one tried for the
    next: run again on the same envelope, [processSym] returns the same
    message, key id and address hint. *)
Theorem processSym_again (w : World) (wh : Whisper) (ks ks' : KeyStore)
    (envelope : Envelope) (recvmsg : list byte) (id : string)
    (from : option (list byte)) :
  cache_ok ks →
  symKeyDecryptCacheCursor ks + 2 < maxInt64 →
  processSym w wh ks envelope = Some (Ok (ks', inl (recvmsg, id, from))) →
  first_opening w wh ks' envelope (symKeyDecryptCacheCursor ks') id recvmsg ∧
  processSym w wh ks' envelope
  = Some (Ok (promoted ks' id, inl (recvmsg, id, from))).
Proof.
  intros Hok Hmax Hrun.
  destruct (processSym_from_spec w wh ks envelope
              (length (symKeyDecryptCache ks)) (symKeyDecryptCacheCursor ks)
              Hok ltac:(lia)) as (r & Hr & Hspec); [lia|lia|intros; lia|].
  unfold processSym in Hrun. rewrite Hrun in Hr. injection Hr as <-.
  destruct Hspec as (i & psp & Hfirst & Hval & Hpool & -> & ->).
  destruct Hfirst as (Hi & Hpos & Hslot & Hopen & Habove).
  pose proof Hok as [Hc Hw].
  assert (Hcap : 0 < Z.of_nat (length (symKeyDecryptCache ks))) by lia.
  assert (Hok' : cache_ok (promoted ks id))
    by (apply promoted_cache_ok; [done|lia|lia]).
  assert (Htop : slot (promoted ks id) (symKeyDecryptCacheCursor ks + 1)
                 = Some (Some id)) by (apply slot_promoted_top; lia).
  assert (Hfirst' : first_opening w wh (promoted ks id) envelope
                      (symKeyDecryptCacheCursor (promoted ks id)) id recvmsg).
  { unfold first_opening. cbv zeta. rewrite promoted_length.
    change (symKeyDecryptCacheCursor (promoted ks id))
      with (symKeyDecryptCacheCursor ks + 1).
    split; [lia|]. split; [lia|]. split; [done|]. split; [done|].
    intros j id' Hj. lia. }
  split; [exact Hfirst'|].
  destruct (processSym_from_spec w wh (promoted ks id) envelope
              (length (symKeyDecryptCache (promoted ks id)))
              (symKeyDecryptCacheCursor (promoted ks id))
              Hok') as (r & Hr & Hspec).
  { change (symKeyDecryptCacheCursor (promoted ks id))
      with (symKeyDecryptCacheCursor ks + 1). lia. }
  { lia. }
  { lia. }
  { intros; lia. }
  unfold processSym. rewrite Hr. f_equal.
  assert (Huniq : ∀ i' id' recvmsg',
            first_opening w wh (promoted ks id) envelope i' id' recvmsg' →
            id' = id ∧ recvmsg' = recvmsg).
  { intros i' id' recvmsg' (Hi' & Hpos' & Hslot' & Hopen' & Habove').
    change (symKeyDecryptCacheCursor (promoted ks id))
      with (symKeyDecryptCacheCursor ks + 1) in Hi', Habove'.
    destruct (decide (i' = symKeyDecryptCacheCursor ks + 1)) as [->|Hne].
    - rewrite Htop in Hslot'. injection Hslot' as <-.
      rewrite Hopen in Hopen'. by injection Hopen' as <-.
    - rewrite (Habove' (symKeyDecryptCacheCursor ks + 1) id) in Hopen;
        [done|lia|done]. }
  destruct r as [[ks'' [[[recvmsg' id'] from']|e]]|].
  - destruct Hspec as (i' & psp' & Hf' & _ & Hpool' & -> & ->).
    destruct (Huniq _ _ _ Hf') as [-> ->].
    change (node (promoted ks id)) with (node ks) in Hpool'.
    rewrite Hpool in Hpool'. by injection Hpool' as <-.
  - destruct Hspec as (_ & [[_ (i' & id' & recvmsg' & Hf' & Hval')]|[_ Hno]]).
    + destruct (Huniq _ _ _ Hf') as [-> ->]. congruence.
    + rewrite (Hno id) in Hopen; [done|].
      exists (symKeyDecryptCacheCursor ks + 1). rewrite promoted_length.
      change (symKeyDecryptCacheCursor (promoted ks id))
        with (symKeyDecryptCacheCursor ks + 1).
      split; [lia|]. split; [lia|done].
  - destruct Hspec as (i' & id' & recvmsg' & Hf' & _ & Hpool').
    destruct (Huniq _ _ _ Hf') as [-> ->].
    change (node (promoted ks id)) with (node ks) in Hpool'. congruence.
Qed.

Lemma processSym_again_witness :
  ∃ ks', processSym sample_keyworld sample_whisper sample_store [x01; x07]
         = Some (Ok (ks', inl ([x07], "k1"%string, Some (sample.a32 xff)))) ∧
         processSym sample_keyworld sample_whisper ks' [x01; x07]
         = Some (Ok (promoted ks' "k1",
                     inl ([x07], "k1"%string, Some (sample.a32 xff)))).
Proof.
  pose proof sample_store_ok as Hok.
  assert (Hmax : symKeyDecryptCacheCursor sample_store + 2 < maxInt64)
    by by vm_compute.
  assert (Hrun : ∃ ks', processSym sample_keyworld sample_whisper
                          sample_store [x01; x07]
                        = Some (Ok (ks', inl ([x07], "k1"%string,
                                              Some (sample.a32 xff)))))
    by (eexists; vm_compute; reflexivity).
  destruct Hrun as (ks' & Hrun). exists ks'. split; [exact Hrun|].
  apply (processSym_again _ _ _ _ _ _ _ _ Hok Hmax Hrun).
Defined.

(** ** cleanKeys *)

Lemma cache_match_spec (ks : KeyStore) (keyid : string) (fuel : nat) (i : Z)
    (found : bool) :
  cache_ok ks →
  i ≤ symKeyDecryptCacheCursor ks →
  i - Z.max (symKeyDecryptCacheCursor ks
             - Z.of_nat (length (symKeyDecryptCache ks))) 0
  ≤ Z.of_nat fuel →
  ∃ b, cache_match fuel ks keyid i found = Some (Ok b) ∧
       (b = true ↔
        found = true ∨
        ∃ j, (symKeyDecryptCacheCursor ks
              - Z.of_nat (length (symKeyDecryptCache ks)) < j ≤ i) ∧
             0 < j ∧ slot ks j = Some (Some keyid)).
Proof.
  intros [Hc Hw]. revert i found.
  induction fuel as [|fuel IH]; intros i found Hi Hfuel.
  - cbn [cache_match]. destruct (_ && _) eqn:Hcond.
    { apply andb_prop in Hcond as [H1%Z.ltb_lt H2%Z.ltb_lt]. lia. }
    exists found. split; [done|]. split; [by left|].
    intros [?|(j & Hj & Hpos & _)]; [done|].
    apply andb_false_iff in Hcond as [H1%Z.ltb_ge|H1%Z.ltb_ge]; lia.
  - cbn [cache_match]. destruct (_ && _) eqn:Hcond.
    2: { exists found. split; [done|]. split; [by left|].
         intros [?|(j & Hj & Hpos & _)]; [done|].
         apply andb_false_iff in Hcond as [H1%Z.ltb_ge|H1%Z.ltb_ge]; lia. }
    apply andb_prop in Hcond as [H1%Z.ltb_lt H2%Z.ltb_lt].
    destruct (Hw i ltac:(lia) H2) as (id & Hslot).
    rewrite (read_slot_window ks i id H2 Hslot).
    destruct (IH (i - 1) (if bool_decide (id = keyid) then true else found))
      as (b & Hb & Hiff); [lia|lia|].
    exists b. split; [done|]. rewrite Hiff. split.
    + intros [Hf|(j & Hj & Hpos & Hs)].
      * case_bool_decide as Hid; [|by left].
        right. exists i. subst id. split; [lia|done].
      * right. exists j. split; [lia|done].
    + intros [Hf|(j & Hj & Hpos & Hs)].
      * left. by case_bool_decide.
      * destruct (decide (j = i)) as [->|Hne].
        -- left. rewrite Hslot in Hs. injection Hs as ->.
           by rewrite bool_decide_eq_true_2.
        -- right. exists j. split; [lia|done].
Qed.

Lemma is_cached_spec (ks : KeyStore) (keyid : string) :
  cache_ok ks →
  in_cache ks keyid = Some (Ok (is_cached ks keyid)) ∧
  (is_cached ks keyid = true ↔ in_window ks keyid).
Proof.
  intros Hok.
  destruct (cache_match_spec ks keyid (length (symKeyDecryptCache ks))
              (symKeyDecryptCacheCursor ks) false Hok)
    as (b & Hb & Hiff); [lia|lia|].
  unfold is_cached, in_cache. rewrite Hb. split; [done|].
  rewrite Hiff. unfold in_window. split.
  - intros [?|?]; done.
  - intros ?. by right.
Qed.

Section Sums.
Context {A : Type}.
Implicit Types (m : gmap string A) (f g : string → A → Z).

Lemma sum_insert f m (i : string) (x : A) :
  m !! i = None →
  map_fold (λ k t n, n + f k t) 0 (<[i := x]> m)
  = map_fold (λ k t n, n + f k t) 0 m + f i x.
Proof.
  intros Hi. rewrite map_fold_insert_L; [done| |done].
  intros. lia.
Qed.

Lemma sum_sub f g m :
  map_fold (λ k t n, n + f k t - g k t) 0 m
  = map_fold (λ k t n, n + f k t) 0 m - map_fold (λ k t n, n + g k t) 0 m.
Proof.
  induction m as [|i x m Hi IH] using map_ind.
  - by rewrite !map_fold_empty.
  - rewrite !sum_insert by done.
    rewrite (map_fold_insert_L (λ k t n, n + f k t - g k t));
      [|intros; lia|done].
    lia.
Qed.

Lemma sum_ext f g m :
  (∀ k t, m !! k = Some t → f k t = g k t) →
  map_fold (λ k t n, n + f k t) 0 m = map_fold (λ k t n, n + g k t) 0 m.
Proof.
  induction m as [|i x m Hi IH] using map_ind; intros Hfg.
  - by rewrite !map_fold_empty.
  - rewrite !sum_insert by done. rewrite IH, (Hfg i x).
    + done.
    + apply lookup_insert_eq.
    + intros k t Hk. apply Hfg. rewrite lookup_insert_ne; [done|].
      intros ->. congruence.
Qed.

Lemma sum_le f g m :
  (∀ k t, m !! k = Some t → f k t ≤ g k t) →
  map_fold (λ k t n, n + f k t) 0 m ≤ map_fold (λ k t n, n + g k t) 0 m.
Proof.
  induction m as [|i x m Hi IH] using map_ind; intros Hfg.
  - by rewrite !map_fold_empty.
  - rewrite !sum_insert by done.
    assert (f i x ≤ g i x) by (apply Hfg, lookup_insert_eq).
    assert (map_fold (λ k t n, n + f k t) 0 m
            ≤ map_fold (λ k t n, n + g k t) 0 m).
    { apply IH. intros k t Hk. apply Hfg. rewrite lookup_insert_ne; [done|].
      intros ->. congruence. }
    lia.
Qed.
End Sums.

Lemma bindings_imap (g : string → gmap Topic pssPeer → gmap Topic pssPeer)
    (pool : gmap string (gmap Topic pssPeer)) :
  bindings (map_imap (λ k t, Some (g k t)) pool)
  = map_fold (λ k t n, n + Z.of_nat (size (g k t))) 0 pool.
Proof.
  unfold bindings.
  induction pool as [|i x m Hi IH] using map_ind.
  - by rewrite map_imap_empty, !map_fold_empty.
  - rewrite (map_imap_insert_Some _ i x m (g i x)) by done.
    rewrite (sum_insert (λ _ t, Z.of_nat (size t)))
      by (by rewrite map_lookup_imap, Hi).
    rewrite (sum_insert (λ k t, Z.of_nat (size (g k t)))) by done.
    by rewrite IH.
Qed.

Lemma kept_size (c : bool) (topics : gmap Topic pssPeer) :
  (size (kept c topics) ≤ size topics)%nat.
Proof. apply map_subseteq_size, map_filter_subseteq. Qed.

Lemma kept_kept (c : bool) (topics : gmap Topic pssPeer) :
  kept c (kept c topics) = kept c topics.
Proof.
  unfold kept. apply map_filter_id.
  intros i x [_ H]%map_lookup_filter_Some. exact H.
Qed.

Lemma cache_match_ext (ks ks' : KeyStore) (keyid : string) (fuel : nat)
    (i : Z) (found : bool) :
  symKeyDecryptCache ks' = symKeyDecryptCache ks →
  symKeyDecryptCacheCursor ks' = symKeyDecryptCacheCursor ks →
  cache_match fuel ks' keyid i found = cache_match fuel ks keyid i found.
Proof.
  intros Hc Hcur. revert i found.
  induction fuel as [|fuel IH]; intros i found; cbn [cache_match];
    rewrite Hc, Hcur; [done|].
  destruct (_ && _); [|done]. destruct (read_slot _ _); [|done]. apply IH.
Qed.

Lemma is_cached_ext (ks ks' : KeyStore) (keyid : string) :
  symKeyDecryptCache ks' = symKeyDecryptCache ks →
  symKeyDecryptCacheCursor ks' = symKeyDecryptCacheCursor ks →
  is_cached ks' keyid = is_cached ks keyid.
Proof.
  intros Hc Hcur. unfold is_cached, in_cache.
  by rewrite (cache_match_ext ks ks') , Hc, Hcur.
Qed.

Lemma cache_ok_ext (ks ks' : KeyStore) :
  symKeyDecryptCache ks' = symKeyDecryptCache ks →
  symKeyDecryptCacheCursor ks' = symKeyDecryptCacheCursor ks →
  cache_ok ks → cache_ok ks'.
Proof.
  intros Hc Hcur. unfold cache_ok, slot. by rewrite Hc, Hcur.
Qed.

(** [cleanKeys] on a well-formed cache, in closed form. *)
Lemma cleanKeys_eq (ks : KeyStore) :
  cache_ok ks →
  let pool' :=
    map_imap (λ keyid topics, Some (kept (is_cached ks keyid) topics))
      (symKeyPool (node ks)) in
  cleanKeys ks
  = Some (Ok ({| node := set_symKeyPool (node ks) pool';
                 symKeyDecryptCache := symKeyDecryptCache ks;
                 symKeyDecryptCacheCursor := symKeyDecryptCacheCursor ks |},
              bindings (symKeyPool (node ks)) - bindings pool')).
Proof.
  intros Hok pool'. unfold cleanKeys.
  assert (Hcount :
            map_fold (λ keyid topics n,
                        n + Z.of_nat (size topics)
                        - Z.of_nat (size (kept (is_cached ks keyid) topics)))
              0 (symKeyPool (node ks))
            = bindings (symKeyPool (node ks)) - bindings pool').
  { unfold pool'. rewrite bindings_imap.
    apply (sum_sub (λ _ t, Z.of_nat (size t))
             (λ k t, Z.of_nat (size (kept (is_cached ks k) t)))). }
  case_bool_decide as Hun; cbn [negb].
  - destruct (is_cached_spec ks "" Hok) as [-> _]. by rewrite Hcount.
  - assert (Hsame : pool' = symKeyPool (node ks)).
    { unfold pool'. apply map_eq. intros id. rewrite map_lookup_imap.
      destruct (symKeyPool (node ks) !! id) as [topics|] eqn:Hid; [|done].
      simpl. f_equal. unfold kept. apply map_filter_id.
      intros topic psp Htopic. left. simpl.
      destruct (protected psp) eqn:Hp; [done|].
      destruct Hun. exists id, topics. split; [done|].
      by exists topic, psp. }
    rewrite Hsame, Z.sub_diag. do 3 f_equal.
    destruct ks as [[] ? ?]. done.
Qed.

(** X20. [cleanKeys] on a well-formed cache ends without a panic. It touches
    nothing but the pool of symmetric keys, where it keeps exactly the
    bindings that are protected or whose key id is in a slot of the
    cache that the decryption loop reads, and it returns the number of
    bindings it has deleted. *)
Theorem cleanKeys_spec (ks : KeyStore) :
  cache_ok ks →
  ∃ ks' count,
    cleanKeys ks = Some (Ok (ks', count)) ∧
    symKeyDecryptCache ks' = symKeyDecryptCache ks ∧
    symKeyDecryptCacheCursor ks' = symKeyDecryptCacheCursor ks ∧
    (∃ pool', node ks' = set_symKeyPool (node ks) pool') ∧
    (∀ id topic psp,
       pool_lookup (symKeyPool (node ks')) id topic = Some psp ↔
       pool_lookup (symKeyPool (node ks)) id topic = Some psp ∧
       (protected psp = true ∨ in_window ks id)) ∧
    count = bindings (symKeyPool (node ks)) - bindings (symKeyPool (node ks')) ∧
    0 ≤ count.
Proof.
  intros Hok. eexists _, _. split; [by apply cleanKeys_eq|].
  cbn [symKeyDecryptCache symKeyDecryptCacheCursor node set_symKeyPool
       symKeyPool].
  split; [done|]. split; [done|]. split; [by eexists|].
  split; [|split; [done|]].
  - intros id topic psp. unfold pool_lookup. rewrite map_lookup_imap.
    destruct (symKeyPool (node ks) !! id) as [topics|] eqn:Hid; simpl.
    2: { split; [done|by intros [? _]]. }
    unfold kept. rewrite map_lookup_filter_Some. simpl.
    destruct (is_cached_spec ks id Hok) as [_ Hiff]. by rewrite Hiff.
  - rewrite bindings_imap. unfold bindings.
    assert (map_fold (λ k t n, n + Z.of_nat (size (kept (is_cached ks k) t)))
              0 (symKeyPool (node ks))
            ≤ map_fold (λ _ t n, n + Z.of_nat (size t))
                0 (symKeyPool (node ks))); [|lia].
    apply (sum_le (λ k t, Z.of_nat (size (kept (is_cached ks k) t)))
             (λ _ t, Z.of_nat (size t))).
    intros k t _. pose proof (kept_size (is_cached ks k) t). lia.
Qed.

Lemma cleanKeys_spec_witness :
  ∃ ks' count,
    cleanKeys sample_store = Some (Ok (ks', count)) ∧
    (∀ id topic psp,
       pool_lookup (symKeyPool (node ks')) id topic = Some psp ↔
       pool_lookup (symKeyPool (node sample_store)) id topic = Some psp ∧
       (protected psp = true ∨ in_window sample_store id)) ∧
    0 ≤ count.
Proof.
  destruct (cleanKeys_spec sample_store sample_store_ok)
    as (ks' & count & Hrun & _ & _ & _ & Hpool & _ & Hcount).
  exists ks', count. split; [exact Hrun|]. split; [exact Hpool|exact Hcount].
Defined.

(** X21. [cleanKeys] right after [cleanKeys] finds nothing to delete and
    leaves the store as it is. *)
Theorem cleanKeys_twice (ks ks' : KeyStore) (count : Z) :
  cache_ok ks →
  cleanKeys ks = Some (Ok (ks', count)) →
  cleanKeys ks' = Some (Ok (ks', 0)).
Proof.
  intros Hok Hrun. rewrite cleanKeys_eq in Hrun by done.
  cbv zeta in Hrun. injection Hrun as <- _.
  rewrite cleanKeys_eq by (by apply (cache_ok_ext ks)).
  cbv zeta. cbn [symKeyDecryptCache symKeyDecryptCacheCursor node
                 set_symKeyPool symKeyPool].
  match goal with
  | |- context [map_imap ?f (map_imap ?g ?m)] =>
      assert (Hsame : map_imap f (map_imap g m) = map_imap g m)
  end.
  { apply map_eq. intros id. rewrite !map_lookup_imap.
    destruct (symKeyPool (node ks) !! id) as [topics|]; [|done].
    simpl. f_equal.
    rewrite (is_cached_ext ks) by done. apply kept_kept. }
  by rewrite Hsame, Z.sub_diag.
Qed.

Lemma cleanKeys_twice_witness :
  ∃ ks' count,
    cleanKeys sample_store = Some (Ok (ks', count)) ∧
    cleanKeys ks' = Some (Ok (ks', 0)).
Proof.
  eexists _, _. split; [apply (cleanKeys_eq sample_store sample_store_ok)|].
  apply (cleanKeys_twice sample_store _ _ sample_store_ok
           (cleanKeys_eq sample_store sample_store_ok)).
Defined.

(** ** Keys between addSymmetricKeyToPool, cleanKeys and SendSym *)

Lemma add_node (keyid : string) (topic : Topic) (address : option (list byte))
    (addtocache : bool) (ks ks' : KeyStore) :
  addSymmetricKeyToPool keyid topic address addtocache ks = Ok ks' →
  node ks'
  = set_symKeyPool (node ks)
      (bind_key (symKeyPool (node ks)) keyid topic (newPeer address)).
Proof.
  unfold addSymmetricKeyToPool. destruct addtocache.
  - destruct (store_slot _ _ _); [|done]. by intros [= <-].
  - by intros [= <-].
Qed.

Lemma cleaned_lookup (ks : KeyStore) (keyid : string) (topic : Topic) :
  pool_lookup
    (map_imap (λ keyid topics, Some (kept (is_cached ks keyid) topics))
       (symKeyPool (node ks))) keyid topic
  = match pool_lookup (symKeyPool (node ks)) keyid topic with
    | Some psp =>
        if protected psp || is_cached ks keyid then Some psp else None
    | None => None
    end.
Proof.
  unfold pool_lookup. rewrite map_lookup_imap.
  destruct (symKeyPool (node ks) !! keyid) as [topics|]; [|done]. simpl.
  unfold kept. destruct (topics !! topic) as [psp|] eqn:Ht.
  - destruct (protected psp) eqn:Hp; simpl.
    + apply map_lookup_filter_Some. split; [done|]. by left.
    + destruct (is_cached ks keyid) eqn:Hc.
      * apply map_lookup_filter_Some. split; [done|]. by right.
      * apply map_lookup_filter_None. right. intros psp' Ht'.
        rewrite Ht in Ht'. injection Ht' as <-. simpl.
        intros [?|?]; congruence.
  - apply map_lookup_filter_None. by left.
Qed.

Lemma bound_lookup (pool : gmap string (gmap Topic pssPeer)) (keyid : string)
    (topic : Topic) (psp : pssPeer) :
  pool_lookup (bind_key pool keyid topic psp) keyid topic = Some psp.
Proof.
  unfold pool_lookup, bind_key. rewrite lookup_insert_eq. simpl.
  by rewrite lookup_insert_eq.
Qed.

(** X22. A symmetric key that is set without adding it to the decryption
    cache, as for a key that is only used to send, does not outlive the
    next [cleanKeys] unless its id is in the cache already: its binding
    is deleted, and [SendSym] with it then fails, on the topic if not
    already on the key. *)
Theorem send_only_key_is_collected (keyid : string) (topic : Topic)
    (address : option (list byte)) (ks ks1 ks2 : KeyStore) (count : Z) :
  cache_ok ks →
  ¬ in_window ks keyid →
  addSymmetricKeyToPool keyid topic address false ks = Ok ks1 →
  cleanKeys ks1 = Some (Ok (ks2, count)) →
  pool_lookup (symKeyPool (node ks1)) keyid topic = Some (newPeer address) ∧
  pool_lookup (symKeyPool (node ks2)) keyid topic = None ∧
  ∀ (w : World) (msg : list byte),
    SendSym w keyid topic msg (node ks2)
    = Ok (Some (match GetSymKey w keyid with
                | Some _ => ErrInvalidTopic topic keyid
                | None => ErrMissingSymKey keyid
                end), node ks2, []).
Proof.
  intros Hok Hout Hadd Hclean.
  pose proof (add_node _ _ _ _ _ _ Hadd) as Hnode.
  assert (Hcache : symKeyDecryptCache ks1 = symKeyDecryptCache ks ∧
                   symKeyDecryptCacheCursor ks1 = symKeyDecryptCacheCursor ks).
  { unfold addSymmetricKeyToPool in Hadd. by injection Hadd as <-. }
  destruct Hcache as [Hc Hcur].
  assert (Hok1 : cache_ok ks1) by by apply (cache_ok_ext ks).
  assert (Hbound : pool_lookup (symKeyPool (node ks1)) keyid topic
                   = Some (newPeer address)).
  { rewrite Hnode. apply bound_lookup. }
  assert (Hgone : pool_lookup (symKeyPool (node ks2)) keyid topic = None).
  { rewrite cleanKeys_eq in Hclean by done. cbv zeta in Hclean.
    injection Hclean as <- _. cbn [node set_symKeyPool symKeyPool].
    rewrite cleaned_lookup, Hbound. cbn [newPeer protected orb].
    rewrite (is_cached_ext ks) by done.
    destruct (is_cached ks keyid) eqn:Hin; [|done].
    destruct Hout. by apply (is_cached_spec ks keyid Hok). }
  split; [done|]. split; [done|].
  intros w msg. unfold SendSym. destruct (GetSymKey w keyid); [|done].
  unfold mbind, M_bind, get. by rewrite Hgone.
Qed.

Lemma send_only_key_is_collected_witness :
  ∃ ks1 ks2 count,
    addSymmetricKeyToPool "k2" sample.topic (Some (sample.a32 xff)) false
      sample_store = Ok ks1 ∧
    cleanKeys ks1 = Some (Ok (ks2, count)) ∧
    pool_lookup (symKeyPool (node ks2)) "k2" sample.topic = None.
Proof.
  assert (Hout : ¬ in_window sample_store "k2").
  { intros (i & Hi & Hpos & Hs).
    assert (i = 1) as -> by (simpl in Hi; lia). by vm_compute in Hs. }
  assert (Hadd : ∃ ks1, addSymmetricKeyToPool "k2" sample.topic
                          (Some (sample.a32 xff)) false sample_store = Ok ks1)
    by by eexists.
  destruct Hadd as (ks1 & Hadd).
  assert (Hok1 : cache_ok ks1).
  { injection Hadd as <-. apply (cache_ok_ext sample_store); [done|done|].
    apply sample_store_ok. }
  exists ks1. eexists _, _. split; [exact Hadd|].
  split; [apply (cleanKeys_eq ks1 Hok1)|].
  apply (send_only_key_is_collected "k2" sample.topic (Some (sample.a32 xff))
           sample_store ks1 _ _ sample_store_ok Hout Hadd
           (cleanKeys_eq ks1 Hok1)).
Defined.

(** X23. A symmetric key that is added to the decryption cache outlives
    [cleanKeys]: its binding is still there, and [SendSym] with it gets
    as far as [send] with the address hint of the binding. *)
Theorem cached_key_is_kept (keyid : string) (topic : Topic)
    (a : list byte) (ks ks1 ks2 : KeyStore) (count : Z) :
  cache_ok ks →
  symKeyDecryptCacheCursor ks + 1 < maxInt64 →
  addSymmetricKeyToPool keyid topic (Some a) true ks = Ok ks1 →
  cleanKeys ks1 = Some (Ok (ks2, count)) →
  pool_lookup (symKeyPool (node ks2)) keyid topic = Some (newPeer (Some a)) ∧
  ∀ (w : World) (msg symkey : list byte),
    GetSymKey w keyid = Some symkey →
    SendSym w keyid topic msg (node ks2)
    = send w a topic msg false symkey (node ks2).
Proof.
  intros Hok Hmax Hadd Hclean.
  pose proof (add_node _ _ _ _ _ _ Hadd) as Hnode.
  pose proof Hok as [Hc Hw].
  assert (Hcap : length (symKeyDecryptCache ks) ≠ 0%nat).
  { intros H0. unfold addSymmetricKeyToPool, store_slot in Hadd.
    by rewrite H0 in Hadd. }
  assert (Hks1 : symKeyDecryptCache ks1 = symKeyDecryptCache (promoted ks keyid)
                 ∧ symKeyDecryptCacheCursor ks1
                   = symKeyDecryptCacheCursor (promoted ks keyid)).
  { unfold addSymmetricKeyToPool in Hadd.
    rewrite wrap64_small in Hadd by (unfold maxInt64 in *; lia).
    rewrite store_slot_top in Hadd by lia. by injection Hadd as <-. }
  destruct Hks1 as [Hc1 Hcur1].
  assert (Hok1 : cache_ok ks1).
  { apply (cache_ok_ext (promoted ks keyid)); [done|done|].
    apply promoted_cache_ok; [done|lia|done]. }
  assert (Hin : is_cached ks1 keyid = true).
  { apply (is_cached_spec ks1 keyid Hok1).
    exists (symKeyDecryptCacheCursor ks + 1).
    unfold slot. rewrite Hc1, Hcur1, promoted_length.
    change (symKeyDecryptCacheCursor (promoted ks keyid))
      with (symKeyDecryptCacheCursor ks + 1).
    split; [lia|]. split; [lia|].
    rewrite <- (promoted_length ks keyid).
    apply (slot_promoted_top ks keyid); lia. }
  assert (Hkept : pool_lookup (symKeyPool (node ks2)) keyid topic
                  = Some (newPeer (Some a))).
  { rewrite cleanKeys_eq in Hclean by done. cbv zeta in Hclean.
    injection Hclean as <- _. cbn [node set_symKeyPool symKeyPool].
    rewrite cleaned_lookup, Hnode. cbn [set_symKeyPool symKeyPool].
    rewrite bound_lookup, Hin. by rewrite orb_true_r. }
  split; [done|].
  intros w msg symkey Hkey. unfold SendSym. rewrite Hkey.
  unfold mbind, M_bind, get, ret, mret, M_ret. rewrite Hkept.
  cbn [newPeer address].
  destruct (send w a topic msg false symkey (node ks2)) as [[[r s1] tr1]|];
    [|done].
  by rewrite app_nil_r, app_nil_l.
Qed.

Lemma cached_key_is_kept_witness :
  ∃ ks1 ks2 count,
    addSymmetricKeyToPool "k2" sample.topic (Some (sample.a32 xff)) true
      sample_store = Ok ks1 ∧
    cleanKeys ks1 = Some (Ok (ks2, count)) ∧
    pool_lookup (symKeyPool (node ks2)) "k2" sample.topic
    = Some (newPeer (Some (sample.a32 xff))).
Proof.
  assert (Hmax : symKeyDecryptCacheCursor sample_store + 1 < maxInt64)
    by by vm_compute.
  assert (Hadd : ∃ ks1, addSymmetricKeyToPool "k2" sample.topic
                          (Some (sample.a32 xff)) true sample_store = Ok ks1)
    by by eexists.
  destruct Hadd as (ks1 & Hadd).
  assert (Hok1 : cache_ok ks1).
  { injection Hadd as <-.
    apply (cache_ok_ext (promoted sample_store "k2")); [done|done|].
    apply promoted_cache_ok; [apply sample_store_ok|by vm_compute|done]. }
  exists ks1. eexists _, _. split; [exact Hadd|].
  split; [apply (cleanKeys_eq ks1 Hok1)|].
  apply (cached_key_is_kept "k2" sample.topic (sample.a32 xff)
           sample_store ks1 _ _ sample_store_ok Hmax Hadd
           (cleanKeys_eq ks1 Hok1)).
Defined.

(** ** SetPeerPublicKey *)

(** X24. [SetPeerPublicKey] rejects a key without bytes and leaves the node
    as it was. A valid key without an address hint makes it panic.
    With a hint it binds the key to the topic, leaves every other
    binding alone, and [SendAsym] with the hex id of the key on that
    topic then gets as far as [send] with that hint. *)
Theorem SetPeerPublicKey_spec (wh : Whisper) (pubkey : list byte)
    (topic : Topic) (address : option (list byte)) (s : Pss) :
  let id := ToHex wh (FromECDSAPub wh pubkey) in
  (FromECDSAPub wh pubkey = [] →
   SetPeerPublicKey wh pubkey topic address s
   = Ok (s, Some ErrInvalidPublicKey)) ∧
  (FromECDSAPub wh pubkey ≠ [] → address = None →
   SetPeerPublicKey wh pubkey topic address s = Panic) ∧
  (∀ a, FromECDSAPub wh pubkey ≠ [] → address = Some a →
     ∃ s', SetPeerPublicKey wh pubkey topic address s = Ok (s', None) ∧
           pool_lookup (pubKeyPool s') id topic = Some (newPeer (Some a)) ∧
           (∀ id' t, (id', t) ≠ (id, topic) →
              pool_lookup (pubKeyPool s') id' t
              = pool_lookup (pubKeyPool s) id' t) ∧
           symKeyPool s' = symKeyPool s ∧ fwdCache s' = fwdCache s ∧
           Overlay s' = Overlay s ∧
           ∀ (w : World) (msg : list byte),
             ToECDSAPub w (FromHex w id) = true →
             SendAsym w id topic msg s'
             = (send w a topic msg true (FromHex w id) ;; ret None) s').
Proof.
  intros id. unfold SetPeerPublicKey. split; [|split].
  - intros ->. done.
  - intros Hne ->. case_bool_decide as Hlen; [|done].
    by apply length_zero_iff_nil in Hlen.
  - intros a Hne ->. case_bool_decide as Hlen.
    { by apply length_zero_iff_nil in Hlen. }
    eexists. split; [done|]. cbn [set_pubKeyPool pubKeyPool symKeyPool
                                  fwdCache Overlay].
    fold id. split; [apply bound_lookup|]. split; [|split; [done|]].
    + intros id' t Hne'. unfold pool_lookup, bind_key.
      destruct (decide (id' = id)) as [->|Hid].
      * rewrite lookup_insert_eq. simpl.
        rewrite lookup_insert_ne by congruence.
        by destruct (pubKeyPool s !! id).
      * by rewrite lookup_insert_ne.
    + split; [done|]. split; [done|].
      intros w msg Hvalid. unfold SendAsym. rewrite Hvalid. cbn [negb].
      unfold mbind at 1, M_bind at 1, get.
      cbn [set_pubKeyPool pubKeyPool]. rewrite bound_lookup.
      cbn [newPeer address].
      destruct (_ ≫= _) as [[[r s1] tr1]|] eqn:Hrun.
      * by rewrite app_nil_l.
      * done.
Qed.

Lemma SetPeerPublicKey_spec_witness :
  SetPeerPublicKey sample_whisper [x04] sample.topic None sample.node = Panic ∧
  ∃ s', SetPeerPublicKey sample_whisper [x04] sample.topic
          (Some (sample.a32 x01)) sample.node = Ok (s', None) ∧
        pool_lookup (pubKeyPool s') "0x04" sample.topic
        = Some (newPeer (Some (sample.a32 x01))).
Proof.
  destruct (SetPeerPublicKey_spec sample_whisper [x04] sample.topic None
              sample.node) as (_ & Hnil & _).
  split; [by apply Hnil|].
  destruct (SetPeerPublicKey_spec sample_whisper [x04] sample.topic
              (Some (sample.a32 x01)) sample.node) as (_ & _ & Hset).
  destruct (Hset (sample.a32 x01)) as (s' & Hrun & Hpool & _); [done|done|].
  by exists s'.
Defined.

(** * Handlers *)

Section HandlerFacts.
Import psshandlers.
Context {Handler : Type}.
Implicit Types (r : Registry Handler) (h : positive) (topic : Topic).

Lemma registered_dom r topic :
  registered topic r = dom (default ∅ (handlers r !! topic)).
Proof.
  unfold registered, getHandlers.
  destruct (handlers r !! topic); simpl; [done|by rewrite dom_empty_L].
Qed.

Lemma Register_fresh r topic (handler : Handler) :
  registry_ok r →
  ∀ t, (Register topic handler r).2 ∉ registered t r.
Proof.
  intros Hok t. rewrite registered_dom. cbn [Register snd].
  destruct (handlers r !! t) as [hs|] eqn:Ht; simpl.
  - intros Hin. destruct (Hok t hs Ht) as [_ Hsub].
    apply (is_fresh (dom (heap r))). by apply Hsub.
  - rewrite dom_empty_L. apply not_elem_of_empty.
Qed.

Lemma Register_ok r topic (handler : Handler) :
  registry_ok r → registry_ok (Register topic handler r).1.
Proof.
  intros Hok t hs. cbn [Register fst handlers heap].
  rewrite dom_insert_L.
  destruct (decide (t = topic)) as [->|Hne].
  - rewrite lookup_insert_eq. intros [= <-]. split.
    + apply insert_non_empty.
    + rewrite dom_insert_L.
      destruct (handlers r !! topic) as [hs|] eqn:Ht.
      * destruct (Hok topic hs Ht) as [_ Hsub].
        intros x [Hx|Hx]%elem_of_union; apply elem_of_union; [by left|].
        right. by apply Hsub.
      * rewrite dom_empty_L. intros x [Hx|Hx]%elem_of_union;
          apply elem_of_union; [by left|]. by apply elem_of_empty in Hx.
  - rewrite lookup_insert_ne by done. intros Ht.
    destruct (Hok t hs Ht) as [Hne' Hsub]. split; [done|].
    intros x Hx. apply elem_of_union. right. by apply Hsub.
Qed.

Lemma Register_registered r topic (handler : Handler) :
  registered topic (Register topic handler r).1
  = {[(Register topic handler r).2]} ∪ registered topic r.
Proof.
  rewrite !registered_dom. cbn [Register fst snd handlers].
  rewrite lookup_insert_eq. simpl. rewrite dom_insert_L.
  by destruct (handlers r !! topic).
Qed.

Lemma deregister_ok r topic h :
  registry_ok r → registry_ok (deregister topic h r).
Proof.
  intros Hok. unfold deregister.
  destruct (handlers r !! topic) as [hs|] eqn:Ht; [|done].
  destruct (Hok topic hs Ht) as [Hne Hsub].
  case_bool_decide as Hsize; intros t hs'; cbn [handlers heap].
  - intros Hl. apply lookup_delete_Some in Hl as [_ Hl]. exact (Hok _ _ Hl).
  - destruct (decide (t = topic)) as [->|Hne'].
    + rewrite lookup_insert_eq. intros [= <-]. split.
      * intros Hempty. destruct (hs !! h) as [b|] eqn:Hh.
        -- apply Hsize. rewrite <- (insert_delete_id hs h b Hh), Hempty.
           by rewrite insert_empty, map_size_singleton.
        -- rewrite delete_id in Hempty by done. by apply Hne.
      * rewrite dom_delete_L. intros x [Hx _]%elem_of_difference.
        by apply Hsub.
    + rewrite lookup_insert_ne by done. intros Hl. exact (Hok _ _ Hl).
Qed.

Lemma deregister_last r topic h :
  size (registered topic r) = 1%nat →
  getHandlers topic (deregister topic h r) = None.
Proof.
  rewrite registered_dom. unfold deregister, getHandlers.
  destruct (handlers r !! topic) as [hs|] eqn:Ht; simpl.
  2: { by rewrite dom_empty_L, size_empty. }
  rewrite size_dom. intros Hsize. rewrite bool_decide_eq_true_2 by done.
  cbn [handlers]. apply lookup_delete_eq.
Qed.

Lemma deregister_registered r topic h :
  h ∈ registered topic r →
  registered topic (deregister topic h r) = registered topic r ∖ {[h]}.
Proof.
  rewrite !registered_dom. unfold deregister.
  destruct (handlers r !! topic) as [hs|] eqn:Ht; simpl.
  2: { rewrite dom_empty_L. by intros ?%elem_of_empty. }
  intros Hin. case_bool_decide as Hsize; cbn [handlers].
  - rewrite lookup_delete_eq. simpl. rewrite dom_empty_L.
    rewrite <- size_dom in Hsize.
    apply size_1_elem_of in Hsize as (x & Hx).
    apply leibniz_equiv in Hx. rewrite Hx in Hin |- *.
    apply elem_of_singleton in Hin as ->.
    by rewrite difference_diag_L.
  - rewrite lookup_insert_eq. simpl. by rewrite dom_delete_L.
Qed.

End HandlerFacts.

(** X25. [Register] allocates a handler variable of its own, so the address
    it registers is new even for a handler function that is registered
    already; it adds this address to the handlers of the topic and
    leaves the other topics alone. Calling the deregister function it
    returned, right away, gives back the handlers as they were. *)
Theorem Register_then_deregister {Handler : Type}
    (r r' : psshandlers.Registry Handler) (topic : Topic) (handler : Handler)
    (h : positive) :
  psshandlers.registry_ok r →
  psshandlers.Register topic handler r = (r', h) →
  (h ∉ dom (psshandlers.heap r)) ∧
  (∀ t, h ∉ psshandlers.registered t r) ∧
  psshandlers.heap r' !! h = Some handler ∧
  psshandlers.registered topic r' = {[h]} ∪ psshandlers.registered topic r ∧
  (∀ hs, psshandlers.getHandlers topic r' = Some hs → hs !! h = Some true) ∧
  (∀ t, t ≠ topic →
     psshandlers.getHandlers t r' = psshandlers.getHandlers t r) ∧
  psshandlers.registry_ok r' ∧
  psshandlers.handlers (psshandlers.deregister topic h r')
  = psshandlers.handlers r.
Proof.
  intros Hok Hreg.
  pose proof (Register_fresh r topic handler Hok) as Hfresh.
  pose proof (Register_ok r topic handler Hok) as Hok'.
  rewrite Hreg in Hfresh, Hok'. cbn [fst snd] in Hfresh, Hok'.
  unfold psshandlers.Register in Hreg. injection Hreg as <- <-.
  split; [apply is_fresh|]. split; [done|].
  split; [apply lookup_insert_eq|].
  split.
  { rewrite !registered_dom. cbn [psshandlers.handlers].
    rewrite lookup_insert_eq. simpl. rewrite dom_insert_L.
    by destruct (psshandlers.handlers r !! topic). }
  split.
  { intros hs. unfold psshandlers.getHandlers. cbn [psshandlers.handlers].
    rewrite lookup_insert_eq. intros [= <-]. apply lookup_insert_eq. }
  split.
  { intros t Hne. unfold psshandlers.getHandlers. cbn [psshandlers.handlers].
    by rewrite lookup_insert_ne. }
  split; [done|].
  unfold psshandlers.deregister. cbn [psshandlers.handlers psshandlers.heap].
  rewrite lookup_insert_eq.
  specialize (Hfresh topic). rewrite registered_dom in Hfresh.
  destruct (psshandlers.handlers r !! topic) as [hs|] eqn:Ht;
    simpl in Hfresh.
  - apply not_elem_of_dom in Hfresh.
    destruct (Hok topic hs Ht) as [Hne _].
    rewrite bool_decide_eq_false_2.
    2: { rewrite map_size_insert_None by done.
         intros [= H0]. by apply map_size_empty_iff in H0. }
    cbn [psshandlers.handlers].
    rewrite insert_insert_eq, delete_insert_eq, delete_id by done.
    by apply insert_id.
  - rewrite bool_decide_eq_true_2
      by (by rewrite insert_empty, map_size_singleton).
    cbn [psshandlers.handlers]. rewrite delete_insert_eq. by apply delete_id.
Qed.

Lemma empty_registry_ok {Handler : Type} :
  psshandlers.registry_ok (psshandlers.empty (Handler := Handler)).
Proof.
  intros t hs. unfold psshandlers.empty. cbn [psshandlers.handlers].
  by rewrite lookup_empty.
Qed.

Lemma Register_then_deregister_witness :
  ∃ r' h,
    psshandlers.Register sample.topic 7%nat psshandlers.empty = (r', h) ∧
    psshandlers.registered sample.topic r'
    = {[h]} ∪ psshandlers.registered sample.topic
                (psshandlers.empty (Handler := nat)) ∧
    psshandlers.handlers (psshandlers.deregister sample.topic h r') = ∅.
Proof.
  eexists _, _. split; [reflexivity|].
  destruct (Register_then_deregister psshandlers.empty _ sample.topic 7%nat _
              empty_registry_ok eq_refl)
    as (_ & _ & _ & Hreg & _ & _ & _ & Hback).
  by split.
Defined.

(** X26. [deregister] keeps the registry well formed and the other topics
    untouched, and it removes a registered handler from its topic. But
    it does not look at the handler when the topic has a single one:
    that one is removed whatever address is passed. With more than one
    handler, an address that is not registered changes nothing. *)
Theorem deregister_spec {Handler : Type} (r : psshandlers.Registry Handler)
    (topic : Topic) (h : positive) :
  psshandlers.registry_ok r →
  let r' := psshandlers.deregister topic h r in
  psshandlers.registry_ok r' ∧
  psshandlers.heap r' = psshandlers.heap r ∧
  (∀ t, t ≠ topic →
     psshandlers.getHandlers t r' = psshandlers.getHandlers t r) ∧
  (h ∈ psshandlers.registered topic r →
   psshandlers.registered topic r' = psshandlers.registered topic r ∖ {[h]}) ∧
  (size (psshandlers.registered topic r) = 1%nat →
   psshandlers.getHandlers topic r' = None) ∧
  (size (psshandlers.registered topic r) ≠ 1%nat →
   h ∉ psshandlers.registered topic r →
   psshandlers.handlers r' = psshandlers.handlers r).
Proof.
  intros Hok r'. subst r'.
  split; [by apply deregister_ok|].
  split.
  { unfold psshandlers.deregister.
    destruct (psshandlers.handlers r !! topic); [|done].
    by case_bool_decide. }
  split.
  { intros t Hne. unfold psshandlers.deregister, psshandlers.getHandlers.
    destruct (psshandlers.handlers r !! topic); [|done].
    case_bool_decide; cbn [psshandlers.handlers].
    - by rewrite lookup_delete_ne.
    - by rewrite lookup_insert_ne. }
  split; [apply deregister_registered|].
  split; [apply deregister_last|].
  rewrite registered_dom. unfold psshandlers.deregister.
  destruct (psshandlers.handlers r !! topic) as [hs|] eqn:Ht; [|done].
  simpl. rewrite size_dom. intros Hsize Hout%not_elem_of_dom.
  rewrite bool_decide_eq_false_2 by done. cbn [psshandlers.handlers].
  rewrite delete_id by done. f_equal. by apply insert_id.
Qed.

Lemma deregister_spec_witness :
  psshandlers.getHandlers sample.topic
    (psshandlers.deregister sample.topic 5%positive
       (psshandlers.Register sample.topic 7%nat psshandlers.empty).1) = None.
Proof.
  destruct (deregister_spec
              (psshandlers.Register sample.topic 7%nat psshandlers.empty).1
              sample.topic 5%positive
              (Register_ok _ _ _ empty_registry_ok))
    as (_ & _ & _ & _ & Hlast & _).
  apply Hlast. by vm_compute.
Defined.

(** X27. Calling the deregister function of a handler twice is not safe:
    with two handlers on a topic, the second call for the first handler
    takes the other handler, which was never deregistered, off the
    topic. *)
Theorem deregister_twice_drops_other {Handler : Type}
    (r r1 r2 : psshandlers.Registry Handler) (topic : Topic)
    (f1 f2 : Handler) (h1 h2 : positive) :
  psshandlers.registry_ok r →
  psshandlers.getHandlers topic r = None →
  psshandlers.Register topic f1 r = (r1, h1) →
  psshandlers.Register topic f2 r1 = (r2, h2) →
  h1 ≠ h2 ∧
  psshandlers.registered topic r2 = {[h1; h2]} ∧
  psshandlers.registered topic (psshandlers.deregister topic h1 r2)
  = {[h2]} ∧
  psshandlers.getHandlers topic
    (psshandlers.deregister topic h1 (psshandlers.deregister topic h1 r2))
  = None.
Proof.
  intros Hok Hnone Hr1 Hr2.
  pose proof (Register_ok r topic f1 Hok) as Hok1.
  pose proof (Register_registered r topic f1) as Hreg1.
  rewrite Hr1 in Hok1, Hreg1. cbn [fst snd] in Hok1, Hreg1.
  pose proof (Register_ok r1 topic f2 Hok1) as Hok2.
  pose proof (Register_registered r1 topic f2) as Hreg2.
  pose proof (Register_fresh r1 topic f2 Hok1 topic) as Hfresh2.
  rewrite Hr2 in Hok2, Hreg2, Hfresh2. cbn [fst snd] in Hok2, Hreg2, Hfresh2.
  assert (Hr : psshandlers.registered topic r = ∅).
  { unfold psshandlers.registered. by rewrite Hnone. }
  rewrite Hr, (right_id_L ∅ (∪)) in Hreg1. rewrite Hreg1 in Hreg2, Hfresh2.
  assert (Hne : h1 ≠ h2).
  { intros ->. by apply Hfresh2, elem_of_singleton. }
  assert (Honce : psshandlers.registered topic
                    (psshandlers.deregister topic h1 r2) = {[h2]}).
  { rewrite deregister_registered
      by (rewrite Hreg2; apply elem_of_union_r; by apply elem_of_singleton).
    rewrite Hreg2. apply set_eq. intros x.
    rewrite elem_of_difference, elem_of_union, !elem_of_singleton.
    split; [by intros [[->| ->] ?]|]. intros ->. split; [by left|done]. }
  split; [done|]. split; [by rewrite Hreg2, (comm_L (∪))|]. split; [done|].
  apply deregister_last. by rewrite Honce, size_singleton.
Qed.

Lemma deregister_twice_drops_other_witness :
  ∃ r1 h1 r2 h2,
    psshandlers.Register sample.topic 7%nat psshandlers.empty = (r1, h1) ∧
    psshandlers.Register sample.topic 9%nat r1 = (r2, h2) ∧
    psshandlers.registered sample.topic r2 = {[h1; h2]} ∧
    psshandlers.getHandlers sample.topic
      (psshandlers.deregister sample.topic h1
         (psshandlers.deregister sample.topic h1 r2)) = None.
Proof.
  eexists _, _, _, _. split; [reflexivity|]. split; [reflexivity|].
  destruct (deregister_twice_drops_other psshandlers.empty _ _ sample.topic
              7%nat 9%nat _ _ empty_registry_ok eq_refl eq_refl eq_refl)
    as (_ & Hboth & _ & Hgone).
  by split.
Defined.

(** * The connection manager *)

Section ManagerFacts.
Import connmanager.
Context (SplitHostPort : string → option string) (GetNodes : list Node).
Implicit Types (c : connManager) (node : Node).

Lemma free_Some c node :
  free GetNodes c = Some node → node ∈ GetNodes ∧ ID node ∉ assigned c.
Proof.
  unfold free. intros [Hin Hf]%find_some.
  split; [by apply list_elem_of_In|]. by apply bool_decide_eq_true in Hf.
Qed.


Lemma assign_ok c (ip : string) node :
  manager_ok c → ID node ∉ assigned c → manager_ok (assign c ip node).
Proof.
  intros [Hin Hinj] Hfree. split; cbn [assign clients assigned].
  - intros ip' n. destruct (decide (ip' = ip)) as [->|Hne].
    + rewrite lookup_insert_eq. intros [= <-].
      by apply elem_of_union_l, elem_of_singleton.
    + rewrite lookup_insert_ne by done. intros Hn.
      apply elem_of_union_r. by apply (Hin ip').
  - intros ip1 ip2 n1 n2.
    destruct (decide (ip1 = ip)) as [->|Hne1];
      destruct (decide (ip2 = ip)) as [->|Hne2]; [done| | |].
    + rewrite lookup_insert_eq, lookup_insert_ne by done.
      intros [= <-] Hn2 Hid. destruct Hfree. rewrite Hid. by apply (Hin ip2).
    + rewrite lookup_insert_eq, lookup_insert_ne by done.
      intros Hn1 [= <-] Hid. destruct Hfree. rewrite <- Hid.
      by apply (Hin ip1).
    + rewrite !lookup_insert_ne by done. apply Hinj.
Qed.

Lemma getNode_ok c (req : string) :
  manager_ok c → manager_ok (getNode SplitHostPort GetNodes c req).1.
Proof.
  intros Hok. unfold getNode.
  destruct (SplitHostPort req) as [ip|]; [|done].
  destruct (clients c !! ip); [done|].
  destruct (free GetNodes c) as [node|] eqn:Hfree; [|done].
  apply assign_ok; [done|]. by apply free_Some in Hfree as [_ ?].
Qed.

Lemma getNode_list_ok c (req : string) :
  manager_ok c → manager_ok (getNode_list SplitHostPort GetNodes c req).1.
Proof.
  intros Hok. unfold getNode_list.
  destruct (SplitHostPort req) as [ip|]; [|done].
  destruct (free GetNodes c) as [node|] eqn:Hfree; [|done].
  apply assign_ok; [done|]. by apply free_Some in Hfree as [_ ?].
Qed.

Lemma serve_ok (get : connManager → string → connManager * option Node)
    (requests : list string) c :
  (∀ c req, manager_ok c → manager_ok (get c req).1) →
  manager_ok c → manager_ok (serve get c requests).1.
Proof.
  intros Hget. revert c. induction requests as [|r rest IH]; intros c Hok.
  - done.
  - cbn [serve]. pose proof (Hget c r Hok) as H1.
    destruct (get c r) as [c1 got]. specialize (IH c1 H1).
    by destruct (serve get c1 rest).
Qed.

Lemma size_list_to_set_le (l : list NodeID) :
  (size (list_to_set (C := gset NodeID) l) ≤ length l)%nat.
Proof.
  induction l as [|x l IH]; [by rewrite list_to_set_nil, size_empty|].
  rewrite list_to_set_cons, size_union_alt, size_singleton. simpl.
  pose proof (subseteq_size (list_to_set (C := gset NodeID) l ∖ {[x]})
                (list_to_set l)) as Hle.
  assert (list_to_set (C := gset NodeID) l ∖ {[x]} ⊆ list_to_set l)
    by (intros y [? _]%elem_of_difference; done).
  specialize (Hle ltac:(done)). lia.
Qed.

Lemma serve_list_counts (requests : list string) c :
  assigned c ⊆ list_to_set (ID <$> GetNodes) →
  assigned (serve (getNode_list SplitHostPort GetNodes) c requests).1
  ⊆ list_to_set (ID <$> GetNodes) ∧
  size (assigned (serve (getNode_list SplitHostPort GetNodes) c requests).1)
  = (size (assigned c)
     + length (omap id
                 (serve (getNode_list SplitHostPort GetNodes) c requests).2))%nat.
Proof.
  revert c. induction requests as [|r rest IH]; intros c Hsub.
  - simpl. split; [done|lia].
  - cbn [serve].
    destruct (getNode_list SplitHostPort GetNodes c r) as [c1 got] eqn:Hget.
    assert (H1 : assigned c1 ⊆ list_to_set (ID <$> GetNodes) ∧
                 size (assigned c1)
                 = (size (assigned c) + length (omap id [got]))%nat).
    { unfold getNode_list in Hget.
      destruct (SplitHostPort r) as [ip|].
      2: { injection Hget as <- <-. simpl. split; [done|lia]. }
      destruct (free GetNodes c) as [node|] eqn:Hfree.
      2: { injection Hget as <- <-. simpl. split; [done|lia]. }
      apply free_Some in Hfree as [Hin Hnew].
      injection Hget as <- <-. cbn [assign assigned]. split.
      - intros x [->%elem_of_singleton|Hx]%elem_of_union; [|by apply Hsub].
        apply elem_of_list_to_set, list_elem_of_fmap. by exists node.
      - rewrite size_union by (by apply disjoint_singleton_l).
        rewrite size_singleton. simpl. lia. }
    destruct H1 as [Hsub1 Hsize1]. specialize (IH c1 Hsub1).
    destruct (serve (getNode_list SplitHostPort GetNodes) c1 rest)
      as [c2 gots].
    cbn [fst snd] in IH |- *. destruct IH as [Hsub2 Hsize2].
    split; [done|]. rewrite Hsize2, Hsize1.
    destruct got as [n|].
    + change (omap id (Some n :: gots)) with (n :: omap id gots).
      change (omap id [Some n]) with [n]. simpl length. lia.
    + change (omap id (None :: gots)) with (omap id gots).
      change (omap id [@None Node]) with (@nil Node). simpl length. lia.
Qed.

End ManagerFacts.

Lemma newConnManager_ok : connmanager.manager_ok connmanager.newConnManager.
Proof.
  split; intros ip; intros *; unfold connmanager.newConnManager;
    cbn [connmanager.clients]; by rewrite lookup_empty.
Qed.

(** X28. Under either revision of [getNode], whatever requests a new manager
    has served, every client holds a node that is marked as assigned
    and no two clients hold nodes of the same id. *)
Theorem serve_keeps_ok (SplitHostPort : string → option string)
    (GetNodes : list connmanager.Node) (requests : list string) :
  connmanager.manager_ok
    (connmanager.serve (connmanager.getNode SplitHostPort GetNodes)
       connmanager.newConnManager requests).1 ∧
  connmanager.manager_ok
    (connmanager.serve (connmanager.getNode_list SplitHostPort GetNodes)
       connmanager.newConnManager requests).1.
Proof.
  split; (apply serve_ok; [|apply newConnManager_ok]).
  - apply getNode_ok.
  - apply getNode_list_ok.
Qed.



(** X30. [getNode] of the revision without the lookup takes a node that was
    not assigned for every request it grants, also for a client that
    holds one already: over any run of requests it grants at most as
    many as the network has nodes. *)
Theorem serve_list_bounded (SplitHostPort : string → option string)
    (GetNodes : list connmanager.Node) (requests : list string) :
  (length (omap id
             (connmanager.serve
                (connmanager.getNode_list SplitHostPort GetNodes)
                connmanager.newConnManager requests).2)
   ≤ length GetNodes)%nat.
Proof.
  destruct (serve_list_counts SplitHostPort GetNodes requests
              connmanager.newConnManager) as [Hsub Hsize].
  { unfold connmanager.newConnManager. cbn [connmanager.assigned].
    intros x Hx. by apply elem_of_empty in Hx. }
  apply subseteq_size in Hsub.
  pose proof (size_list_to_set_le (connmanager.ID <$> GetNodes)) as Hle.
  rewrite length_fmap in Hle.
  unfold connmanager.newConnManager in Hsize at 2.
  cbn [connmanager.assigned] in Hsize. rewrite size_empty in Hsize. lia.
Qed.

(** A client that asks again: with the lookup it is given its node
    again and again, without it a run of requests from one client uses
    the network up. Two nodes, three requests of one client. *)
Example reconnect_sample :
  let split := λ req : string, Some req in
  let n1 := {| connmanager.ID := [x01] |} in
  let n2 := {| connmanager.ID := [x02] |} in
  (connmanager.serve (connmanager.getNode split [n1; n2])
     connmanager.newConnManager ["a"; "a"; "a"]%string).2
  = [Some n1; Some n1; Some n1] ∧
  (connmanager.serve (connmanager.getNode_list split [n1; n2])
     connmanager.newConnManager ["a"; "a"; "a"]%string).2
  = [Some n1; Some n2; None].
Proof. split; reflexivity. Qed.
